(** * chordbase: intervals, notes, scales, chords and the chord-ID codec

    A shallow embedding of the JavaScript modules [Interval], [Note],
    [Scale] and [Chord] / [ChordWithBase], followed by the properties of
    the specification that are settled against them.

    Conventions of the embedding.
    - JavaScript numbers that are integers in every run considered here are
      [Z]; [%] is the truncating remainder [Z.rem], [Math.floor(a / b)] is
      [Z.div] (for positive [b]).  Where the source can produce [NaN] or
      [-Infinity] the value has type [jsnum].  A JavaScript number is a
      double: it holds every integer up to [MAX_SAFE_INTEGER] in absolute
      value, [parseInt] rounds a longer run of digits, and [String(n)]
      writes an exponent from 1e21 on.  The functions [parseInt] and
      [Z_to_string] below are those of the source on the safe integers
      only; a property that depends on the value read from a run of digits
      or on the text written for a number is stated for safe integers.
    - Strings are byte strings ([string]); the only character outside ASCII
      the source mentions is the natural sign of [alterationPattern], which
      is its three UTF-8 bytes here.
    - An array or string indexed out of range yields [undefined] in
      JavaScript: lookups return [option].
    - A thrown [TypeError] (a property read on [undefined], a call of a
      missing method) is [Err TypeError] in the monad [res]. *)

From Stdlib Require Import ZArith String Ascii List Lia QArith Qcanon.
From Stdlib Require Import DecimalString DecimalZ.
From Stdlib Require Import Sorted.
From stdpp Require Import base option list strings gmap.

Local Open Scope string_scope.
Local Open Scope list_scope.
Local Open Scope Z_scope.

(** ** JavaScript values and primitive operations *)

Module JS.

(** A number that may be [NaN] or [-Infinity]. *)
Inductive jsnum := NaN | NegInf | Num (z : Z).

(** What a [throw] carries.  [NumberIsNaN] marks a run in which a field
    that this embedding keeps in [Z] would hold [NaN]; it is not a
    JavaScript exception. *)
Inductive error := TypeError | NumberIsNaN.

Inductive res (A : Type) := Ok (a : A) | Err (e : error).
Arguments Ok {A} a.
Arguments Err {A} e.

#[global] Instance res_ret : MRet res := fun A a => Ok a.
#[global] Instance res_bind : MBind res := fun A B f m =>
  match m with Ok a => f a | Err e => Err e end.
#[global] Instance res_fmap : FMap res := fun A B f m =>
  match m with Ok a => Ok (f a) | Err e => Err e end.

(** [x] read where [undefined] would throw on the next property access. *)
Definition defined {A} (o : option A) : res A :=
  match o with Some a => Ok a | None => Err TypeError end.

(** [o] holds a number kept in [Z]; [None] is [NaN]. *)
Definition numeric {A} (o : option A) : res A :=
  match o with Some a => Ok a | None => Err NumberIsNaN end.

(** [arr[i]] for an integer-valued [i]. *)
Definition index {A} (l : list A) (i : Z) : option A :=
  if i <? 0 then None else l !! Z.to_nat i.

(** [arr.indexOf(x)]. *)
Fixpoint indexOf_from (x : string) (l : list string) (k : Z) : Z :=
  match l with
  | [] => -1
  | y :: l' => if String.eqb x y then k else indexOf_from x l' (k + 1)
  end.
Definition indexOf (l : list string) (x : string) : Z := indexOf_from x l 0.

(** [arr.includes(x)] on an array of strings. *)
Definition includes (l : list string) (x : string) : bool :=
  existsb (String.eqb x) l.

(** [arr.includes(x)] where [x] may be [undefined]: no string equals it. *)
Definition includes_opt (l : list string) (x : option string) : bool :=
  match x with Some s => includes l s | None => false end.

Definition is_digit (c : ascii) : bool :=
  ((48 <=? nat_of_ascii c) && (nat_of_ascii c <=? 57))%nat.

Definition is_space (c : ascii) : bool :=
  let n := nat_of_ascii c in
  ((n =? 32) || ((9 <=? n) && (n <=? 13)))%nat.

(** The longest prefix whose characters satisfy [p], and the rest. *)
Fixpoint span (p : ascii -> bool) (s : string) : string * string :=
  match s with
  | EmptyString => (EmptyString, EmptyString)
  | String c r =>
      if p c then let '(a, b) := span p r in (String c a, b)
      else (EmptyString, s)
  end.

Definition all_chars (p : ascii -> bool) (s : string) : bool :=
  forallb p (list_ascii_of_string s).

(** [s.slice(k)] and [s.substring(k)] for [0 <= k]. *)
Fixpoint slice (k : nat) (s : string) : string :=
  match k, s with
  | O, _ => s
  | S k', String _ r => slice k' r
  | S _, EmptyString => EmptyString
  end.

(** [s[0]] as a string; the empty string stands for [undefined]. *)
Definition first_char (s : string) : string :=
  match s with String c _ => String c EmptyString | EmptyString => EmptyString end.

(** [s.includes(t)]. *)
Fixpoint contains (t s : string) : bool :=
  String.prefix t s ||
  match s with String _ r => contains t r | EmptyString => false end.

(** ["c".repeat(n)]. *)
Definition repeat_str (c : string) (n : Z) : string :=
  String.concat "" (replicate (Z.to_nat n) c).

(** Number of occurrences of the character [c]: [(s.match(/c/g) || []).length]. *)
Fixpoint count_char (c : ascii) (s : string) : Z :=
  match s with
  | EmptyString => 0
  | String d r => (if Ascii.eqb c d then 1 else 0) + count_char c r
  end.

(** Value of a string of decimal digits, most significant first. *)
Fixpoint digits_value (acc : Z) (s : string) : Z :=
  match s with
  | EmptyString => acc
  | String c r => digits_value (10 * acc + (Z.of_nat (nat_of_ascii c) - 48)) r
  end.

(** [parseInt(s, 10)]: leading white space, an optional sign, then the
    longest run of digits; [None] is [NaN].  The value is that of the
    digits; the source has this value when it is a safe integer, and the
    double nearest to it otherwise. *)
Definition parseInt (s : string) : option Z :=
  let body := snd (span is_space s) in
  let '(neg, body) :=
    match body with
    | String c r =>
        if Ascii.eqb c "-" then (true, r)
        else if Ascii.eqb c "+" then (false, r)
        else (false, body)
    | EmptyString => (false, body)
    end in
  let ds := fst (span is_digit body) in
  match ds with
  | EmptyString => None
  | _ => Some (if neg then - digits_value 0 ds else digits_value 0 ds)
  end.

(** [String(n)] and [`${n}`] for an integer [n]: its decimal digits, as
    the source writes every integer below 1e21 in absolute value. *)
Definition Z_to_string (z : Z) : string := NilZero.string_of_int (Z.to_int z).

(** [Number.MAX_SAFE_INTEGER]; a double holds a safe integer, and each of
    its two neighbours, exactly. *)
Definition MAX_SAFE_INTEGER : Z := 2 ^ 53 - 1.
Definition safe_integer (z : Z) : Prop :=
  - MAX_SAFE_INTEGER <= z <= MAX_SAFE_INTEGER.

(** [Number(s)] for the strings that reach it here: the empty string is
    [0], an optionally signed run of digits is its value, anything else
    that starts with a letter other than [I] is [NaN].  (Decimal points,
    exponents, radix prefixes and surrounding white space are not
    modelled; no string of this development has them.) *)
Definition to_number (s : string) : jsnum :=
  match s with
  | EmptyString => Num 0
  | _ =>
      let body := match s with
                  | String "-" r => r | String "+" r => r | _ => s end in
      if negb (String.eqb body "") && all_chars is_digit body
      then match parseInt s with Some z => Num z | None => NaN end
      else NaN
  end.

(** [x % m] on a possibly non-finite [x]. *)
Definition rem (x : jsnum) (m : Z) : jsnum :=
  match x with Num z => Num (Z.rem z m) | _ => NaN end.

(** Truthiness of a number. *)
Definition truthy (x : jsnum) : bool :=
  match x with Num z => negb (z =? 0) | NegInf => true | NaN => false end.

(** [Math.max(...l)]; [-Infinity] for no argument. *)
Definition math_max (l : list Z) : jsnum :=
  match l with
  | [] => NegInf
  | z :: l' => Num (fold_left Z.max l' z)
  end.

End JS.
Import JS.

(** ** Interval (a diatonic number and a chromatic quality) *)

Module Interval.

Record t := mk { number : Z; quality : Z }.

(** [new Interval(number, quality)]. *)
Definition new (number quality : Z) : t :=
  mk number
     (if (quality <=? -12) || (quality >=? 12) then Z.rem quality 12
      else quality).

(** [[1, 4, 5].includes(number % 7)]. *)
Definition perfect_class (n : Z) : bool :=
  existsb (Z.eqb (Z.rem n 7)) [1; 4; 5].

(** The letter [toString] puts before the number. *)
Definition letter_of (i : t) : string :=
  if quality i =? 1 then "A"
  else if perfect_class (number i) then
    (if quality i =? -1 then "D" else "P")
  else if quality i =? -2 then "D"
  else if quality i =? -1 then "m"
  else "M".

Definition toString (i : t) : string := letter_of i +:+ Z_to_string (number i).

(** [Interval.strToInterval(intervalStr)] for a defined argument; [None]
    when the number part does not parse (JavaScript builds an interval
    whose number is [NaN]). *)
Definition strToInterval (intervalStr : string) : option t :=
  let qualityChar := first_char intervalStr in
  number ← parseInt (slice 1 intervalStr);
  let quality :=
    if perfect_class number then
      (if String.eqb qualityChar "A" then 1
       else if String.eqb qualityChar "D" then -1 else 0)
    else
      (if String.eqb qualityChar "m" then -1
       else if String.eqb qualityChar "A" then 1
       else if String.eqb qualityChar "D" then -2 else 0) in
  Some (new number quality).

(** The unaltered semitone size of each degree of the octave. *)
Definition table : list Z := [0; 2; 4; 5; 7; 9; 11].

(** [toSemitones()]; the table lookup is [undefined] for a negative index
    and the sum is then [NaN]. *)
Definition toSemitones (i : t) : jsnum :=
  match index table (Z.rem (number i - 1) 7) with
  | Some b => Num (b + quality i + ((number i - 1) / 7) * 12)
  | None => NaN
  end.

(** [name()]: the quality in words, the number and its ordinal ending,
    which is picked by the last digit of the number. *)
Definition ordinal (number : Z) : string :=
  match index ["st"; "nd"; "rd"] (Z.rem number 10 - 1) with
  | Some s => s
  | None => "th"
  end.

Definition word_of (i : t) : string :=
  if quality i =? 1 then "augmented"
  else if perfect_class (number i) then
    (if quality i =? -1 then "diminished" else "perfect")
  else if quality i =? -2 then "diminished"
  else if quality i =? -1 then "minor"
  else "major".

Definition name (i : t) : string :=
  word_of i +:+ " " +:+ Z_to_string (number i) +:+ ordinal (number i).

(** An interval object whose quality may be [NaN], as [add] and
    [subtract] build it when a table lookup is out of range. *)
Record raw := mk_raw { raw_number : Z; raw_quality : jsnum }.

(** [new Interval(number, quality)] on such a quality; the range test of
    the constructor is false on [NaN]. *)
Definition new_raw (number : Z) (quality : jsnum) : raw :=
  match quality with
  | Num q => mk_raw number (Num (Interval.quality (new number q)))
  | _ => mk_raw number quality
  end.

(** [toSemitones()] on such an object. *)
Definition raw_toSemitones (r : raw) : jsnum :=
  match raw_quality r with
  | Num q => toSemitones (mk (raw_number r) q)
  | _ => NaN
  end.

(** The renormalization of [add] and [subtract]: one step of 12 towards
    the range from -6 to 6. *)
Definition normalize (q : Z) : Z :=
  if q >? 6 then q - 12 else if q <? -6 then q + 12 else q.

(** [add(other)].  A [NaN] among the semitone counts or from the table
    makes the quality [NaN]; the two comparisons are then false. *)
Definition add (a other : t) : raw :=
  let newNumber := number a + number other - 1 in
  let newQuality :=
    match toSemitones a, toSemitones other,
          index table (Z.rem (newNumber - 1) 7) with
    | Num x, Num y, Some base => Num (normalize (x + y - base))
    | _, _, _ => NaN
    end in
  new_raw newNumber newQuality.

(** [subtract(other)]. *)
Definition subtract (a other : t) : raw :=
  let newNumber := number a + 1 - number other in
  let newQuality :=
    match toSemitones a, toSemitones other,
          index table (Z.rem (newNumber - 1) 7) with
    | Num x, Num y, Some base => Num (normalize (x - y - base))
    | _, _, _ => NaN
    end in
  new_raw newNumber newQuality.


(** The comparator of every [sort] call of the source:
    [a.number - b.number || a.quality - b.quality], negative when [a]
    goes first. *)
Definition compare (a b : t) : Z :=
  if number a - number b =? 0 then quality a - quality b
  else number a - number b.

Fixpoint insert (a : t) (l : list t) : list t :=
  match l with
  | [] => [a]
  | b :: l' => if compare a b <=? 0 then a :: l else b :: insert a l'
  end.

(** [arr.sort(compare)]: a stable sort, here by insertion from the right
    (an element goes before the later elements it ties with). *)
Definition sort (l : list t) : list t := foldr insert [] l.

End Interval.

(** ** Note (a letter, a run of accidentals, an octave) *)

Module Note.

Record t := mk { letter : string; accidental : string; octave : Z }.

(** [new Note(name, octave)] for a defined [name]. *)
Definition new (name : string) (octave : Z) : t :=
  mk (first_char name) (slice 1 name) octave.

(** [new Note(name, octave)] where [name] may be [undefined]: reading
    [name[0]] then throws. *)
Definition new_opt (name : option string) (octave : Z) : res t :=
  name ← defined name; mret (new name octave).

Definition NOTES : list string :=
  ["C"; "C#"; "D"; "D#"; "E"; "F"; "F#"; "G"; "G#"; "A"; "A#"; "B"].

(** The letters of ["CDEFGAB"], by position. *)
Definition letters : list string := ["C"; "D"; "E"; "F"; "G"; "A"; "B"].

(** ["CDEFGAB".indexOf(l)] for a one-character [l]; the empty string
    stands for [undefined] and is not found. *)
Definition letter_index (l : string) : Z := indexOf letters l.

(** The option bag of [enharmonicEquiv]; an absent field is [undefined]. *)
Record options := { favor : option string; force : bool; oletter : option string }.

Definition accidentalCount (n : t) : Z :=
  count_char "#" (accidental n) - count_char "b" (accidental n).

(** [x + suffix] where [x] may be [undefined]. *)
Definition concat_opt (x : option string) (suffix : string) : string :=
  match x with Some s => s +:+ suffix | None => "undefined" +:+ suffix end.

Definition is_str (x : option string) (s : string) : bool :=
  match x with Some y => String.eqb y s | None => false end.

(** [enharmonicEquiv(options?)]. *)
Definition enharmonicEquiv (args : option options) (n : t) : res t :=
  let favor := match args with Some o => favor o | None => Some "natural" end in
  let force := match args with Some o => force o | None => false end in
  let letter_arg := match args with Some o => oletter o | None => Some "" end in
  let baseIndex := indexOf NOTES (letter n) in
  let shiftedIndex := Z.rem (baseIndex + accidentalCount n) 12 in
  let enharmonicNote := index NOTES shiftedIndex in
  enharmonicNote ←
    match letter_arg with
    | Some (String c r as l) =>
        let letterIndex := indexOf NOTES l in
        let diff := Z.rem (shiftedIndex - letterIndex) 12 in
        let diff := if diff >? 6 then diff - 12
                    else if diff <? -6 then diff + 12 else diff in
        Ok (if diff >? 0 then Some (l +:+ repeat_str "#" diff)
            else if diff <? 0 then Some (l +:+ repeat_str "b" (- diff))
            else enharmonicNote)
    | _ =>
        e1 ← (if is_str favor "flat" then
                e ← defined enharmonicNote;
                mret (if contains "#" e
                      then Some (concat_opt (index NOTES (Z.rem (shiftedIndex + 1) 12)) "b")
                      else enharmonicNote)
              else Ok enharmonicNote);
        mret (if force then
                if is_str favor "sharp" && includes_opt ["C"; "F"] e1
                then Some (concat_opt (index NOTES (Z.rem (shiftedIndex - 1) 12)) "#")
                else if is_str favor "flat" && includes_opt ["B"; "E"] e1
                then Some (concat_opt (index NOTES (Z.rem (shiftedIndex + 1) 12)) "b")
                else e1
              else e1)
    end;
  let newOctave :=
    if is_str enharmonicNote "B#" then octave n - 1
    else if is_str enharmonicNote "Cb" then octave n + 1
    else octave n in
  new_opt enharmonicNote newOctave.

(** The getter [midi], that is [_getMidiValue()]. *)
Definition midi (n : t) : Z :=
  let baseIndex := indexOf NOTES (letter n) in
  let shiftedIndex := baseIndex + accidentalCount n in
  12 * (octave n + 1) + shiftedIndex.

(** [toSemitones()]. *)
Definition toSemitones (n : t) : res Z :=
  equivThis ← enharmonicEquiv None n;
  mret (indexOf NOTES (letter equivThis +:+ accidental equivThis)
        + octave n * 12 + 12).

(** [Note.intToNote(num)]. *)
Definition intToNote (num : Z) : res t :=
  new_opt (index NOTES (Z.rem num 12)) (num / 12 - 1).

(** [add(interval)]; a [NaN] sum indexes [NOTES] with [NaN], which is
    [undefined], and [new Note] throws. *)
Definition add (n : t) (interval : Interval.t) : res t :=
  s ← toSemitones n;
  note ← match Interval.toSemitones interval with
         | Num si => intToNote (s + si)
         | _ => Err TypeError
         end;
  let selfIndex := letter_index (letter n) in
  let newLetter := index letters (Z.rem (selfIndex + Interval.number interval - 1) 7) in
  enharmonicEquiv (Some {| favor := None; force := false; oletter := newLetter |}) note.

(** What [subtract] builds: an interval whose quality may be [NaN]. *)
Record diff := mk_diff { diff_number : Z; diff_quality : jsnum }.

(** [new Interval(number, quality)] on such a quality; the range test of
    the constructor is false for [NaN]. *)
Definition new_diff (number : Z) (quality : jsnum) : diff :=
  match quality with
  | Num q => mk_diff number (Num (Interval.quality (Interval.new number q)))
  | _ => mk_diff number quality
  end.

(** [Interval.prototype.toSemitones] on the result of [subtract]. *)
Definition diff_toSemitones (d : diff) : jsnum :=
  match diff_quality d with
  | Num q => Interval.toSemitones (Interval.mk (diff_number d) q)
  | _ => NaN
  end.

(** [subtract(other)]. *)
Definition subtract (n other : t) : res diff :=
  let selfIndex := letter_index (letter n) in
  let otherIndex := letter_index (letter other) in
  let diatonicInterval := Z.rem (selfIndex - otherIndex) 7 + 1 in
  a ← toSemitones n;
  b ← toSemitones other;
  let chromaticDifference := a - b in
  let octaveDifference := octave n - octave other in
  let octaveDifference :=
    if selfIndex <? otherIndex then octaveDifference - 1 else octaveDifference in
  let diatonicInterval := diatonicInterval + octaveDifference * 7 in
  let quality :=
    match index Interval.table (Z.rem (diatonicInterval - 1) 7) with
    | Some t => Num (chromaticDifference - (t + octaveDifference * 12))
    | None => NaN
    end in
  mret (new_diff diatonicInterval quality).

(** [Note.strToNote(string)]: the first place where the pattern
    [([A-Ga-g]+)([0-9]+)] matches.  At a given start the letter run is
    taken as long as possible; a shorter run would be followed by a
    letter, not a digit, so no backtracking succeeds where this fails. *)
Definition is_note_letter (c : ascii) : bool :=
  let n := nat_of_ascii c in
  (((65 <=? n) && (n <=? 71)) || ((97 <=? n) && (n <=? 103)))%nat.

Definition match_here (s : string) : option (string * string) :=
  let '(ls, r) := span is_note_letter s in
  let '(ds, _) := span is_digit r in
  match ls, ds with
  | String _ _, String _ _ => Some (ls, ds)
  | _, _ => None
  end.

Fixpoint search (s : string) : option (string * string) :=
  match match_here s with
  | Some m => Some m
  | None => match s with String _ r => search r | EmptyString => None end
  end.

(** [None] is the [null] result. *)
Definition strToNote (s : string) : option t :=
  match search s with
  | Some (ls, ds) => Some (new ls (digits_value 0 ds))
  | None => None
  end.

(** [toString()]; a letter that is [undefined] (the note was made of
    the empty name) is written out as that word. *)
Definition toString (n : t) : string :=
  (if String.eqb (letter n) "" then "undefined" else letter n)
  +:+ accidental n +:+ Z_to_string (octave n).

End Note.

(** ** Scale (a base note and the intervals measured from it) *)

Module Scale.

(** Scale.js declares a class [Note] of its own, used for the default base;
    a base handed in by a caller is a [Note] of Note.js.  [notes] calls
    whichever [add] the base has. *)
Record local_note := mk_local { name : string; local_octave : Z }.

Inductive note := External (n : Note.t) | Local (p : local_note).

Definition note_add (b : note) (interval : Interval.t) : res note :=
  match b with
  | External n => External <$> Note.add n interval
  | Local p => Ok (Local (mk_local (name p) (local_octave p)))
  end.

(** [n.toSemitones()]; the local class has no such method. *)
Definition note_toSemitones (b : note) : res Z :=
  match b with
  | External n => Note.toSemitones n
  | Local _ => Err TypeError
  end.

Record t := mk { base : note; intervals : list Interval.t }.

Definition default_base : note := Local (mk_local "C" 4).

(** [new Scale(base, ...intervals)]; [None] is a missing or [null] base. *)
Definition new (base : option note) (intervals : list Interval.t) : t :=
  mk (match base with Some b => b | None => default_base end)
     (Interval.sort intervals).

Definition SCALES : list string :=
  ["major"; "natural minor"; "harmonic minor"; "melodic minor";
   "major pentatonic scale"; "minor pentatonic scale"; "blues scale"].

(** [notes()]. *)
Definition notes (s : t) : res (list note) :=
  rest ← mapM (note_add (base s)) (intervals s);
  mret (base s :: rest).

(** [intervals[i].quality = -1]: the field is written directly. *)
Definition set_quality (q : Z) (i : Interval.t) : Interval.t :=
  Interval.mk (Interval.number i) q.

(** [idxs.forEach(i => { intervals[i].quality = -1 })]. *)
Definition flatten (idxs : list nat) (l : list Interval.t) : list Interval.t :=
  foldl (fun l i => alter (set_quality (-1)) i l) l idxs.

(** [l.filter((_, i) => !idxs.includes(i))]. *)
Fixpoint drop_indices_from {A} (idxs : list nat) (k : nat) (l : list A) : list A :=
  match l with
  | [] => []
  | x :: l' =>
      if existsb (Nat.eqb k) idxs then drop_indices_from idxs (S k) l'
      else x :: drop_indices_from idxs (S k) l'
  end.
Definition drop_indices {A} (idxs : list nat) (l : list A) : list A :=
  drop_indices_from idxs 0 l.

(** [Scale.generateScale(name, base)]; [None] is an omitted base. *)
Definition generateScale (name : string) (base : option note) : t :=
  let base := match base with Some b => b | None => default_base end in
  let scale := new (Some base) (map (fun i => Interval.new (i + 2) 0) [0; 1; 2; 3; 4; 5]) in
  if String.eqb name "major" then scale
  else if String.eqb name "natural minor" then
    mk base (flatten [1; 4; 5]%nat (intervals scale))
  else if String.eqb name "harmonic minor" then
    mk base (flatten [1; 4]%nat (intervals scale))
  else if String.eqb name "melodic minor" then
    mk base (flatten [1]%nat (intervals scale))
  else if String.eqb name "major pentatonic scale" then
    mk base (drop_indices [2; 5]%nat (intervals scale))
  else if String.eqb name "minor pentatonic scale" then
    mk base (drop_indices [0; 4]%nat (flatten [1; 5]%nat (intervals scale)))
  else if String.eqb name "blues scale" then
    mk base (Interval.sort
               (drop_indices [0; 4]%nat (flatten [1; 5]%nat (intervals scale))
                ++ [Interval.new 4 1]))
  else new (Some base) [].

(** The pitch classes [notes().map(n => n.toSemitones() % 12)]. *)
Definition pitch_classes (s : t) : res (list Z) :=
  ns ← notes s;
  mapM (fun n => k ← note_toSemitones n; mret (Z.rem k 12)) ns.

End Scale.

(** ** Chord and ChordWithBase (intervals above a root, the root optional) *)

Module Chord.

(** [Chord.MAINS], in the order of its keys. *)
Definition MAINS : list (string * list string) :=
  [("dim", ["P1"; "m3"; "D5"; "D7"; "M9"; "P11"; "M13"]);
   ("min", ["P1"; "m3"; "P5"; "m7"; "M9"; "P11"; "M13"]);
   ("dom", ["P1"; "M3"; "P5"; "m7"; "M9"; "P11"; "M13"]);
   ("maj", ["P1"; "M3"; "P5"; "M7"; "M9"; "P11"; "M13"])].

(** [Chord.MAINS[quality]]. *)
Definition mains (quality : string) : option (list string) :=
  snd <$> List.find (fun e => String.eqb (fst e) quality) MAINS.

(** A [Chord] has no base; a [ChordWithBase] has one. *)
Record t := mk { intervals : list Interval.t; base : option Note.t }.

(** [new Chord(...intervals)] and [new ChordWithBase(base, ...intervals)]. *)
Definition new (intervals : list Interval.t) : t :=
  mk (Interval.sort intervals) None.
Definition new_with_base (base : Note.t) (intervals : list Interval.t) : t :=
  mk (Interval.sort intervals) (Some base).

(** [notes(base)]. *)
Definition notes (c : t) (base : Note.t) : res (list Note.t) :=
  rest ← mapM (Note.add base) (intervals c);
  mret (base :: rest).

(** [this.intervals.map(i => String(i))]. *)
Definition names (c : t) : list string := map Interval.toString (intervals c).

(** [quality()]. *)
Definition quality (c : t) : string :=
  let intervals := names c in
  if includes intervals "m3" then
    if includes intervals "D5" && includes intervals "D7" then "dim" else "min"
  else if includes intervals "M7" then "maj"
  else "dom".

(** [sus()]. *)
Definition sus (c : t) : string :=
  let intervals := names c in
  if negb (includes intervals "m3") && negb (includes intervals "M3")
     && includes intervals "M2" then "sus2"
  else if includes intervals "M4" then "sus4"
  else "".

(** [structure()].  In [i % 2] the interval object [i] is converted to a
    number through its [toString]. *)
Definition structure (c : t) : string :=
  let power :=
    match intervals c with
    | [i] => String.eqb (Interval.toString i) "P5"
    | _ => false
    end in
  if power then "power"
  else
    let odd := List.filter
                 (fun i => truthy (rem (to_number (Interval.toString i)) 2))
                 (intervals c) in
    match math_max (map Interval.quality odd) with
    | Num 1 => "unison"
    | Num 3 => "third"
    | Num 5 => "triad"
    | Num 7 => "seventh"
    | Num 9 => "ninth"
    | Num 11 => "eleventh"
    | Num 13 => "thirteenth"
    | _ => ""
    end.

(** A property that holds [undefined], a number or a string. *)
Inductive jsval := VUndef | VNum (z : Z) | VStr (s : string).

(** An [Interval] object as [id] builds it: [new Interval(4, 0)] has two
    numbers, [new Interval("D5")] has the string as its number and no
    quality (the range test of the constructor is false on [undefined]). *)
Record loose := mk_loose { lnumber : jsval; lquality : jsval }.

Definition loose_of_numbers (number quality : Z) : loose :=
  let i := Interval.new number quality in
  mk_loose (VNum (Interval.number i)) (VNum (Interval.quality i)).
Definition loose_of_string (s : string) : loose := mk_loose (VStr s) VUndef.

Definition val_to_number (v : jsval) : jsnum :=
  match v with VUndef => NaN | VNum z => Num z | VStr s => to_number s end.
Definition val_to_string (v : jsval) : string :=
  match v with VUndef => "undefined" | VNum z => Z_to_string z | VStr s => s end.
Definition gt0 (v : jsval) : bool :=
  match val_to_number v with Num z => 0 <? z | _ => false end.
Definition lt0 (v : jsval) : bool :=
  match val_to_number v with Num z => z <? 0 | NegInf => true | NaN => false end.

(** [(a.quality > 0 ? "#" : a.quality < 0 ? "b" : "") + a.number]. *)
Definition render (a : loose) : string :=
  (if gt0 (lquality a) then "#" else if lt0 (lquality a) then "b" else "")
  +:+ val_to_string (lnumber a).

(** [Object.values(Chord.MAINS).map(m => m[i]).reverse()]. *)
Definition column (i : Z) : list (option string) :=
  rev (map (fun e => index (snd e) i) MAINS).

(** The search for the highest matching interval: the first [i] from 6
    down to 1, and for it the first interval, found in column [i];
    [mainNumber] keeps its initial ["1"] when there is none. *)
Definition main_number (intervals : list string) : string :=
  let hit i := List.find (fun interval =>
                 existsb (fun e => Note.is_str e interval) (column i)) intervals in
  match omap hit [6; 5; 4; 3; 2; 1] with
  | interval :: _ => slice 1 interval
  | [] => "1"
  end.

(** The loop that sorts the intervals into alterations and additions. *)
Fixpoint classify (quality sus : string) (intervals : list string)
    (alterations additions : list loose) : list loose * list loose :=
  match intervals with
  | [] => (alterations, additions)
  | interval :: rest =>
      match parseInt (slice 1 interval) with
      | Some number =>
          let expectedInterval :=
            table ← mains quality; index table (number / 2) in
          if (Z.rem number 2 =? 1) && negb (Note.is_str expectedInterval interval)
          then classify quality sus rest
                 (alterations ++ [loose_of_string interval]) additions
          else if (Z.rem number 2 =? 0)
                  && negb (String.eqb (slice 3 sus) (Z_to_string number))
          then classify quality sus rest
                 alterations (additions ++ [loose_of_string interval])
          else classify quality sus rest alterations additions
      | None => classify quality sus rest alterations additions
      end
  end.

(** [id(base)]. *)
Definition id (c : t) (base : option Note.t) : string :=
  let intervals := names c in
  let sus := sus c in
  let quality := quality c in
  let mainNumber := main_number intervals in
  let additions :=
    if String.eqb sus "sus2" && includes intervals "M4"
    then [loose_of_numbers 4 0] else [] in
  let aug := includes intervals "A5" in
  let '(alterations, additions) := classify quality sus intervals [] additions in
  let alts := map render alterations in
  let adds := map render additions in
  let quality :=
    if String.eqb quality "dom"
       || (String.eqb quality "maj"
           && match parseInt mainNumber with Some n => n <=? 5 | None => false end)
    then "" else quality in
  let mainNumber :=
    if String.eqb mainNumber "5" || String.eqb mainNumber "1" then ""
    else mainNumber in
  (match base with Some b => Note.letter b | None => "" end)
  +:+ "^" +:+ (if aug then "aug" else "") +:+ sus +:+ quality +:+ mainNumber
  +:+ String.concat "" alts +:+ String.concat "" adds.

(** [c.id()]: the default argument is [null] for a [Chord] and
    [this.base] for a [ChordWithBase]. *)
Definition id_self (c : t) : string := id c (base c).

(** *** Patterns of [idToChord]

    Each pattern is a function that matches at the start of its argument
    and returns the matched text.  None of them matches the empty text. *)

(** [s.match(p)]: the match at the leftmost position that has one. *)
Fixpoint find_first (p : string -> option string) (s : string) : option string :=
  match p s with
  | Some m => Some m
  | None => match s with String _ r => find_first p r | EmptyString => None end
  end.

(** [s.match(p) || []] for a pattern with the [g] flag: all matches from
    left to right, each search resuming where the last match ended;
    [skip] counts the characters of a match still to be passed. *)
Fixpoint find_all_from (p : string -> option string) (skip : nat) (s : string)
    : list string :=
  match s with
  | EmptyString => []
  | String _ r =>
      match skip with
      | S k => find_all_from p k r
      | O =>
          match p s with
          | Some m => m :: find_all_from p (String.length m - 1) r
          | None => find_all_from p 0 r
          end
      end
  end.
Definition find_all (p : string -> option string) (s : string) : list string :=
  find_all_from p 0 s.

(** [\d+]. *)
Definition digits (s : string) : option string :=
  match fst (span is_digit s) with
  | EmptyString => None
  | ds => Some ds
  end.

Definition is_sharp_or_flat (c : ascii) : bool :=
  Ascii.eqb c "#" || Ascii.eqb c "b".

(** [basePattern = /^[A-G][#b]*/], anchored at the start. *)
Definition basePattern (s : string) : option string :=
  match s with
  | String c r =>
      if ((65 <=? nat_of_ascii c) && (nat_of_ascii c <=? 71))%nat
      then Some (String c (fst (span is_sharp_or_flat r)))
      else None
  | EmptyString => None
  end.

(** [augPattern = /aug/]: whether the text has a match. *)
Definition augPattern (s : string) : bool := contains "aug" s.

(** [mainNumberPattern = /(\d+)/]. *)
Definition mainNumberPattern : string -> option string := digits.

(** [susPattern = /(sus\d+)/]. *)
Definition susPattern (s : string) : option string :=
  if String.prefix "sus" s then ds ← digits (slice 3 s); Some ("sus" +:+ ds)
  else None.

(** [qualityPattern = /(\^min|\^maj|\^aug|\^dim|\^dom)/]. *)
Definition qualityPattern (s : string) : option string :=
  List.find (fun q => String.prefix q s) ["^min"; "^maj"; "^aug"; "^dim"; "^dom"].

(** The natural sign U+266E in UTF-8. *)
Definition natural_sign : string :=
  String (ascii_of_nat 226) (String (ascii_of_nat 153)
    (String (ascii_of_nat 174) EmptyString)).

(** [alterationPattern = /([b#<natural>]\d+)/g]. *)
Definition alterationPattern (s : string) : option string :=
  match s with
  | String c r =>
      if is_sharp_or_flat c then ds ← digits r; Some (String c ds)
      else if String.prefix natural_sign s
      then ds ← digits (slice 3 s); Some (natural_sign +:+ ds)
      else None
  | EmptyString => None
  end.

(** [additionPattern = /add[b#]?\d+/g].  When the optional accidental is
    there and no digit follows it, retrying without it meets the
    accidental where a digit is needed. *)
Definition additionPattern (s : string) : option string :=
  if String.prefix "add" s then
    match slice 3 s with
    | String c r =>
        if is_sharp_or_flat c then ds ← digits r; Some ("add" +:+ String c ds)
        else ds ← digits (slice 3 s); Some ("add" +:+ ds)
    | EmptyString => None
    end
  else None.

(** [t.replace(/\D/g, "")]. *)
Fixpoint only_digits (s : string) : string :=
  match s with
  | EmptyString => EmptyString
  | String c r => if is_digit c then String c (only_digits r) else only_digits r
  end.

(** The interval an addition or alteration tag stands for:
    sharps minus flats as quality, the digits as number. *)
Definition tag_interval (tag : string) : res Interval.t :=
  let numSharps := count_char "#" tag in
  let numFlats := count_char "b" tag in
  let quality := numSharps - numFlats in
  number ← numeric (parseInt (only_digits tag));
  mret (Interval.new number quality).

(** [Interval.strToInterval(x)] where [x] may be [undefined]: reading
    [x[0]] then throws. *)
Definition strToInterval_opt (x : option string) : res Interval.t :=
  s ← defined x; numeric (Interval.strToInterval s).

(** One round of the loop over [Chord.MAINS[quality]]. *)
Definition main_step (table : list string) (aug : bool) (mainNumber : Z)
    (st : list Interval.t * bool) (i : Z) : res (list Interval.t * bool) :=
  let interval := index table (i + 1) in
  if i + 1 <=? mainNumber / 2 then
    if aug && Note.is_str interval "P5" then
      a ← strToInterval_opt (Some "A5"); mret (st.1 ++ [a], true)
    else
      a ← strToInterval_opt interval; mret (st.1 ++ [a], st.2)
  else mret st.

Fixpoint main_loop (table : list string) (aug : bool) (mainNumber : Z)
    (st : list Interval.t * bool) (idxs : list Z) : res (list Interval.t * bool) :=
  match idxs with
  | [] => mret st
  | i :: idxs' =>
      st' ← main_step table aug mainNumber st i;
      main_loop table aug mainNumber st' idxs'
  end.

(** [additions.forEach(...)]. *)
Fixpoint push_additions (additions : list string) (intervals : list Interval.t)
    : res (list Interval.t) :=
  match additions with
  | [] => mret intervals
  | add :: rest =>
      a ← tag_interval add;
      push_additions rest (intervals ++ [a])
  end.

(** [alterations.forEach(...)]. *)
Fixpoint push_alterations (additions alterations : list string)
    (intervals : list Interval.t) : res (list Interval.t) :=
  match alterations with
  | [] => mret intervals
  | alt :: rest =>
      if negb (includes additions ("add" +:+ alt)) then
        a ← tag_interval alt;
        push_alterations additions rest
          (List.filter (fun i => negb (Interval.number i =? Interval.number a))
             intervals ++ [a])
      else push_alterations additions rest intervals
  end.

(** The quality tag, ["dom"] when the text has none. *)
Definition parse_quality (chordid : string) : string :=
  match find_first qualityPattern chordid with
  | Some q => slice 1 q
  | None => "dom"
  end.

(** The main number: the first run of digits of the text, 5 when it has
    none. *)
Definition parse_mainNumber (chordid : string) : res Z :=
  match find_first mainNumberPattern chordid with
  | Some ds => numeric (parseInt ds)
  | None => mret 5
  end.

(** [Chord.idToChord(chordid)]. *)
Definition idToChord (chordid : string) : res t :=
  let base := basePattern chordid in
  let aug := augPattern chordid in
  let sus := default "" (find_first susPattern chordid) in
  let quality := parse_quality chordid in
  mainNumber ← parse_mainNumber chordid;
  let alterations := find_all alterationPattern chordid in
  let additions := find_all additionPattern chordid in
  table ← defined (mains quality);
  '(intervals, existing5) ←
    main_loop table aug mainNumber ([], false)
      (map Z.of_nat (seq 0 (length table)));
  intervals ←
    (if aug && negb existing5 then
       a ← strToInterval_opt (Some "A5"); mret (intervals ++ [a])
     else mret intervals);
  intervals ←
    (if negb (String.eqb sus "") then
       a ← strToInterval_opt (Some ("M" +:+ slice 3 sus)); mret (intervals ++ [a])
     else mret intervals);
  intervals ← push_additions additions intervals;
  intervals ← push_alterations additions alterations intervals;
  mret (match base with
        | Some b => new_with_base (Note.new b 4) intervals
        | None => new intervals
        end).

(** *** Scale matching *)

(** [count / chordNotes.length], the exact quotient.  Both are small
    non-negative integers, the second at least 1; two such quotients over
    the same length are the same double exactly when they are the same
    rational. *)
Definition proportion (chordNotes scaleNotes : list Z) : Qc :=
  let count := length (List.filter (fun n => existsb (Z.eqb n) scaleNotes) chordNotes) in
  Q2Qc (Z.of_nat count # Pos.of_nat (length chordNotes)).

(** The pitch classes of the scale [scale] on the root named [note]. *)
Definition scale_pitch_classes (note scale : string) : res (list Z) :=
  Scale.pitch_classes
    (Scale.generateScale scale (Some (Scale.External (Note.new note 4)))).







(** *** Methods of [ChordWithBase] that derive other chords

    They are methods of [ChordWithBase] only: on a plain [Chord] the
    call throws. *)

(** [transpositions()]. *)
Definition transpositions (c : t) : res (list t) :=
  _ ← defined (base c);
  mret (map (fun n => new_with_base (Note.new n 4) (intervals c)) Note.NOTES).

(** The loop of [extensions()]; [possibleChords] is never empty. *)
Fixpoint extend_loop (b : Note.t) (existingIntervals allIntervals : list string)
    (possibleChords : list t) : res (list t) :=
  match allIntervals with
  | [] => mret possibleChords
  | interval :: rest =>
      if negb (includes existingIntervals interval) then
        lastChord ← defined (last possibleChords);
        a ← numeric (Interval.strToInterval interval);
        extend_loop b existingIntervals rest
          (possibleChords ++ [new_with_base b (intervals lastChord ++ [a])])
      else extend_loop b existingIntervals rest possibleChords
  end.

(** [extensions()]. *)
Definition extensions (c : t) : res (list t) :=
  b ← defined (base c);
  match mains (quality c) with
  | None => mret []
  | Some table =>
      possibleChords ← extend_loop b (names c) (drop 1 table) [c];
      mret (drop 1 possibleChords)
  end.

Definition is_odd (i : Interval.t) : bool := Z.rem (Interval.number i) 2 =? 1.

(** The [while] loop of [simplifications()]; each round removes at least
    one interval, and [fuel] bounds the number of rounds. *)
Fixpoint simplify_loop (fuel : nat) (b : Note.t)
    (currentIntervals : list Interval.t) (simplifications : list t) : list t :=
  match fuel with
  | O => simplifications
  | S fuel' =>
      if (1 <? length currentIntervals)%nat then
        match List.filter is_odd currentIntervals with
        | [] => simplifications
        | i :: oddIntervals =>
            let highestOdd :=
              fold_left Z.max (map Interval.number oddIntervals) (Interval.number i) in
            let currentIntervals :=
              List.filter (fun i => negb (Interval.number i =? highestOdd))
                currentIntervals in
            simplify_loop fuel' b currentIntervals
              (simplifications ++ [new_with_base b currentIntervals])
        end
      else simplifications
  end.

(** [simplifications()]; as many rounds as there are intervals are
    enough. *)
Definition simplifications (c : t) : res (list t) :=
  b ← defined (base c);
  mret (simplify_loop (length (intervals c)) b (intervals c) []).

(** *** Inversions

    [cycle] subtracts one interval object from another with the operator
    [-], which converts both to numbers; from then on the arrays hold
    numbers.  An element is an interval, an interval object whose number
    is [NaN], or a number. *)
Inductive element :=
  | Itv (i : Interval.t)
  | ItvNaN (quality : Z)
  | Number (x : jsnum).

(** [e.number], in arithmetic: a number has no such property and
    [undefined] counts as [NaN]. *)
Definition element_number (e : element) : jsnum :=
  match e with
  | Itv i => Num (Interval.number i)
  | ItvNaN _ | Number _ => NaN
  end.

(** [e] converted to a number: an object through its [toString], which
    starts with the letter of its quality. *)
Definition element_to_number (e : element) : jsnum :=
  match e with
  | Itv i => to_number (Interval.toString i)
  | ItvNaN _ => NaN
  | Number x => x
  end.

(** [x - y] for operands that are numbers or [NaN]. *)
Definition minus (x y : jsnum) : jsnum :=
  match x, y with
  | Num a, Num b => Num (a - b)
  | _, _ => NaN
  end.

(** [new Interval(7 * newOctave + 1, 0)]. *)
Definition octave_above (newOctave : jsnum) : element :=
  match newOctave with
  | Num o => Itv (Interval.new (7 * o + 1) 0)
  | _ => ItvNaN 0
  end.

(** [cycle(intervals)]; on an empty array the read of [.number] throws. *)
Definition cycle (intervals : list element) : res (list element) :=
  lastElement ← defined (last intervals);
  let newOctave :=
    match element_number lastElement with
    | Num n => Num ((n - 1) / 7 + 1)
    | _ => NaN
    end in
  let newset := intervals ++ [octave_above newOctave] in
  first ← defined (head newset);
  mret (map (fun i => Number (minus (element_to_number i) (element_to_number first)))
          (drop 1 newset)).

(** The loop that calls [cycle] once for each interval of the chord. *)
Fixpoint cycles (n : nat) (lastSet : list element) : res (list (list element)) :=
  match n with
  | O => mret []
  | S n' =>
      next ← cycle lastSet;
      rest ← cycles n' next;
      mret (next :: rest)
  end.

(** The comparator of the constructor on such elements; [NaN] when a
    number is compared. *)
Definition element_compare (a b : element) : jsnum :=
  match a, b with
  | Itv x, Itv y => Num (Interval.compare x y)
  | _, _ => NaN
  end.

Fixpoint element_insert (a : element) (l : list element) : list element :=
  match l with
  | [] => [a]
  | b :: l' =>
      let before :=
        match element_compare a b with
        | Num z => z <=? 0
        | _ => true
        end in
      if before then a :: l else b :: element_insert a l'
  end.

(** The [sort] of the constructor; a comparator result of [NaN] counts
    as 0, so elements that are numbers keep their order. *)
Definition element_sort (l : list element) : list element :=
  foldr element_insert [] l.

(** [Chord.prototype.inversions()]: the interval arrays of the chords it
    returns, each sorted by the constructor. *)
Definition plain_inversions (c : t) : res (list (list element)) :=
  newints ← cycles (length (intervals c)) (map Itv (intervals c));
  mret (map element_sort newints).

(** A chord as [inversions()] returns it; [None] is no base (or a base
    that is [undefined]). *)
Record inversion := mk_inversion
  { inversion_base : option Note.t; inversion_intervals : list element }.

(** The loop of the override in [ChordWithBase]: round [i] calls
    [this.notes()] and replaces [ls[i]] by a chord on note [i] with the
    intervals of [ls[i]], sorted again by the constructor. *)
Fixpoint rebase_loop (c : t) (b : Note.t) (i rounds : nat) (ls : list inversion)
    : res (list inversion) :=
  match rounds with
  | O => mret ls
  | S rounds' =>
      ns ← notes c b;
      old ← defined (ls !! i);
      rebase_loop c b (S i) rounds'
        (<[i := mk_inversion (ns !! i) (element_sort (inversion_intervals old))]> ls)
  end.

(** [inversions()]: that of [Chord] on a chord without a base; on a
    [ChordWithBase] the override, which calls it as [super.inversions()]
    first. *)
Definition inversions (c : t) : res (list inversion) :=
  ls ← plain_inversions c;
  let ls := map (mk_inversion None) ls in
  match base c with
  | None => mret ls
  | Some b => rebase_loop c b 0 (length (intervals c)) ls
  end.

End Chord.

(** ** The notation page (App) *)

Module App.

Definition is_pitch_letter (c : ascii) : bool :=
  ((65 <=? nat_of_ascii c) && (nat_of_ascii c <=? 71))%nat.

(** [c.toLowerCase()] for one of the letters A to G. *)
Definition toLowerCase (c : ascii) : ascii :=
  if is_pitch_letter c then ascii_of_nat (nat_of_ascii c + 32) else c.

(** [note.match(...)] with the anchored pattern of one letter A-G, any
    run of [#] and [b], and a run of digits: the three groups, when the
    whole text is one letter, a run of accidentals and a run of digits.
    The run of accidentals is taken whole; a shorter one would leave an
    accidental where a digit is needed. *)
Definition match_note (note : string) : option (ascii * string * string) :=
  match note with
  | String c r =>
      if is_pitch_letter c then
        let '(accidental, rest) := span Chord.is_sharp_or_flat r in
        let '(octave, tail) := span is_digit rest in
        match octave, tail with
        | String _ _, EmptyString => Some (c, accidental, octave)
        | _, _ => None
        end
      else None
  | EmptyString => None
  end.

(** [convertNotesToVexFlow(notes)]: the notes that match, each as
    [pitch accidental/octave] with the pitch in lower case; the others
    are left out. *)
Definition convertNotesToVexFlow (notes : list string) : list string :=
  omap (fun note =>
          match match_note note with
          | Some (pitch, accidental, octave) =>
              Some (String (toLowerCase pitch) accidental +:+ "/" +:+ octave)
          | None => None
          end) notes.

End App.

(** * Vocabulary of the properties *)

(** The structural meaning of the names the chord analyses look for.
    An interval of a major-class degree is named major ([M]) for quality
    [0] and for every quality that has no name of its own. *)
Definition named_major (q : Z) : bool :=
  negb (q =? 1) && negb (q =? -1) && negb (q =? -2).

Definition is_m3 (i : Interval.t) : bool :=
  (Interval.number i =? 3) && (Interval.quality i =? -1).
Definition is_D5 (i : Interval.t) : bool :=
  (Interval.number i =? 5) && (Interval.quality i =? -1).
Definition is_D7 (i : Interval.t) : bool :=
  (Interval.number i =? 7) && (Interval.quality i =? -2).
Definition is_P5 (i : Interval.t) : bool :=
  (Interval.number i =? 5)
  && negb (Interval.quality i =? 1) && negb (Interval.quality i =? -1).
Definition is_M2 (i : Interval.t) : bool :=
  (Interval.number i =? 2) && named_major (Interval.quality i).
Definition is_M3 (i : Interval.t) : bool :=
  (Interval.number i =? 3) && named_major (Interval.quality i).
Definition is_M7 (i : Interval.t) : bool :=
  (Interval.number i =? 7) && named_major (Interval.quality i).

(** The 7-note major scale on a base: the base and the major or perfect
    interval of each degree from 2 to 7. *)
Definition major_template (base : Scale.note) : Scale.t :=
  Scale.mk base (map (fun d => Interval.mk d 0) [2; 3; 4; 5; 6; 7]).

(** A non-empty run of the letters A-G, a-g and a non-empty run of
    digits. *)
Definition letters_then_digits (ls ds : string) : Prop :=
  ls <> "" /\ ds <> ""
  /\ all_chars Note.is_note_letter ls = true /\ all_chars is_digit ds = true.

(** The whole text is letters, then digits. *)
Definition note_form (s : string) : Prop :=
  exists ls ds, letters_then_digits ls ds /\ s = ls +:+ ds.

(** Letters, then digits, occur somewhere in the text. *)
Definition has_note_form (s : string) : Prop :=
  exists pre ls ds post,
    letters_then_digits ls ds /\ s = pre +:+ ls +:+ ds +:+ post.

(** The number of [n.add(i).subtract(n)]. *)
Definition number_after_add_subtract (n : Note.t) (i : Interval.t) : res Z :=
  m ← Note.add n i; d ← Note.subtract m n; mret (Note.diff_number d).

(** [idToChord(chord.id(base)).id(base)]. *)
Definition id_of_decoded_id (c : Chord.t) (base : option Note.t) : res string :=
  c' ← Chord.idToChord (Chord.id c base); mret (Chord.id c' base).

(** The chord of the first [k] degrees above the unison of the canonical
    table of [quality]. *)
Definition table_chord (quality : string) (k : nat) : Chord.t :=
  Chord.new (omap Interval.strToInterval
               (take k (drop 1 (default [] (Chord.mains quality))))).

(** No base, or a base on one of the letters A to G. *)
Definition plain_bases : list (option Note.t) :=
  None :: map (fun l => Some (Note.new l 4)) ["A"; "B"; "C"; "D"; "E"; "F"; "G"].

(** The half of the main number as the loop of [idToChord] sees it: it
    is only compared with the positions 1 to 7. *)
Definition clamp (k : Z) : Z := Z.max 0 (Z.min 7 k).





(** ** Vocabulary of the further properties *)

(** Ascending order of intervals by number, then by quality: what the
    comparator of the constructors sorts by. *)
Definition interval_le (a b : Interval.t) : Prop := Interval.compare a b <= 0.

(** The quality of the interval has a letter of its own in the class of
    its degree: perfect, augmented or diminished for the degrees of the
    perfect class; major, minor, augmented or diminished for the others. *)
Definition has_named_quality (i : Interval.t) : bool :=
  if Interval.perfect_class (Interval.number i)
  then existsb (Z.eqb (Interval.quality i)) [0; 1; -1]
  else existsb (Z.eqb (Interval.quality i)) [0; -1; 1; -2].

(** The word for a quality letter. *)
Definition word_of_letter (l : string) : string :=
  if String.eqb l "A" then "augmented"
  else if String.eqb l "D" then "diminished"
  else if String.eqb l "P" then "perfect"
  else if String.eqb l "m" then "minor"
  else "major".

(** An interval as the object [add] and [subtract] return. *)
Definition as_raw (i : Interval.t) : Interval.raw :=
  Interval.mk_raw (Interval.number i) (Num (Interval.quality i)).

(** The place of a note among the twelve names of [Note.NOTES] as its
    letter and accidentals give it, before any reduction: the index of
    the letter plus sharps minus flats. *)
Definition raw_index (n : Note.t) : Z :=
  indexOf Note.NOTES (Note.letter n) + Note.accidentalCount n.

(** The full name of a note: letter and accidentals. *)
Definition full_name (n : Note.t) : string := Note.letter n +:+ Note.accidental n.

(** The same note [o] octaves higher. *)
Definition raise (o : Z) (n : Note.t) : Note.t :=
  Note.mk (Note.letter n) (Note.accidental n) (Note.octave n + o).

(** What is asked of the re-spelling of a note at place [k] of the twelve
    names in octave 0 with the letter [l]: that letter, a run of sharps or
    of flats of at most 6, and the pitch of the note, up to an octave, and
    exactly when there is at most one accidental. *)
Definition respelled_with_letter (k : Z) (l : string) (r : res Note.t) : bool :=
  match r with
  | Ok m =>
      String.eqb (Note.letter m) l
      && (all_chars (Ascii.eqb "#") (Note.accidental m)
          || all_chars (Ascii.eqb "b") (Note.accidental m))
      && (Z.abs (Note.accidentalCount m) <=? 6)
      && existsb (Z.eqb (Note.midi m - (12 + k))) [-12; 0; 12]
      && ((1 <? Z.abs (Note.accidentalCount m)) || (Note.midi m =? 12 + k))
  | Err _ => false
  end.

(** What is asked of the re-spelling without a letter: one of the seven
    letters, the pitch of the note, no flat unless flats are favored, no
    sharp when they are. *)
Definition respelled_by_favor (k : Z) (favor : string) (r : res Note.t) : bool :=
  match r with
  | Ok m =>
      includes Note.letters (Note.letter m)
      && (Note.midi m =? 12 + k)
      && (if String.eqb favor "flat"
          then negb (contains "#" (Note.accidental m))
          else negb (contains "b" (Note.accidental m)))
  | Err _ => false
  end.

(** A note spelled with one of the seven letters and accidentals that
    are sharps and flats only. *)
Definition well_spelled (n : Note.t) : Prop :=
  In (Note.letter n) Note.letters
  /\ all_chars Chord.is_sharp_or_flat (Note.accidental n) = true.

(** The text the notation page accepts: one capital letter A-G, a run of
    sharps and flats, a non-empty run of digits. *)
Definition staff_form (c : ascii) (accidental octave : string) : Prop :=
  App.is_pitch_letter c = true
  /\ all_chars Chord.is_sharp_or_flat accidental = true
  /\ all_chars is_digit octave = true /\ octave <> "".

(** The key the notation page makes of such a text. *)
Definition staff_key (c : ascii) (accidental octave : string) : string :=
  String (App.toLowerCase c) accidental +:+ "/" +:+ octave.

(** The key of a note. *)
Definition staff_key_of (n : Note.t) : string :=
  match Note.letter n with
  | String c _ => staff_key c (Note.accidental n) (Z_to_string (Note.octave n))
  | EmptyString => EmptyString
  end.

(** [q] is [p] without the intervals of the highest odd number of [p]. *)
Definition drops_highest_odd (p q : Chord.t) : Prop :=
  exists h,
    (exists i, In i (Chord.intervals p) /\ Chord.is_odd i = true
               /\ Interval.number i = h)
    /\ (forall i, In i (Chord.intervals p) -> Chord.is_odd i = true ->
                  Interval.number i <= h)
    /\ Chord.intervals q
       = List.filter (fun i => negb (Interval.number i =? h)) (Chord.intervals p).

(** Nothing is left to drop: at most one interval, or none of odd
    number. *)
Definition cannot_simplify (p : Chord.t) : Prop :=
  (length (Chord.intervals p) <= 1)%nat
  \/ forall i, In i (Chord.intervals p) -> Chord.is_odd i = false.

(** Each element of the chain [x :: l] is related to the next. *)
Fixpoint linked {A} (R : A -> A -> Prop) (x : A) (l : list A) : Prop :=
  match l with
  | [] => True
  | y :: l' => R x y /\ linked R y l'
  end.

(** The degrees of the table of the quality of a chord, past the first,
    whose names are not among the names of the chord. *)
Definition missing_degrees (c : Chord.t) : list Interval.t :=
  match Chord.mains (Chord.quality c) with
  | Some table =>
      omap Interval.strToInterval
        (List.filter (fun s => negb (includes (Chord.names c) s)) (drop 1 table))
  | None => []
  end.

(** The chords made by adding intervals one after the other. *)
Fixpoint extension_chain (b : Note.t) (p : Chord.t) (added : list Interval.t)
    : list Chord.t :=
  match added with
  | [] => []
  | a :: rest =>
      let q := Chord.new_with_base b (Chord.intervals p ++ [a]) in
      q :: extension_chain b q rest
  end.

(** The note [m] is the degree of the interval [i] above the note [n] of
    semitone count [s]: it has the letter that many letters up, the
    letters taken round, and the pitch of [n] raised by the semitones of
    [i], up to an octave, and exactly when it has at most one accidental. *)
Definition degree_above (n : Note.t) (s : Z) (i : Interval.t) (m : Note.t) : Prop :=
  index Note.letters
    (Z.rem (Note.letter_index (Note.letter n) + Interval.number i - 1) 7)
  = Some (Note.letter m)
  /\ exists si j,
       Interval.toSemitones i = Num si
       /\ Note.midi m = s + si + 12 * j
       /\ -1 <= j <= 1
       /\ (Z.abs (Note.accidentalCount m) <= 1 -> j = 0).

(** The interval goes up from a note of semitone count [s] without
    leaving the range of [Note.intToNote]. *)
Definition reachable_from (s : Z) (i : Interval.t) : Prop :=
  1 <= Interval.number i
  /\ match Interval.toSemitones i with Num si => 0 <= s + si | _ => False end.

(** The pitch classes of a scale moved up by [k] semitones. *)
Definition moved_up (k : Z) (classes : list Z) : list Z :=
  map (fun c => Z.rem (c + k) 12) classes.

(** The scale of that name on that root has the pitch classes of the
    scale on C, moved up by the place of the root. *)
Definition transposes_from_C (note scale : string) : bool :=
  match Chord.scale_pitch_classes "C" scale, Chord.scale_pitch_classes note scale with
  | Ok on_C, Ok on_note =>
      bool_decide (on_note = moved_up (indexOf Note.NOTES note) on_C)
  | _, _ => false
  end.








(** * Properties *)

(** ** How intervals are named *)

Section Naming.

Import Interval.

Lemma Z_to_int_inj (a b : Z) : Z.to_int a = Z.to_int b -> a = b.
Proof.
  intros H. rewrite <- (DecimalZ.of_to a), <- (DecimalZ.of_to b). now rewrite H.
Qed.

Lemma Z_to_int_proper (z : Z) :
  Z.to_int z <> Decimal.Pos Decimal.Nil /\ Z.to_int z <> Decimal.Neg Decimal.Nil.
Proof.
  destruct z as [|p|p]; simpl; split; try discriminate;
    intros [= H]; now apply (DecimalPos.Unsigned.to_uint_nonnil p).
Qed.

(** Two integers print alike only when they are equal. *)
Lemma Z_to_string_inj (a b : Z) : Z_to_string a = Z_to_string b -> a = b.
Proof.
  unfold Z_to_string. intros H. apply Z_to_int_inj.
  destruct (Z_to_int_proper a) as [Ha1 Ha2], (Z_to_int_proper b) as [Hb1 Hb2].
  pose proof (NilZero.isi _ Ha1 Ha2) as Ia.
  pose proof (NilZero.isi _ Hb1 Hb2) as Ib.
  rewrite H in Ia. congruence.
Qed.

Lemma letter_of_cases (i : t) :
  letter_of i = "A" \/ letter_of i = "P" \/ letter_of i = "D"
  \/ letter_of i = "m" \/ letter_of i = "M".
Proof.
  unfold letter_of.
  repeat match goal with |- context [if ?b then _ else _] => destruct b end; auto.
Qed.

(** [toString i] is the letter [ch] followed by the number [n] written in
    decimal exactly when [i] has that letter and that number. *)
Lemma toString_eq (i : t) (ch : ascii) (n : Z) :
  toString i = String ch (Z_to_string n)
  <-> letter_of i = String ch EmptyString /\ number i = n.
Proof.
  unfold toString. split.
  - destruct (letter_of_cases i) as [E|[E|[E|[E|E]]]]; rewrite E; simpl;
      intros [= <- H]; split; auto using Z_to_string_inj.
  - intros [-> ->]. reflexivity.
Qed.

Ltac name_forward ch n :=
  let H := fresh "H" in
  let Hn := fresh "Hn" in
  intros H; symmetry in H; apply (toString_eq _ ch n) in H;
  destruct H as [H Hn]; unfold letter_of in H; rewrite Hn in H; try rewrite Hn;
  simpl in H;
  repeat match type of H with
         | context [if ?b then _ else _] => destruct b eqn:?
         end;
  try discriminate H.

Ltac name_backward ch n :=
  let H := fresh "H" in
  intros H;
  repeat match goal with
         | E : _ && _ = true |- _ => apply andb_true_iff in E; destruct E
         | E : negb _ = true |- _ => apply negb_true_iff in E
         | E : (number _ =? _) = true |- _ => apply Z.eqb_eq in E
         end;
  symmetry; apply (toString_eq _ ch n); split; [|assumption];
  unfold letter_of;
  repeat match goal with
         | E : number _ = _ |- _ => rewrite E
         | E : (quality _ =? _) = true |- _ => apply Z.eqb_eq in E; rewrite E
         | E : (_ =? _) = false |- _ => rewrite E
         end;
  reflexivity.

Ltac name_eq ch n :=
  apply Bool.eq_iff_eq_true; rewrite String.eqb_eq; split;
  [ name_forward ch n;
    repeat match goal with E : (_ =? _) = _ |- _ => rewrite E end;
    reflexivity
  | name_backward ch n ].

Lemma name_m3 (i : t) : String.eqb "m3" (toString i) = is_m3 i.
Proof.
  unfold is_m3. name_eq "m"%char 3.
Qed.

Lemma name_D5 (i : t) : String.eqb "D5" (toString i) = is_D5 i.
Proof.
  unfold is_D5. name_eq "D"%char 5.
Qed.

Lemma name_D7 (i : t) : String.eqb "D7" (toString i) = is_D7 i.
Proof.
  unfold is_D7. name_eq "D"%char 7.
Qed.

Lemma name_P5 (i : t) : String.eqb "P5" (toString i) = is_P5 i.
Proof. unfold is_P5. name_eq "P"%char 5. Qed.

Lemma name_M2 (i : t) : String.eqb "M2" (toString i) = is_M2 i.
Proof. unfold is_M2, named_major. name_eq "M"%char 2. Qed.

Lemma name_M3 (i : t) : String.eqb "M3" (toString i) = is_M3 i.
Proof. unfold is_M3, named_major. name_eq "M"%char 3. Qed.

Lemma name_M7 (i : t) : String.eqb "M7" (toString i) = is_M7 i.
Proof. unfold is_M7, named_major. name_eq "M"%char 7. Qed.

(** No interval is named [M4]: a fourth is of the perfect class. *)
Lemma name_M4 (i : t) : String.eqb "M4" (toString i) = false.
Proof.
  apply not_true_iff_false. rewrite String.eqb_eq. name_forward "M"%char 4.
Qed.

End Naming.

(** ** Chord classification *)

Section Classification.

Import Interval Chord.

Lemma includes_names (c : Chord.t) (s : string) :
  includes (names c) s = existsb (fun i => String.eqb s (toString i)) (Chord.intervals c).
Proof.
  unfold includes, names. induction (Chord.intervals c) as [|i l IH]; simpl.
  - reflexivity.
  - now rewrite IH.
Qed.

Lemma existsb_ext' {A} (f g : A -> bool) (l : list A) :
  (forall x, f x = g x) -> existsb f l = existsb g l.
Proof. intros H. induction l as [|x l IH]; simpl; [reflexivity|]. now rewrite H, IH. Qed.

Lemma has_m3 c : includes (names c) "m3" = existsb is_m3 (Chord.intervals c).
Proof. rewrite includes_names. apply existsb_ext', name_m3. Qed.
Lemma has_D5 c : includes (names c) "D5" = existsb is_D5 (Chord.intervals c).
Proof. rewrite includes_names. apply existsb_ext', name_D5. Qed.
Lemma has_D7 c : includes (names c) "D7" = existsb is_D7 (Chord.intervals c).
Proof. rewrite includes_names. apply existsb_ext', name_D7. Qed.
Lemma has_M7 c : includes (names c) "M7" = existsb is_M7 (Chord.intervals c).
Proof. rewrite includes_names. apply existsb_ext', name_M7. Qed.
Lemma has_M2 c : includes (names c) "M2" = existsb is_M2 (Chord.intervals c).
Proof. rewrite includes_names. apply existsb_ext', name_M2. Qed.
Lemma has_M3 c : includes (names c) "M3" = existsb is_M3 (Chord.intervals c).
Proof. rewrite includes_names. apply existsb_ext', name_M3. Qed.
Lemma has_M4 c : includes (names c) "M4" = false.
Proof.
  rewrite includes_names. induction (Chord.intervals c) as [|i l IH]; cbn [existsb].
  - reflexivity.
  - now rewrite name_M4, IH.
Qed.

(** [quality()] always answers with a key of [Chord.MAINS]. *)
Lemma quality_in_MAINS (c : Chord.t) : is_Some (mains (quality c)).
Proof.
  unfold quality.
  repeat match goal with |- context [if ?b then _ else _] => destruct b end;
    vm_compute; eauto.
Qed.

(** C2. [quality()] is "dim" when a minor 3rd, a diminished 5th and a
    diminished 7th are all among the intervals; otherwise "min" when a
    minor 3rd is; otherwise "maj" when an interval named major 7th is;
    otherwise "dom".  The chord of m3, P5 and m7 has quality "min", and its
    id on the root C is "C^min7", whether C is passed to [id] or is the
    base of the chord. *)
Theorem quality_by_thirds_and_sevenths :
  (forall c : Chord.t,
     quality c =
       if existsb is_m3 (Chord.intervals c) then
         if existsb is_D5 (Chord.intervals c) && existsb is_D7 (Chord.intervals c)
         then "dim" else "min"
       else if existsb is_M7 (Chord.intervals c) then "maj"
       else "dom")
  /\ (let m3_P5_m7 := [Interval.new 3 (-1); Interval.new 5 0; Interval.new 7 (-1)] in
      quality (Chord.new m3_P5_m7) = "min"
      /\ forall octave : Z,
           Chord.id (Chord.new m3_P5_m7) (Some (Note.new "C" octave)) = "C^min7"
           /\ id_self (new_with_base (Note.new "C" octave) m3_P5_m7) = "C^min7").
Proof.
  split.
  - intros c. unfold quality. now rewrite has_m3, has_D5, has_D7, has_M7.
  - cbv zeta. split; [reflexivity|]. intros octave. split; reflexivity.
Qed.

(** [sus()] in terms of the intervals present: "sus2" when a major 2nd
    is there and neither third is; nothing otherwise. *)
Lemma sus_by_seconds (c : Chord.t) :
  sus c =
    if negb (existsb is_m3 (Chord.intervals c))
       && negb (existsb is_M3 (Chord.intervals c))
       && existsb is_M2 (Chord.intervals c)
    then "sus2" else "".
Proof. unfold sus. now rewrite has_m3, has_M3, has_M2, has_M4. Qed.

(** C8. [sus()] never answers "sus4".  The fourth that [idToChord] builds
    for a sus4 tag, [strToInterval("M4")], is the interval of number 4 and
    quality 0; its name is "P4", not the "M4" that [sus()] looks for, and
    the chord of that fourth and a perfect 5th gets the empty answer. *)
Theorem sus_never_sus4 :
  (forall c : Chord.t, sus c <> "sus4")
  /\ strToInterval "M4" = Some (Interval.new 4 0)
  /\ toString (Interval.new 4 0) = "P4"
  /\ sus (Chord.new [Interval.new 4 0; Interval.new 5 0]) = "".
Proof.
  split; [|repeat split; reflexivity].
  intros c. rewrite sus_by_seconds.
  destruct (_ && _); discriminate.
Qed.

(** Converted to a number, the name of an interval is [NaN]: it starts
    with a letter. *)
Lemma to_number_toString (i : Interval.t) : to_number (toString i) = NaN.
Proof.
  unfold toString.
  destruct (letter_of_cases i) as [E|[E|[E|[E|E]]]]; rewrite E; reflexivity.
Qed.

(** The filter [i => i % 2] of [structure()] keeps no interval. *)
Lemma structure_filter_empty (l : list Interval.t) :
  List.filter (fun i => truthy (rem (to_number (toString i)) 2)) l = [].
Proof.
  induction l as [|i l IH]; cbn [List.filter]; [reflexivity|].
  now rewrite to_number_toString.
Qed.

(** C4. [structure()] answers "power" for a chord of one interval named
    P5 and the empty string for every other chord, whatever degrees it
    has: the major triad and the dominant seventh chord get the empty
    string, not "triad" and "seventh". *)
Theorem structure_power_or_empty :
  (forall c : Chord.t,
     structure c =
       if match Chord.intervals c with [i] => is_P5 i | _ => false end
       then "power" else "")
  /\ structure (Chord.new [Interval.new 3 0; Interval.new 5 0]) = ""
  /\ structure (Chord.new [Interval.new 3 0; Interval.new 5 0; Interval.new 7 (-1)]) = "".
Proof.
  split; [|split; reflexivity].
  intros c. unfold structure. rewrite structure_filter_empty.
  cbn [map math_max].
  destruct (Chord.intervals c) as [|i [|j l]]; try reflexivity.
  now rewrite String.eqb_sym, name_P5.
Qed.

End Classification.

(** ** Scales *)

Section Scales.

Import Scale.

Lemma generateScale_major (base : note) :
  generateScale "major" (Some base) = major_template base.
Proof. reflexivity. Qed.

(** A scale whose base is a note of the module's own class: every note
    of it is a copy of that base, whatever the intervals. *)
Lemma notes_on_local_base (p : local_note) (l : list Interval.t) :
  notes (Scale.mk (Local p) l) = Ok (Local p :: map (fun _ => Local p) l).
Proof.
  unfold notes. cbn [base intervals].
  assert (E : mapM (note_add (Local p)) l = Ok (map (fun _ => Local p) l)).
  { induction l as [|i l IH]; [reflexivity|].
    cbn [mapM map]. rewrite IH. destruct p; reflexivity. }
  now rewrite E.
Qed.

(** C3, the claim as stated fails: "dorian" is not a recognized name,
    and [generateScale("dorian", C4)] is not the major template on C4;
    its only note is C4. *)
Lemma generateScale_dorian_not_major :
  ~ In "dorian" SCALES
  /\ generateScale "dorian" (Some (External (Note.new "C" 4)))
     <> major_template (External (Note.new "C" 4))
  /\ notes (generateScale "dorian" (Some (External (Note.new "C" 4))))
     = Ok [External (Note.new "C" 4)].
Proof.
  split; [|split].
  - cbv [SCALES In]. intros H. repeat destruct H as [H|H]; discriminate || auto.
  - discriminate.
  - reflexivity.
Qed.

(** C3, amended.  For a name that is not one of the recognized templates,
    [generateScale] returns (it is a total function, there is no error)
    the scale on the given base, or on the default base when none is
    given, that has no interval at all; its notes are the base alone. *)
Theorem generateScale_unknown_is_bare (name : string) (base : option note) :
  ~ In name SCALES ->
  generateScale name base = Scale.mk (default default_base base) []
  /\ notes (generateScale name base) = Ok [default default_base base].
Proof.
  intros Hname.
  assert (E : generateScale name base = Scale.mk (default default_base base) []).
  { unfold generateScale.
    repeat match goal with
           | |- context [String.eqb name ?s] =>
               destruct (String.eqb_spec name s) as [->|_];
               [exfalso; apply Hname; cbv [SCALES In]; tauto|]
           end.
    destruct base; reflexivity. }
  split; [exact E|]. rewrite E. reflexivity.
Qed.

Lemma generateScale_unknown_is_bare_witness :
  generateScale "dorian" None = Scale.mk default_base []
  /\ notes (generateScale "dorian" None) = Ok [default_base].
Proof.
  apply (generateScale_unknown_is_bare "dorian" None).
  cbv [SCALES In]. intros H. repeat destruct H as [H|H]; discriminate || auto.
Defined.

(** C7.  On any base the natural minor scale is the major template with
    the intervals of degrees 3, 6 and 7 lowered by a semitone and the
    others kept.  On C4 its notes are C4, D4, Eb4, F4, G4, Ab4 and Bb4;
    their pitch classes, by [toSemitones() % 12] as well as by
    [midi % 12], are 0, 2, 3, 5, 7, 8, 10. *)
Theorem natural_minor_flattens_3_6_7 :
  (forall base : option note,
     intervals (generateScale "natural minor" base)
     = map (fun i => if existsb (Z.eqb (Interval.number i)) [3; 6; 7]
                     then Interval.mk (Interval.number i) (Interval.quality i - 1)
                     else i)
           (intervals (generateScale "major" base)))
  /\ (let scale := generateScale "natural minor" (Some (External (Note.new "C" 4))) in
      let ns := map (fun name => Note.new name 4)
                    ["C"; "D"; "Eb"; "F"; "G"; "Ab"; "Bb"] in
      notes scale = Ok (map External ns)
      /\ pitch_classes scale = Ok [0; 2; 3; 5; 7; 8; 10]
      /\ map (fun n => Z.rem (Note.midi n) 12) ns = [0; 2; 3; 5; 7; 8; 10]).
Proof.
  split.
  - intros base. reflexivity.
  - cbv zeta. repeat split; vm_compute; reflexivity.
Qed.

End Scales.

(** ** Notes *)

Section Notes.

Import Note.

Lemma str_app_cons (c : ascii) (a b : string) : String c a +:+ b = String c (a +:+ b).
Proof. reflexivity. Qed.

Lemma str_app_nil_l (b : string) : EmptyString +:+ b = b.
Proof. reflexivity. Qed.

Lemma str_app_nil_r (a : string) : a +:+ EmptyString = a.
Proof. induction a as [|c a IH]; [reflexivity|]. now rewrite str_app_cons, IH. Qed.

Lemma all_chars_cons (p : ascii -> bool) (c : ascii) (a : string) :
  all_chars p (String c a) = p c && all_chars p a.
Proof. reflexivity. Qed.

Lemma span_split (p : ascii -> bool) (s : string) :
  s = fst (span p s) +:+ snd (span p s)
  /\ all_chars p (fst (span p s)) = true.
Proof.
  induction s as [|c r [IH1 IH2]]; cbn [span]; [auto|].
  destruct (p c) eqn:E; [|auto].
  destruct (span p r) as [a b]; cbn [fst snd] in *. split.
  - rewrite str_app_cons. f_equal. exact IH1.
  - now rewrite all_chars_cons, E.
Qed.

(** [span] stops at the first character that fails the test. *)
Lemma span_app (p : ascii -> bool) (a : string) (c : ascii) (r : string) :
  all_chars p a = true -> p c = false ->
  span p (a +:+ String c r) = (a, String c r).
Proof.
  intros Ha Hc. induction a as [|d a IH].
  - rewrite str_app_nil_l. cbn [span]. now rewrite Hc.
  - rewrite all_chars_cons in Ha. apply andb_true_iff in Ha as [Hd Ha].
    rewrite str_app_cons. cbn [span]. rewrite Hd, (IH Ha). reflexivity.
Qed.

Lemma span_all (p : ascii -> bool) (a : string) :
  all_chars p a = true -> span p a = (a, EmptyString).
Proof.
  intros Ha. induction a as [|d a IH]; cbn [span]; [reflexivity|].
  rewrite all_chars_cons in Ha. apply andb_true_iff in Ha as [Hd Ha].
  rewrite Hd, (IH Ha). reflexivity.
Qed.

Lemma digit_not_letter (c : ascii) : is_digit c = true -> is_note_letter c = false.
Proof.
  unfold is_digit, is_note_letter. intros H.
  apply andb_true_iff in H as [H1 H2].
  apply Nat.leb_le in H1, H2.
  cbv zeta.
  apply orb_false_iff; split; apply andb_false_iff; left;
    apply Nat.leb_gt; lia.
Qed.

Lemma search_unfold (s : string) :
  search s =
    match match_here s with
    | Some m => Some m
    | None => match s with String _ r => search r | EmptyString => None end
    end.
Proof. destruct s; reflexivity. Qed.

(** Where letters then digits start the text, the pattern matches there,
    with all of the letters and at least these digits. *)
Lemma span_digits_app (ds post : string) :
  all_chars is_digit ds = true ->
  fst (span is_digit (ds +:+ post)) = ds +:+ fst (span is_digit post).
Proof.
  intros Hd. induction ds as [|x ds IH]; [reflexivity|].
  rewrite all_chars_cons in Hd. apply andb_true_iff in Hd as [Hx Hd].
  rewrite !str_app_cons. cbn [span]. rewrite Hx.
  specialize (IH Hd). destruct (span is_digit (ds +:+ post)) as [a b].
  cbn [fst] in *. now rewrite IH.
Qed.

Lemma match_here_prefix (ls ds post : string) :
  letters_then_digits ls ds ->
  exists ds', match_here (ls +:+ ds +:+ post) = Some (ls, ds +:+ ds')
              /\ all_chars is_digit ds' = true
              /\ (post = EmptyString -> ds' = EmptyString).
Proof.
  intros (Hls & Hds & Hl & Hd).
  destruct ds as [|d ds]; [congruence|].
  destruct ls as [|l ls]; [congruence|].
  pose proof Hd as Hd'. rewrite all_chars_cons in Hd'.
  apply andb_true_iff in Hd' as [Hd0 Hd1].
  exists (fst (span is_digit post)).
  split; [|split].
  - unfold match_here. rewrite (str_app_cons d).
    rewrite (span_app is_note_letter (String l ls) d (ds +:+ post) Hl
               (digit_not_letter d Hd0)).
    rewrite <- (str_app_cons d).
    pose proof (span_digits_app (String d ds) post Hd) as E.
    destruct (span is_digit (String d ds +:+ post)) as [a b]. cbn [fst] in E.
    subst a. rewrite str_app_cons. reflexivity.
  - apply span_split.
  - intros ->. reflexivity.
Qed.

Lemma search_finds (pre ls ds post : string) :
  letters_then_digits ls ds ->
  search (pre +:+ ls +:+ ds +:+ post) <> None.
Proof.
  intros H. induction pre as [|c pre IH].
  - rewrite str_app_nil_l, search_unfold.
    destruct (match_here_prefix ls ds post H) as (ds' & -> & _). discriminate.
  - rewrite str_app_cons, search_unfold. destruct (match_here _); [discriminate|]. exact IH.
Qed.

Lemma match_here_sound (s ls ds : string) :
  match_here s = Some (ls, ds) ->
  letters_then_digits ls ds /\ exists post, s = ls +:+ ds +:+ post.
Proof.
  unfold match_here.
  destruct (span_split is_note_letter s) as [S1 S2].
  destruct (span is_note_letter s) as [a b]. simpl in S1, S2.
  destruct (span_split is_digit b) as [D1 D2].
  destruct (span is_digit b) as [x y]. simpl in D1, D2.
  destruct a as [|a0 a]; [discriminate|]. destruct x as [|x0 x]; [discriminate|].
  intros [= <- <-]. split.
  - repeat split; auto; discriminate.
  - exists y. now rewrite <- D1.
Qed.

Lemma search_sound (s ls ds : string) :
  search s = Some (ls, ds) -> has_note_form s.
Proof.
  induction s as [|c r IH]; rewrite search_unfold.
  - destruct (match_here "") as [m|] eqn:E; [|discriminate].
    intros [= ->]. apply match_here_sound in E as [H [post Hs]].
    exists EmptyString, ls, ds, post. auto.
  - destruct (match_here (String c r)) as [m|] eqn:E.
    + intros [= ->]. apply match_here_sound in E as [H [post Hs]].
      exists EmptyString, ls, ds, post. auto.
    + intros Hr. destruct (IH Hr) as (pre & ls' & ds' & post & H & ->).
      exists (String c pre), ls', ds', post. auto.
Qed.

(** C9, the claim as stated fails: the text " A4" (a space, then A4) is
    not of the form letters-then-digits, and [strToNote] does not return
    [null] for it but the note A4. *)
Lemma strToNote_accepts_embedded_note :
  ~ note_form " A4" /\ strToNote " A4" = Some (Note.new "A" 4).
Proof.
  split; [|reflexivity].
  intros (ls & ds & (Hls & _ & Hl & _) & Hs).
  destruct ls as [|c ls]; [congruence|].
  rewrite str_app_cons in Hs. injection Hs as <- _. discriminate.
Qed.

(** C9, amended.  [strToNote] returns [null] exactly for the texts that
    have nowhere a run of the letters A-G, a-g followed at once by a run
    of digits; and for every text that is such a run of letters followed
    by a run of digits and nothing else, the digits writing a safe
    integer, it returns the note named by the letters in the octave the
    digits write.  (For digits beyond the safe integers the octave of
    the source is the double [parseInt] rounds to.) *)
Theorem strToNote_searches_the_text :
  (forall s : string, strToNote s = None <-> ~ has_note_form s)
  /\ (forall ls ds : string,
        letters_then_digits ls ds ->
        digits_value 0 ds <= MAX_SAFE_INTEGER ->
        strToNote (ls +:+ ds) = Some (Note.new ls (digits_value 0 ds))).
Proof.
  split.
  - intros s. unfold strToNote. split.
    + intros H (pre & ls & ds & post & Hf & ->).
      apply (search_finds pre ls ds post Hf).
      destruct (search _) as [[? ?]|]; [discriminate|reflexivity].
    + intros H. destruct (search s) as [[ls ds]|] eqn:E; [|reflexivity].
      exfalso. apply H. exact (search_sound s ls ds E).
  - intros ls ds H _. unfold strToNote. rewrite search_unfold.
    destruct (match_here_prefix ls ds EmptyString H) as (ds' & E & _ & Hnil).
    rewrite (Hnil eq_refl), !str_app_nil_r in E. rewrite E. reflexivity.
Qed.

Lemma strToNote_searches_the_text_witness :
  strToNote "Bb12" = Some (Note.new "Bb" 12).
Proof.
  apply (proj2 strToNote_searches_the_text "Bb" "12").
  - repeat split; discriminate || reflexivity.
  - vm_compute. discriminate.
Defined.

(** C5, at the note B4 and the major 2nd.  [add] gives C#5; subtracting
    B4 from it gives an interval of number -5 whose quality is [NaN], so
    neither the number 2 nor the 2 semitones of the major 2nd come back:
    the remainder of the letter distance C - B is negative. *)
Theorem add_then_subtract_B4_major_2nd :
  add (Note.new "B" 4) (Interval.new 2 0) = Ok (Note.new "C#" 5)
  /\ subtract (Note.new "C#" 5) (Note.new "B" 4) = Ok (mk_diff (-5) NaN)
  /\ diff_toSemitones (mk_diff (-5) NaN) = NaN
  /\ Interval.toSemitones (Interval.new 2 0) = Num 2.
Proof. repeat split; vm_compute; reflexivity. Qed.

(** Where the letter distance does not wrap the interval does come back:
    C4 and the major 3rd. *)
Lemma add_then_subtract_C4_major_3rd :
  add (Note.new "C" 4) (Interval.new 3 0) = Ok (Note.new "E" 4)
  /\ subtract (Note.new "E" 4) (Note.new "C" 4) = Ok (mk_diff 3 (Num 0)).
Proof. split; vm_compute; reflexivity. Qed.

(** On the natural notes of the octaves 0 to 8 and the major or perfect
    interval of each degree from 1 to 7: the number that comes back is
    the number of the interval when the letter of the sum stays within
    C..B of the same octave, and 7 less when it passes B. *)
Lemma add_then_subtract_natural_notes (l : string) (k o : Z) :
  In l letters -> 1 <= k <= 7 -> 0 <= o <= 8 ->
  number_after_add_subtract (Note.new l o) (Interval.new k 0)
  = Ok (if letter_index l + k - 1 <? 7 then k else k - 7).
Proof.
  intros Hl Hk Ho.
  assert (G : forallb (fun l => forallb (fun k => forallb (fun o =>
                match number_after_add_subtract (Note.new l o) (Interval.new k 0) with
                | Ok z => z =? (if letter_index l + k - 1 <? 7 then k else k - 7)
                | Err _ => false
                end) [0; 1; 2; 3; 4; 5; 6; 7; 8]) [1; 2; 3; 4; 5; 6; 7]) letters
              = true) by (vm_compute; reflexivity).
  rewrite forallb_forall in G. specialize (G l Hl).
  rewrite forallb_forall in G. specialize (G k). 
  rewrite forallb_forall in G. specialize (G ltac:(cbn [In]; lia) o ltac:(cbn [In]; lia)).
  destruct (number_after_add_subtract _ _) as [z|]; [|discriminate G].
  apply Z.eqb_eq in G. now subst.
Qed.

(** A note below C by its accidentals has no semitone count: the index
    into [NOTES] is negative, and [add] throws with it. *)
Lemma add_to_C_flat_throws (i : Interval.t) :
  toSemitones (Note.new "Cb" 4) = Err TypeError
  /\ add (Note.new "Cb" 4) i = Err TypeError.
Proof. split; reflexivity. Qed.

End Notes.

(** ** The chord-ID codec *)

Section Codec.

Import Chord.

(** C1, at the dominant seventh chord with a diminished 5th (M3, D5, m7)
    and no base.  Its id is "^7D5": the altered 5th is written with the
    letter of its name, because [id] builds the alteration from the name
    with [new Interval(name)] and so has the name as number and no
    quality.  [idToChord] reads no alteration in "^7D5" and gives the
    plain seventh chord, whose id is "^7". *)
Theorem roundtrip_loses_alteration :
  let c := Chord.new [Interval.new 3 0; Interval.new 5 (-1); Interval.new 7 (-1)] in
  Chord.id c None = "^7D5"
  /\ Chord.intervals <$> idToChord "^7D5"
     = Ok [Interval.new 3 0; Interval.new 5 0; Interval.new 7 (-1)]
  /\ id_of_decoded_id c None = Ok "^7".
Proof. repeat split; vm_compute; reflexivity. Qed.

(** The same for an addition: the chord of M3, P5 and M6 has id "^M6",
    read back as main number 6. *)
Lemma roundtrip_loses_addition :
  let c := Chord.new [Interval.new 3 0; Interval.new 5 0; Interval.new 6 0] in
  Chord.id c None = "^M6" /\ id_of_decoded_id c None = Ok "^7".
Proof. split; vm_compute; reflexivity. Qed.

(** The same for sus: in "^sus2" the 2 is read as main number as well. *)
Lemma roundtrip_loses_sus2 :
  let c := Chord.new [Interval.new 2 0; Interval.new 5 0] in
  Chord.id c None = "^sus2" /\ id_of_decoded_id c None = Ok "^3M2".
Proof. split; vm_compute; reflexivity. Qed.

(** An augmented 5th makes the id start with "^aug", which [idToChord]
    takes for a quality that has no table. *)
Lemma roundtrip_throws_on_augmented :
  let c := Chord.new [Interval.new 3 0; Interval.new 5 1] in
  Chord.id c None = "^aug3A5" /\ id_of_decoded_id c None = Err TypeError.
Proof. split; vm_compute; reflexivity. Qed.

(** Chords that are the first degrees of a canonical table, on no base or
    on a base of any letter, do come back with the same id, but for the
    first two degrees of the "dim" table, whose quality is "min". *)
Lemma roundtrip_on_table_chords (q : string) (k : nat) (b : option Note.t) :
  In q ["dim"; "min"; "dom"; "maj"] -> (k <= 6)%nat -> In b plain_bases ->
  (q, k) <> ("dim", 2%nat) ->
  id_of_decoded_id (table_chord q k) b = Ok (Chord.id (table_chord q k) b).
Proof.
  intros Hq Hk Hb Hne.
  assert (Hk' : In k (seq 0 7)) by (apply in_seq; lia).
  cbv [In seq plain_bases map] in Hq, Hk', Hb.
  repeat match goal with H : _ \/ _ |- _ => destruct H as [H|H] end;
    try contradiction; subst; try congruence; vm_compute; reflexivity.
Qed.

Lemma roundtrip_fails_on_dim_pair :
  Chord.id (table_chord "dim" 2) None = "^minD5"
  /\ id_of_decoded_id (table_chord "dim" 2) None = Ok "^min".
Proof. split; vm_compute; reflexivity. Qed.

End Codec.

(** ** Totality of [idToChord] *)

Section Decoding.

Import Chord.

Lemma find_first_some (p : string -> option string) (s m : string) :
  find_first p s = Some m -> exists suffix, p suffix = Some m.
Proof.
  induction s as [|c r IH]; cbn [find_first].
  - destruct (p "") eqn:E; [|discriminate]. intros [= <-]. eauto.
  - destruct (p (String c r)) eqn:E; [intros [= <-]; eauto|]. exact IH.
Qed.

Lemma find_all_from_in (p : string -> option string) (s m : string) (k : nat) :
  In m (find_all_from p k s) -> exists suffix, p suffix = Some m.
Proof.
  revert k. induction s as [|c r IH]; intros k; cbn [find_all_from].
  - intros [].
  - destruct k as [|k]; [|apply IH].
    destruct (p (String c r)) eqn:E; [|apply IH].
    intros [<-|H]; eauto.
Qed.

Lemma digits_some (s ds : string) :
  digits s = Some ds -> ds <> "" /\ all_chars is_digit ds = true.
Proof.
  unfold digits. destruct (span_split is_digit s) as [_ H].
  destruct (fst (span is_digit s)) as [|c r]; [discriminate|].
  intros [= <-]. split; [discriminate|exact H].
Qed.

Lemma digit_not_space (c : ascii) : is_digit c = true -> is_space c = false.
Proof.
  unfold is_digit, is_space. intros H. apply andb_true_iff in H as [H1 H2].
  apply Nat.leb_le in H1, H2. cbv zeta.
  apply orb_false_iff; split; [apply Nat.eqb_neq; lia|].
  apply andb_false_iff; right. apply Nat.leb_gt; lia.
Qed.

(** [parseInt] on a run of digits is the value the digits write. *)
Lemma parseInt_digits (ds : string) :
  ds <> "" -> all_chars is_digit ds = true ->
  parseInt ds = Some (digits_value 0 ds).
Proof.
  intros Hne Hd. destruct ds as [|c r]; [congruence|].
  pose proof Hd as Hd'. rewrite all_chars_cons in Hd'.
  apply andb_true_iff in Hd' as [Hc Hr].
  unfold parseInt. cbn [span]. rewrite (digit_not_space c Hc). cbn [snd].
  destruct (Ascii.eqb_spec c "-") as [->|_]; [discriminate Hc|].
  destruct (Ascii.eqb_spec c "+") as [->|_]; [discriminate Hc|].
  rewrite (span_all is_digit (String c r) Hd). reflexivity.
Qed.

Lemma parse_mainNumber_total (s : string) : exists n, parse_mainNumber s = Ok n.
Proof.
  unfold parse_mainNumber, mainNumberPattern.
  destruct (find_first digits s) as [ds|] eqn:E.
  - apply find_first_some in E as [suffix E]. apply digits_some in E as [H1 H2].
    rewrite (parseInt_digits ds H1 H2). eexists. reflexivity.
  - eexists. reflexivity.
Qed.

Lemma only_digits_app (a b : string) :
  only_digits (a +:+ b) = only_digits a +:+ only_digits b.
Proof.
  induction a as [|c a IH]; [reflexivity|].
  rewrite str_app_cons. cbn [only_digits]. destruct (is_digit c); [|exact IH].
  now rewrite str_app_cons, IH.
Qed.

Lemma only_digits_id (ds : string) :
  all_chars is_digit ds = true -> only_digits ds = ds.
Proof.
  induction ds as [|c r IH]; [reflexivity|].
  rewrite all_chars_cons. intros H. apply andb_true_iff in H as [Hc Hr].
  cbn [only_digits]. now rewrite Hc, IH.
Qed.

Lemma only_digits_all (s : string) : all_chars is_digit (only_digits s) = true.
Proof.
  induction s as [|c r IH]; [reflexivity|]. cbn [only_digits].
  destruct (is_digit c) eqn:E; [|exact IH]. now rewrite all_chars_cons, E.
Qed.

Lemma append_nonempty_r (a b : string) : b <> "" -> a +:+ b <> "".
Proof. destruct a; [now rewrite str_app_nil_l|]. rewrite str_app_cons. discriminate. Qed.

(** A tag that ends in a run of digits stands for an interval. *)
Lemma tag_interval_ok (pre ds : string) :
  ds <> "" -> all_chars is_digit ds = true ->
  exists a, tag_interval (pre +:+ ds) = Ok a.
Proof.
  intros H1 H2. unfold tag_interval.
  rewrite (parseInt_digits (only_digits (pre +:+ ds))).
  - eexists. reflexivity.
  - rewrite only_digits_app, (only_digits_id ds H2). now apply append_nonempty_r.
  - apply only_digits_all.
Qed.

Lemma additionPattern_tag (s m : string) :
  additionPattern s = Some m -> exists a, tag_interval m = Ok a.
Proof.
  unfold additionPattern. destruct (String.prefix "add" s); [|discriminate].
  destruct (slice 3 s) as [|c r]; [discriminate|].
  destruct (is_sharp_or_flat c).
  - destruct (digits r) as [ds|] eqn:E; [|discriminate]. intros [= <-].
    apply digits_some in E as [H1 H2].
    exact (tag_interval_ok ("add" +:+ String c EmptyString) ds H1 H2).
  - destruct (digits (String c r)) as [ds|] eqn:E; [|discriminate]. intros [= <-].
    apply digits_some in E as [H1 H2].
    exact (tag_interval_ok "add" ds H1 H2).
Qed.

Lemma alterationPattern_tag (s m : string) :
  alterationPattern s = Some m -> exists a, tag_interval m = Ok a.
Proof.
  unfold alterationPattern. destruct s as [|c r]; [discriminate|].
  destruct (is_sharp_or_flat c).
  - destruct (digits r) as [ds|] eqn:E; [|discriminate]. intros [= <-].
    apply digits_some in E as [H1 H2].
    exact (tag_interval_ok (String c EmptyString) ds H1 H2).
  - destruct (String.prefix natural_sign (String c r)); [|discriminate].
    destruct (digits (slice 3 (String c r))) as [ds|] eqn:E; [|discriminate].
    intros [= <-]. apply digits_some in E as [H1 H2].
    exact (tag_interval_ok natural_sign ds H1 H2).
Qed.

Lemma push_additions_ok (additions : list string) :
  (forall m, In m additions -> exists a, tag_interval m = Ok a) ->
  forall intervals, exists r, push_additions additions intervals = Ok r.
Proof.
  induction additions as [|m l IH]; intros H intervals; cbn [push_additions].
  - eexists. reflexivity.
  - destruct (H m (or_introl eq_refl)) as [a ->].
    apply IH. intros m' Hm'. apply H. now right.
Qed.

Lemma push_alterations_ok (additions alterations : list string) :
  (forall m, In m alterations -> exists a, tag_interval m = Ok a) ->
  forall intervals, exists r, push_alterations additions alterations intervals = Ok r.
Proof.
  induction alterations as [|m l IH]; intros H intervals; cbn [push_alterations].
  - eexists. reflexivity.
  - assert (Hl : forall m', In m' l -> exists a, tag_interval m' = Ok a)
      by (intros m' Hm'; apply H; now right).
    destruct (negb _); [|now apply IH].
    destruct (H m (or_introl eq_refl)) as [a ->]. now apply IH.
Qed.

(** The interval pushed for a sus tag. *)
Lemma sus_interval_ok (s sus : string) :
  find_first susPattern s = Some sus ->
  exists a, strToInterval_opt (Some ("M" +:+ slice 3 sus)) = Ok a.
Proof.
  intros H. apply find_first_some in H as [suffix H].
  unfold susPattern in H. destruct (String.prefix "sus" suffix); [|discriminate].
  destruct (digits (slice 3 suffix)) as [ds|] eqn:E; [|discriminate].
  injection H as <-. apply digits_some in E as [H1 H2].
  unfold strToInterval_opt. cbn [mbind res_bind defined].
  unfold Interval.strToInterval.
  change (slice 1 ("M" +:+ slice 3 ("sus" +:+ ds))) with ds.
  rewrite (parseInt_digits ds H1 H2). eexists. reflexivity.
Qed.

Lemma mains_cases (q : string) (table : list string) :
  mains q = Some table -> In (q, table) MAINS.
Proof.
  unfold mains. intros H.
  destruct (List.find _ MAINS) as [[q' t']|] eqn:E; [|discriminate H].
  injection H as <-. apply find_some in E as [Hin Heq].
  cbn [fst] in Heq. apply String.eqb_eq in Heq. now subst.
Qed.

Lemma main_step_clamp (table : list string) (aug : bool) (n : Z)
    (st : list Interval.t * bool) (i : Z) :
  0 <= i <= 6 ->
  main_step table aug n st i = main_step table aug (2 * clamp (n / 2)) st i.
Proof.
  intros Hi. unfold main_step.
  replace (2 * clamp (n / 2) / 2) with (clamp (n / 2))
    by (symmetry; rewrite Z.mul_comm; apply Z.div_mul; lia).
  replace (i + 1 <=? clamp (n / 2)) with (i + 1 <=? n / 2); [reflexivity|].
  unfold clamp. destruct (Z.leb_spec (i + 1) (n / 2)); symmetry;
    [apply Z.leb_le|apply Z.leb_gt]; lia.
Qed.

Lemma main_loop_clamp (table : list string) (aug : bool) (n : Z) (idxs : list Z) :
  (forall i, In i idxs -> 0 <= i <= 6) ->
  forall st,
    main_loop table aug n st idxs = main_loop table aug (2 * clamp (n / 2)) st idxs.
Proof.
  induction idxs as [|i l IH]; intros H st; cbn [main_loop]; [reflexivity|].
  rewrite (main_step_clamp table aug n st i) by (apply H; now left).
  destruct (main_step table aug (2 * clamp (n / 2)) st i) as [st'|e]; [|reflexivity].
  apply IH. intros j Hj. apply H. now right.
Qed.

Lemma clamp_cases (k : Z) : In (clamp k) [0; 1; 2; 3; 4; 5; 6; 7].
Proof. unfold clamp. cbn [In]. lia. Qed.

(** Up to main number 13 the loop over the table only converts entries
    the table has. *)
Lemma main_loop_ok (q : string) (table : list string) (aug : bool) (n : Z) :
  mains q = Some table -> n <= 13 ->
  exists st, main_loop table aug n ([], false)
               (map Z.of_nat (seq 0 (length table))) = Ok st.
Proof.
  intros Hq Hn. apply mains_cases in Hq.
  assert (Hc : clamp (n / 2) <= 6).
  { unfold clamp. assert (n / 2 < 7) by (apply Z.div_lt_upper_bound; lia). lia. }
  pose proof (clamp_cases (n / 2)) as Hk.
  cbv [MAINS In] in Hq.
  destruct Hq as [Hq|[Hq|[Hq|[Hq|[]]]]]; injection Hq as <- <-;
    (rewrite main_loop_clamp by (cbv [length seq map In]; lia));
    cbv [In] in Hk;
    destruct Hk as [Hk|[Hk|[Hk|[Hk|[Hk|[Hk|[Hk|[Hk|[]]]]]]]]];
    rewrite <- Hk in *; try lia; destruct aug; eexists; vm_compute; reflexivity.
Qed.

(** From main number 14 on, the seventh round converts the entry at
    index 7, which no table has. *)
Lemma main_loop_overrun (q : string) (table : list string) (aug : bool) (n : Z) :
  mains q = Some table -> 14 <= n ->
  main_loop table aug n ([], false)
    (map Z.of_nat (seq 0 (length table))) = Err TypeError.
Proof.
  intros Hq Hn. apply mains_cases in Hq.
  assert (Hc : clamp (n / 2) = 7).
  { unfold clamp. assert (7 <= n / 2) by (apply Z.div_le_lower_bound; lia). lia. }
  cbv [MAINS In] in Hq.
  destruct Hq as [Hq|[Hq|[Hq|[Hq|[]]]]]; injection Hq as <- <-;
    (rewrite main_loop_clamp by (cbv [length seq map In]; lia));
    rewrite Hc; destruct aug; vm_compute; reflexivity.
Qed.

(** [idToChord] returns a chord for every text whose main number is at
    most 13 and whose quality tag has a table. *)
Lemma idToChord_returns_up_to_13 (s : string) (n : Z) :
  parse_mainNumber s = Ok n -> n <= 13 -> is_Some (mains (parse_quality s)) ->
  exists c, idToChord s = Ok c.
Proof.
  intros Hn Hle [table Hq]. unfold idToChord. rewrite Hn, Hq. cbn [mbind res_bind defined].
  destruct (main_loop_ok _ table (augPattern s) n Hq Hle) as [[ints ex5] ->].
  cbn [mbind res_bind].
  set (i1 := if augPattern s && negb ex5 then _ else _).
  assert (H1 : exists r, i1 = Ok r).
  { subst i1. destruct (_ && _); eexists; reflexivity. }
  destruct H1 as [r1 ->]. cbn [mbind res_bind].
  set (i2 := if negb _ then _ else _).
  assert (H2 : exists r, i2 = Ok r).
  { subst i2. destruct (find_first susPattern s) as [sus|] eqn:E; cbn [from_option Datatypes.id].
    - destruct (negb _); [|eexists; reflexivity].
      destruct (sus_interval_ok s sus E) as [a ->]. eexists. reflexivity.
    - eexists. reflexivity. }
  destruct H2 as [r2 ->]. cbn [mbind res_bind].
  destruct (push_additions_ok (find_all additionPattern s)) with (intervals := r2)
    as [r3 ->].
  { intros m Hm. apply find_all_from_in in Hm as [suffix Hm].
    exact (additionPattern_tag suffix m Hm). }
  cbn [mbind res_bind].
  destruct (push_alterations_ok (find_all additionPattern s)
              (find_all alterationPattern s)) with (intervals := r3) as [r4 ->].
  { intros m Hm. apply find_all_from_in in Hm as [suffix Hm].
    exact (alterationPattern_tag suffix m Hm). }
  eexists. reflexivity.
Qed.

(** [idToChord] throws for every text whose main number is 14 or more. *)
Lemma idToChord_overruns_from_14 (s : string) (n : Z) :
  parse_mainNumber s = Ok n -> 14 <= n -> idToChord s = Err TypeError.
Proof.
  intros Hn Hle. unfold idToChord. rewrite Hn. cbn [mbind res_bind].
  destruct (mains (parse_quality s)) as [table|] eqn:Hq;
    cbn [mbind res_bind defined]; [|reflexivity].
  now rewrite (main_loop_overrun _ table _ n Hq Hle).
Qed.

(** C10, at the texts with the tag "^aug".  [idToChord] throws for every
    text in which the quality pattern matches "^aug", whatever its main
    number: "aug" is no key of [Chord.MAINS].  These are the ids [id]
    writes for a chord with an augmented 5th: the chord of M3 and A5 has
    id "^aug3A5", main number 3, and [idToChord] throws on it. *)
Theorem idToChord_throws_on_aug_tag :
  (forall s : string,
     find_first qualityPattern s = Some "^aug" -> idToChord s = Err TypeError)
  /\ Chord.id (Chord.new [Interval.new 3 0; Interval.new 5 1]) None = "^aug3A5"
  /\ parse_mainNumber "^aug3A5" = Ok 3
  /\ idToChord "^aug3A5" = Err TypeError.
Proof.
  split; [|repeat split; vm_compute; reflexivity].
  intros s H. unfold idToChord, parse_quality. rewrite H.
  destruct (parse_mainNumber_total s) as [n ->]. reflexivity.
Qed.

Lemma idToChord_throws_on_aug_tag_witness : idToChord "C^aug7" = Err TypeError.
Proof. apply (proj1 idToChord_throws_on_aug_tag "C^aug7"). reflexivity. Defined.

Lemma idToChord_returns_up_to_13_witness : exists c, idToChord "F^maj13" = Ok c.
Proof.
  apply (idToChord_returns_up_to_13 "F^maj13" 13); [reflexivity|lia|].
  vm_compute. eauto.
Defined.

Lemma idToChord_overruns_from_14_witness : idToChord "F^maj15" = Err TypeError.
Proof. apply (idToChord_overruns_from_14 "F^maj15" 15); [reflexivity|lia]. Defined.

End Decoding.

(** ** Scale matching *)

Section Matching.

Import Chord.





(** Three chord notes that all belong to the scale: the proportion is 1. *)
Lemma proportion_all_three (a b c : Z) (scaleNotes : list Z) :
  In a scaleNotes -> In b scaleNotes -> In c scaleNotes ->
  proportion [a; b; c] scaleNotes = 1%Qc.
Proof.
  intros Ha Hb Hc. unfold proportion.
  assert (E : forall x, In x scaleNotes -> existsb (Z.eqb x) scaleNotes = true).
  { intros x Hx. apply existsb_exists. exists x. split; [exact Hx|apply Z.eqb_refl]. }
  cbn [List.filter]. rewrite (E a Ha), (E b Hb), (E c Hc).
  apply Qc_is_canon. reflexivity.
Qed.


End Matching.

(** * Further properties of the code *)

(** ** Numbers in decimal *)

Section Decimal.

Lemma digits_value_of_uint_acc (d : Decimal.uint) (acc : positive) :
  digits_value (Z.pos acc) (NilEmpty.string_of_uint d)
  = Z.pos (Pos.of_uint_acc d acc).
Proof.
  revert acc. induction d; intros acc; cbn [NilEmpty.string_of_uint digits_value Pos.of_uint_acc];
    try reflexivity;
    rewrite <- IHd; f_equal;
    match goal with
    | |- context [Z.of_nat (nat_of_ascii ?c) - 48] =>
        let v := eval vm_compute in (Z.of_nat (nat_of_ascii c) - 48) in
        change (Z.of_nat (nat_of_ascii c) - 48) with v
    end; lia.
Qed.

Lemma digits_value_of_uint (d : Decimal.uint) :
  digits_value 0 (NilEmpty.string_of_uint d) = Z.of_N (Pos.of_uint d).
Proof.
  induction d; cbn [NilEmpty.string_of_uint digits_value Pos.of_uint];
    try reflexivity; try exact IHd;
    cbn [Z.of_N]; rewrite <- digits_value_of_uint_acc; f_equal.
Qed.

Lemma string_of_uint_digits (d : Decimal.uint) :
  all_chars is_digit (NilEmpty.string_of_uint d) = true.
Proof.
  induction d; cbn [NilEmpty.string_of_uint]; try reflexivity;
    rewrite all_chars_cons, IHd; reflexivity.
Qed.

Lemma Z_to_string_pos (p : positive) :
  Z_to_string (Z.pos p) = NilEmpty.string_of_uint (Pos.to_uint p).
Proof.
  unfold Z_to_string. cbn [Z.to_int NilZero.string_of_int].
  unfold NilZero.string_of_uint.
  destruct (Pos.to_uint p) eqn:E; try reflexivity.
  exfalso. exact (DecimalPos.Unsigned.to_uint_nonnil p E).
Qed.

(** A number that is not negative is written as a non-empty run of
    digits, whose value it is. *)
Lemma Z_to_string_nonneg (z : Z) :
  0 <= z ->
  Z_to_string z <> "" /\ all_chars is_digit (Z_to_string z) = true
  /\ digits_value 0 (Z_to_string z) = z.
Proof.
  intros Hz. destruct z as [|p|p]; [repeat split; discriminate| |lia].
  rewrite Z_to_string_pos. split; [|split].
  - pose proof (DecimalPos.Unsigned.to_uint_nonnil p) as H.
    destruct (Pos.to_uint p); try discriminate. congruence.
  - apply string_of_uint_digits.
  - rewrite digits_value_of_uint, DecimalPos.Unsigned.of_to. reflexivity.
Qed.

Lemma Z_to_string_neg (p : positive) :
  Z_to_string (Z.neg p) = String "-" (Z_to_string (Z.pos p)).
Proof.
  rewrite Z_to_string_pos. unfold Z_to_string.
  cbn [Z.to_int NilZero.string_of_int]. unfold NilZero.string_of_uint.
  destruct (Pos.to_uint p) eqn:E; try reflexivity.
  exfalso. exact (DecimalPos.Unsigned.to_uint_nonnil p E).
Qed.

(** [parseInt(String(z))] is [z]. *)
Lemma parseInt_Z_to_string (z : Z) : parseInt (Z_to_string z) = Some z.
Proof.
  destruct z as [|p|p].
  - reflexivity.
  - destruct (Z_to_string_nonneg (Z.pos p)) as (H1 & H2 & H3); [lia|].
    rewrite (parseInt_digits _ H1 H2). now rewrite H3.
  - rewrite Z_to_string_neg.
    destruct (Z_to_string_nonneg (Z.pos p)) as (H1 & H2 & H3); [lia|].
    unfold parseInt. cbn [span is_space]. 
    change (is_space "-") with false. cbn [snd].
    change (Ascii.eqb "-" "-") with true. cbv iota beta.
    rewrite (span_all is_digit _ H2). cbn [fst].
    destruct (Z_to_string (Z.pos p)); [congruence|]. now rewrite H3.
Qed.

End Decimal.

(** ** Intervals *)

Section Intervals.

Import Interval.

Lemma compare_le_cases (a b : t) :
  compare a b <= 0
  <-> number a < number b \/ (number a = number b /\ quality a <= quality b).
Proof.
  unfold compare. destruct (Z.eqb_spec (number a - number b) 0); lia.
Qed.

Lemma interval_le_trans (a b c : t) :
  interval_le a b -> interval_le b c -> interval_le a c.
Proof. unfold interval_le. rewrite !compare_le_cases. lia. Qed.

Lemma interval_le_total (a b : t) : interval_le a b \/ interval_le b a.
Proof. unfold interval_le. rewrite !compare_le_cases. lia. Qed.

Lemma insert_perm (a : t) (l : list t) : Permutation (insert a l) (a :: l).
Proof.
  induction l as [|b l IH]; cbn [insert]; [reflexivity|].
  destruct (compare a b <=? 0); [reflexivity|].
  rewrite IH. apply perm_swap.
Qed.

Lemma insert_sorted (a : t) (l : list t) :
  Sorted interval_le l -> Sorted interval_le (insert a l).
Proof.
  induction l as [|b l IH]; cbn [insert]; intros Hs.
  - repeat constructor.
  - destruct (Z.leb_spec (compare a b) 0) as [Hab|Hab].
    + constructor; [exact Hs|]. constructor. exact Hab.
    + assert (Hba : interval_le b a).
      { destruct (interval_le_total a b) as [H|H]; [unfold interval_le in H; lia|exact H]. }
      apply Sorted_inv in Hs as [Hs Hhd]. constructor; [exact (IH Hs)|].
      destruct l as [|c l]; cbn [insert].
      * constructor. exact Hba.
      * destruct (compare a c <=? 0); constructor; [exact Hba|].
        now apply HdRel_inv in Hhd.
Qed.

Lemma sort_perm (l : list t) : Permutation (sort l) l.
Proof.
  unfold sort. induction l as [|a l IH]; cbn [foldr]; [reflexivity|].
  rewrite insert_perm. now rewrite IH.
Qed.

Lemma sort_sorted (l : list t) : Sorted interval_le (sort l).
Proof.
  unfold sort. induction l as [|a l IH]; cbn [foldr]; [constructor|].
  now apply insert_sorted.
Qed.

Lemma sort_of_sorted (l : list t) : Sorted interval_le l -> sort l = l.
Proof.
  unfold sort. induction l as [|a l IH]; cbn [foldr]; [reflexivity|].
  intros Hs. apply Sorted_inv in Hs as [Hs Hhd]. rewrite (IH Hs).
  destruct l as [|b l]; [reflexivity|]. cbn [insert].
  apply HdRel_inv in Hhd. unfold interval_le in Hhd.
  apply Z.leb_le in Hhd. now rewrite Hhd.
Qed.

(** The constructors of [Chord], [ChordWithBase] and [Scale] put the
    intervals they are given in ascending order of number, then quality;
    none is added or dropped, and intervals already in that order are
    kept as they are. *)
Theorem constructors_sort_intervals (l : list t) (b : Note.t) (sb : option Scale.note) :
  (Sorted interval_le (Chord.intervals (Chord.new l))
   /\ Permutation (Chord.intervals (Chord.new l)) l)
  /\ Chord.intervals (Chord.new_with_base b l) = Chord.intervals (Chord.new l)
  /\ Scale.intervals (Scale.new sb l) = Chord.intervals (Chord.new l)
  /\ (Sorted interval_le l -> Chord.intervals (Chord.new l) = l).
Proof.
  cbn [Chord.new Chord.new_with_base Scale.new Chord.intervals Scale.intervals].
  repeat split; auto using sort_sorted, sort_perm, sort_of_sorted.
Qed.

Lemma constructors_sort_intervals_witness :
  Chord.intervals (Chord.new [mk 3 (-1); mk 5 0; mk 7 (-1)])
  = [mk 3 (-1); mk 5 0; mk 7 (-1)].
Proof.
  apply (proj2 (proj2 (proj2
           (constructors_sort_intervals [mk 3 (-1); mk 5 0; mk 7 (-1)]
              (Note.new "C" 4) None)))).
  repeat first [apply Sorted_nil | apply Sorted_cons | apply HdRel_nil
               | apply HdRel_cons];
    unfold interval_le; vm_compute; intros H; discriminate H.
Defined.

(** Written with [toString] and read back with [strToInterval], an
    interval whose number is a safe integer keeps its number; it keeps
    its quality when the quality has a letter of its own in the class of
    the degree, and comes back with quality 0 when it has not.  (A
    number from 1e21 on is written with an exponent and read back only
    up to it.) *)
Theorem strToInterval_after_toString (i : t) :
  safe_integer (number i) ->
  strToInterval (toString i)
  = Some (mk (number i) (if has_named_quality i then quality i else 0)).
Proof.
  intros _.
  unfold strToInterval, toString.
  destruct (letter_of_cases i) as [E|[E|[E|[E|E]]]]; rewrite E;
    rewrite str_app_cons, str_app_nil_l; cbn [first_char slice];
    rewrite parseInt_Z_to_string; cbn [mbind option_bind];
    unfold letter_of in E; unfold has_named_quality;
    destruct (perfect_class (number i)); cbn [existsb];
    repeat match type of E with
           | context [if ?c =? ?k then _ else _] =>
               destruct (Z.eqb_spec c k) as [->|?]
           end;
    try discriminate E;
    repeat match goal with
           | |- context [?c =? ?k] =>
               lazymatch c with
               | quality i => destruct (Z.eqb_spec c k) as [->|?]
               end
           end;
    try lia; reflexivity.
Qed.

Lemma strToInterval_after_toString_witness :
  strToInterval (toString (mk 5 (-1))) = Some (mk 5 (-1))
  /\ strToInterval (toString (mk 3 2)) = Some (mk 3 0).
Proof.
  split.
  - apply (strToInterval_after_toString (mk 5 (-1))). vm_compute.
    split; discriminate.
  - apply (strToInterval_after_toString (mk 3 2)). vm_compute.
    split; discriminate.
Defined.

(** [name()] says in words what [toString()] says with a letter, puts
    the same number after it, and ends with "st", "nd" or "rd" when the
    number leaves 1, 2 or 3 in the division by 10 (so also for 11, 12
    and 13), with "th" otherwise. *)
Theorem name_spells_toString (i : t) :
  name i
  = word_of_letter (first_char (toString i)) +:+ " " +:+ slice 1 (toString i)
    +:+ (if Z.rem (number i) 10 =? 1 then "st"
         else if Z.rem (number i) 10 =? 2 then "nd"
         else if Z.rem (number i) 10 =? 3 then "rd"
         else "th").
Proof.
  unfold name, toString, ordinal.
  assert (Hw : word_of i = word_of_letter (letter_of i)).
  { unfold word_of, letter_of.
    repeat match goal with |- context [if ?b then _ else _] => destruct b end;
      reflexivity. }
  rewrite Hw.
  assert (Ho : match index ["st"; "nd"; "rd"] (Z.rem (number i) 10 - 1) with
               | Some s => s | None => "th" end
               = if Z.rem (number i) 10 =? 1 then "st"
                 else if Z.rem (number i) 10 =? 2 then "nd"
                 else if Z.rem (number i) 10 =? 3 then "rd"
                 else "th").
  { unfold index.
    destruct (Z.eqb_spec (Z.rem (number i) 10) 1) as [->|H1]; [reflexivity|].
    destruct (Z.eqb_spec (Z.rem (number i) 10) 2) as [->|H2]; [reflexivity|].
    destruct (Z.eqb_spec (Z.rem (number i) 10) 3) as [->|H3]; [reflexivity|].
    destruct (Z.ltb_spec (Z.rem (number i) 10 - 1) 0) as [|Hge]; [reflexivity|].
    destruct (Z.to_nat (Z.rem (number i) 10 - 1)) as [|[|[|n]]] eqn:En;
      try lia; reflexivity. }
  rewrite Ho.
  destruct (letter_of_cases i) as [E|[E|[E|[E|E]]]]; rewrite E; reflexivity.
Qed.

End Intervals.

(** ** Interval arithmetic *)

Section IntervalArithmetic.

Import Interval.

Lemma table_defined (k : Z) :
  0 <= k <= 6 -> exists base, index table k = Some base /\ 0 <= base <= 11.
Proof.
  intros Hk. assert (H : In k [0; 1; 2; 3; 4; 5; 6]) by (cbn [In]; lia).
  cbv [In] in H.
  repeat destruct H as [H|H]; try contradiction; subst; eexists;
    (split; [reflexivity|lia]).
Qed.

Lemma table_undefined (k : Z) : k < 0 -> index table k = None.
Proof. intros Hk. unfold index. now destruct (Z.ltb_spec k 0); [|lia]. Qed.

Lemma rem_7_bounds (n : Z) : 0 <= n -> 0 <= Z.rem n 7 <= 6.
Proof. intros Hn. pose proof (Z.rem_bound_pos n 7 Hn). lia. Qed.

(** The semitones of an interval of positive number. *)
Lemma toSemitones_positive (i : t) :
  1 <= number i ->
  exists base,
    index table (Z.rem (number i - 1) 7) = Some base
    /\ toSemitones i = Num (base + quality i + (number i - 1) / 7 * 12).
Proof.
  intros Hn. destruct (table_defined (Z.rem (number i - 1) 7)) as (base & E & _).
  { apply rem_7_bounds. lia. }
  exists base. split; [exact E|]. unfold toSemitones. now rewrite E.
Qed.

(** What the two renormalizations, of [add] and of the constructor,
    leave: a quality strictly between -12 and 12 that differs from the
    given one by a multiple of 12. *)
Lemma renormalized (number q : Z) :
  exists k, quality (new number (normalize q)) = q + 12 * k
            /\ -12 < quality (new number (normalize q)) < 12.
Proof.
  unfold new. cbn [quality]. set (y := normalize q).
  assert (Hy : exists k, y = q + 12 * k).
  { unfold y, normalize.
    destruct (q >? 6); [exists (-1); lia|].
    destruct (q <? -6); [exists 1; lia|exists 0; lia]. }
  destruct Hy as [k Hy].
  destruct ((y <=? -12) || (y >=? 12)) eqn:E.
  - pose proof (Z.quot_rem' y 12) as Hq.
    exists (k - Z.quot y 12). split; [lia|].
    pose proof (Z.rem_bound_abs y 12 ltac:(lia)). lia.
  - apply orb_false_iff in E as [E1 E2].
    exists k. split; [exact Hy|]. lia.
Qed.

(** [add] on intervals of positive number, before any reading of the
    result. *)
Lemma add_sums (a b : t) :
  1 <= number a -> 1 <= number b ->
  exists base sa sb,
    index table (Z.rem (number a + number b - 1 - 1) 7) = Some base
    /\ toSemitones a = Num sa /\ toSemitones b = Num sb
    /\ add a b
       = mk_raw (number a + number b - 1)
           (Num (quality (new (number a + number b - 1)
                            (normalize (sa + sb - base))))).
Proof.
  intros Ha Hb.
  destruct (toSemitones_positive a Ha) as (ta & Eta & Esa).
  destruct (toSemitones_positive b Hb) as (tb & Etb & Esb).
  destruct (table_defined (Z.rem (number a + number b - 1 - 1) 7))
    as (base & Ebase & Hbase).
  { apply rem_7_bounds. lia. }
  eexists base, _, _. split; [exact Ebase|]. split; [exact Esa|].
  split; [exact Esb|].
  unfold add. rewrite Esa, Esb, Ebase. reflexivity.
Qed.

(** [a.add(b)] for intervals of positive number: the number is the sum
    of the numbers less one, the quality lies strictly between -12 and
    12, and the semitones are the sum of the semitones of [a] and [b] up
    to a whole number of octaves.  When the result is at most a 14th and
    some quality from -5 to 6 gives that number the exact sum of the
    semitones, the result has this quality. *)
Theorem add_sums_semitones (a b : t) :
  1 <= number a -> 1 <= number b ->
  exists q sa sb s,
    add a b = mk_raw (number a + number b - 1) (Num q)
    /\ -12 < q < 12
    /\ toSemitones a = Num sa /\ toSemitones b = Num sb
    /\ raw_toSemitones (add a b) = Num s
    /\ (exists k, s = sa + sb + 12 * k)
    /\ (forall d,
          number a + number b - 1 <= 14 -> -5 <= d <= 6 ->
          toSemitones (mk (number a + number b - 1) d) = Num (sa + sb) ->
          q = d).
Proof.
  intros Ha Hb.
  destruct (add_sums a b Ha Hb) as (base & sa & sb & Ebase & Esa & Esb & Eadd).
  set (n := number a + number b - 1) in *.
  destruct (renormalized n (sa + sb - base)) as (k & Hk & Hq).
  exists (quality (new n (normalize (sa + sb - base)))), sa, sb,
    (base + quality (new n (normalize (sa + sb - base))) + (n - 1) / 7 * 12).
  split; [exact Eadd|]. split; [exact Hq|]. split; [exact Esa|].
  split; [exact Esb|]. split.
  { rewrite Eadd. unfold raw_toSemitones, toSemitones.
    cbn [raw_quality raw_number number quality]. now rewrite Ebase. }
  split.
  - exists (k + (n - 1) / 7). lia.
  - intros d Hn Hd Hexact.
    unfold toSemitones in Hexact. cbn [number quality] in Hexact.
    rewrite Ebase in Hexact. injection Hexact as Hexact.
    assert (Hoct : (n - 1) / 7 = 0 \/ (n - 1) / 7 = 1).
    { assert (0 <= (n - 1) / 7) by (apply Z.div_pos; lia).
      assert ((n - 1) / 7 < 2) by (apply Z.div_lt_upper_bound; lia). lia. }
    unfold new, normalize. cbn [quality].
    destruct Hoct as [Ho|Ho]; rewrite Ho in Hexact.
    + assert (Hx : sa + sb - base = d) by lia. rewrite Hx.
      destruct (Z.gtb_spec d 6); [lia|]. destruct (Z.ltb_spec d (-6)); [lia|].
      destruct (Z.leb_spec d (-12)); [lia|]. destruct (Z.geb_spec d 12); [lia|].
      reflexivity.
    + assert (Hx : sa + sb - base = d + 12) by lia. rewrite Hx.
      destruct (Z.gtb_spec (d + 12) 6); [|lia].
      replace (d + 12 - 12) with d by lia.
      destruct (Z.leb_spec d (-12)); [lia|]. destruct (Z.geb_spec d 12); [lia|].
      reflexivity.
Qed.

Lemma add_sums_semitones_witness :
  exists q sa sb s,
    add (mk 5 0) (mk 4 0) = mk_raw 8 (Num q)
    /\ -12 < q < 12
    /\ toSemitones (mk 5 0) = Num sa /\ toSemitones (mk 4 0) = Num sb
    /\ raw_toSemitones (add (mk 5 0) (mk 4 0)) = Num s
    /\ (exists k, s = sa + sb + 12 * k)
    /\ (forall d,
          8 <= 14 -> -5 <= d <= 6 ->
          toSemitones (mk 8 d) = Num (sa + sb) -> q = d).
Proof. apply (add_sums_semitones (mk 5 0) (mk 4 0)); cbn; lia. Defined.

Lemma renormalized_exact (n d oct : Z) :
  oct = 0 \/ oct = 1 -> -5 <= d <= 6 ->
  quality (new n (normalize (d + 12 * oct))) = d.
Proof.
  intros Ho Hd. unfold new, normalize. cbn [quality].
  destruct Ho as [->| ->].
  - replace (d + 12 * 0) with d by lia.
    destruct (Z.gtb_spec d 6); [lia|]. destruct (Z.ltb_spec d (-6)); [lia|].
    destruct (Z.leb_spec d (-12)); [lia|]. destruct (Z.geb_spec d 12); [lia|].
    reflexivity.
  - destruct (Z.gtb_spec (d + 12 * 1) 6); [|lia].
    replace (d + 12 * 1 - 12) with d by lia.
    destruct (Z.leb_spec d (-12)); [lia|]. destruct (Z.geb_spec d 12); [lia|].
    reflexivity.
Qed.

Lemma subtract_number (a b : t) :
  raw_number (subtract a b) = number a + 1 - number b.
Proof.
  unfold subtract, new_raw.
  destruct (match toSemitones a with Num _ => _ | _ => _ end); reflexivity.
Qed.

(** [subtract] of an interval whose number is not the greater. *)
Lemma subtract_upward (a b : t) :
  1 <= number a -> 1 <= number b -> number b <= number a ->
  exists sa sb s k,
    toSemitones a = Num sa /\ toSemitones b = Num sb
    /\ raw_toSemitones (subtract a b) = Num s /\ s = sa - sb + 12 * k.
Proof.
  intros Ha Hb Hle.
  destruct (toSemitones_positive a Ha) as (ta & Eta & Esa).
  destruct (toSemitones_positive b Hb) as (tb & Etb & Esb).
  set (sa := ta + quality a + (number a - 1) / 7 * 12) in *.
  set (sb := tb + quality b + (number b - 1) / 7 * 12) in *.
  assert (En : number a + 1 - number b - 1 = number a - number b) by lia.
  destruct (table_defined (Z.rem (number a - number b) 7)) as (base & Ebase & _).
  { apply rem_7_bounds. lia. }
  destruct (renormalized (number a + 1 - number b) (sa - sb - base))
    as (k & Hk & Hq).
  exists sa, sb. eexists. exists (k + (number a - number b) / 7).
  split; [exact Esa|]. split; [exact Esb|].
  unfold subtract. rewrite Esa, Esb, En, Ebase.
  unfold new_raw, raw_toSemitones, toSemitones.
  cbn [raw_quality raw_number number quality]. rewrite En, Ebase.
  split; [reflexivity|]. lia.
Qed.

(** [a.subtract(b)] for intervals of positive number: the number is the
    number of [a] plus one less the number of [b].  When [b] has the
    greater number and the two numbers are not a whole number of octaves
    apart, the quality is [NaN]; otherwise it is a number strictly
    between -12 and 12, and when [b] does not have the greater number
    the semitones are those of [a] less those of [b], up to a whole
    number of octaves. *)
Theorem subtract_differences (a b : t) :
  1 <= number a -> 1 <= number b ->
  raw_number (subtract a b) = number a + 1 - number b
  /\ (Z.rem (number a - number b) 7 < 0 -> raw_quality (subtract a b) = NaN)
  /\ (0 <= Z.rem (number a - number b) 7 ->
      exists q, raw_quality (subtract a b) = Num q /\ -12 < q < 12)
  /\ (number b <= number a ->
      exists sa sb s k,
        toSemitones a = Num sa /\ toSemitones b = Num sb
        /\ raw_toSemitones (subtract a b) = Num s /\ s = sa - sb + 12 * k).
Proof.
  intros Ha Hb.
  destruct (toSemitones_positive a Ha) as (ta & Eta & Esa).
  destruct (toSemitones_positive b Hb) as (tb & Etb & Esb).
  set (sa := ta + quality a + (number a - 1) / 7 * 12) in *.
  set (sb := tb + quality b + (number b - 1) / 7 * 12) in *.
  assert (En : number a + 1 - number b - 1 = number a - number b) by lia.
  split; [apply subtract_number|]. split; [|split].
  - intros Hneg. unfold subtract. rewrite Esa, Esb, En.
    now rewrite (table_undefined _ Hneg).
  - intros Hpos.
    destruct (table_defined (Z.rem (number a - number b) 7)) as (base & Ebase & _).
    { pose proof (Z.rem_bound_abs (number a - number b) 7 ltac:(lia)). lia. }
    destruct (renormalized (number a + 1 - number b) (sa - sb - base))
      as (k & Hk & Hq).
    eexists. split; [|exact Hq].
    unfold subtract. rewrite Esa, Esb, En, Ebase. reflexivity.
  - now apply subtract_upward.
Qed.

Lemma subtract_differences_witness :
  (raw_number (subtract (mk 3 0) (mk 5 0)) = -1
   /\ raw_quality (subtract (mk 3 0) (mk 5 0)) = NaN)
  /\ (exists q, raw_quality (subtract (mk 5 0) (mk 3 0)) = Num q /\ -12 < q < 12)
  /\ (exists sa sb s k,
        toSemitones (mk 5 0) = Num sa /\ toSemitones (mk 3 0) = Num sb
        /\ raw_toSemitones (subtract (mk 5 0) (mk 3 0)) = Num s
        /\ s = sa - sb + 12 * k).
Proof.
  pose proof (subtract_differences (mk 3 0) (mk 5 0) ltac:(cbn; lia) ltac:(cbn; lia))
    as (H1 & H2 & _).
  pose proof (subtract_differences (mk 5 0) (mk 3 0) ltac:(cbn; lia) ltac:(cbn; lia))
    as (_ & _ & H3 & H4).
  split; [split; [exact H1|apply H2; vm_compute; reflexivity]|].
  split; [apply H3; vm_compute; discriminate|apply H4; cbn; lia].
Defined.

(** [a.add(b).subtract(b)], for intervals of positive number, has the
    number of [a] and the semitones of [a] up to a whole number of
    octaves; it is [a] itself when [a] is at most a 14th of quality from
    -5 to 6 and the sum had the exact sum of the semitones. *)
Theorem subtract_undoes_add (a b : t) :
  1 <= number a -> 1 <= number b ->
  exists c sa sb,
    add a b = as_raw c
    /\ toSemitones a = Num sa /\ toSemitones b = Num sb
    /\ raw_number (subtract c b) = number a
    /\ (exists s k, raw_toSemitones (subtract c b) = Num s /\ s = sa + 12 * k)
    /\ (toSemitones c = Num (sa + sb) -> number a <= 14 ->
        -5 <= quality a <= 6 -> subtract c b = as_raw a).
Proof.
  intros Ha Hb.
  destruct (add_sums a b Ha Hb) as (base & sa & sb & Ebase & Esa & Esb & Eadd).
  destruct (renormalized (number a + number b - 1) (sa + sb - base))
    as (k0 & Hk0 & Hq).
  set (q := quality (new (number a + number b - 1) (normalize (sa + sb - base))))
    in *.
  set (c := mk (number a + number b - 1) q).
  set (s := base + q + (number a + number b - 1 - 1) / 7 * 12).
  assert (Hc : 1 <= number c) by (cbn; lia).
  assert (Ecs : toSemitones c = Num s).
  { unfold toSemitones, c. cbn [number quality]. now rewrite Ebase. }
  assert (Hk : s = sa + sb + 12 * (k0 + (number a + number b - 1 - 1) / 7))
    by (unfold s; lia).
  set (k := k0 + (number a + number b - 1 - 1) / 7) in *.
  pose proof (subtract_number c b) as Hn.
  destruct (subtract_upward c b Hc Hb ltac:(cbn; lia))
    as (sc & sb' & s' & k' & Esc & Esb' & Es' & Hs').
  assert (sc = s) by congruence. assert (sb' = sb) by congruence. subst sc sb'.
  exists c, sa, sb. split; [exact Eadd|]. split; [exact Esa|]. split; [exact Esb|].
  split; [rewrite Hn; cbn; lia|]. split.
  - exists s', (k + k'). split; [exact Es'|lia].
  - intros Hexact Hn14 Hqa.
    assert (s = sa + sb) by congruence. subst s.
    destruct (toSemitones_positive a Ha) as (ta & Eta & Esa').
    rewrite Esa' in Esa. injection Esa as Esa.
    unfold subtract. rewrite Ecs, Esb.
    replace (number c + 1 - number b) with (number a) by (cbn; lia).
    rewrite Eta. unfold new_raw, as_raw. f_equal. f_equal.
    match goal with
    | |- context [normalize ?e] =>
        replace e with (quality a + 12 * ((number a - 1) / 7)) by lia
    end.
    apply renormalized_exact; [|exact Hqa].
    assert (0 <= (number a - 1) / 7) by (apply Z.div_pos; lia).
    assert ((number a - 1) / 7 < 2) by (apply Z.div_lt_upper_bound; lia). lia.
Qed.

Lemma subtract_undoes_add_witness :
  exists c sa sb,
    add (mk 3 0) (mk 3 (-1)) = as_raw c
    /\ toSemitones (mk 3 0) = Num sa /\ toSemitones (mk 3 (-1)) = Num sb
    /\ raw_number (subtract c (mk 3 (-1))) = 3
    /\ (exists s k, raw_toSemitones (subtract c (mk 3 (-1))) = Num s
                    /\ s = sa + 12 * k)
    /\ (toSemitones c = Num (sa + sb) -> 3 <= 14 -> -5 <= 0 <= 6 ->
        subtract c (mk 3 (-1)) = as_raw (mk 3 0)).
Proof. apply (subtract_undoes_add (mk 3 0) (mk 3 (-1))); cbn; lia. Defined.

End IntervalArithmetic.

(** ** Pitches of notes *)

Section Pitches.

Import Note.

(** The twelve names: each is at its index, is its own first character
    followed by the rest, and has its index as letter index plus sharps
    minus flats. *)
Lemma NOTES_entry (k : Z) :
  0 <= k <= 11 ->
  exists name,
    index NOTES k = Some name
    /\ indexOf NOTES name = k
    /\ full_name (Note.new name 0) = name
    /\ raw_index (Note.new name 0) = k
    /\ name <> "B#" /\ name <> "Cb".
Proof.
  intros Hk.
  assert (H : In k [0; 1; 2; 3; 4; 5; 6; 7; 8; 9; 10; 11]) by (cbn [In]; lia).
  cbv [In] in H.
  repeat destruct H as [H|H]; try contradiction; subst; eexists;
    (split; [reflexivity|]); repeat split; discriminate.
Qed.

Lemma table_undefined' {A} (l : list A) (k : Z) : k < 0 -> index l k = None.
Proof. intros Hk. unfold index. now destruct (Z.ltb_spec k 0); [|lia]. Qed.

Lemma new_octave_irrelevant (name : string) (o : Z) :
  full_name (Note.new name o) = full_name (Note.new name 0)
  /\ raw_index (Note.new name o) = raw_index (Note.new name 0).
Proof. split; reflexivity. Qed.

Lemma toSemitones_unfolded (n : t) :
  toSemitones n
  = if Z.rem (raw_index n) 12 <? 0 then Err TypeError
    else Ok (Z.rem (raw_index n) 12 + octave n * 12 + 12).
Proof.
  unfold toSemitones, enharmonicEquiv. fold (raw_index n).
  change (is_str (Some "natural") "flat") with false. cbv iota.
  cbn [mbind res_bind mret res_ret].
  destruct (Z.ltb_spec (Z.rem (raw_index n) 12) 0) as [Hneg|Hpos].
  - unfold index. destruct (Z.ltb_spec (Z.rem (raw_index n) 12) 0); [|lia].
    reflexivity.
  - destruct (NOTES_entry (Z.rem (raw_index n) 12))
      as (name & E1 & E2 & E3 & _ & Hb & Hc).
    { pose proof (Z.rem_bound_abs (raw_index n) 12 ltac:(lia)). lia. }
    rewrite E1. unfold is_str.
    destruct (String.eqb_spec name "B#"); [contradiction|].
    destruct (String.eqb_spec name "Cb"); [contradiction|].
    cbn [new_opt defined mbind res_bind mret res_ret].
    unfold full_name in E3. cbn [letter accidental Note.new] in *.
    now rewrite E3, E2.
Qed.

Lemma toSemitones_in_octave (n : t) :
  0 <= raw_index n <= 11 -> toSemitones n = Ok (midi n).
Proof.
  intros Hr. rewrite toSemitones_unfolded. rewrite Z.rem_small by lia.
  destruct (Z.ltb_spec (raw_index n) 0); [lia|].
  f_equal. unfold midi. fold (raw_index n). lia.
Qed.

(** [toSemitones()] reduces the place of the note into the twelve names
    with the truncating remainder and counts from the octave number of
    the note itself: it throws when that remainder is negative (a note
    spelled below C, such as Cb), and otherwise is the remainder plus 12
    for each octave, plus 12.  It is the MIDI number exactly for the
    notes spelled within C..B of their octave; for B# and the like it is
    lower by an octave for each 12 in the place. *)
Theorem toSemitones_reduces_into_octave (n : t) :
  toSemitones n
  = (if Z.rem (raw_index n) 12 <? 0 then Err TypeError
     else Ok (Z.rem (raw_index n) 12 + octave n * 12 + 12))
  /\ (0 <= raw_index n ->
      toSemitones n = Ok (midi n - 12 * (raw_index n / 12)))
  /\ (0 <= raw_index n <= 11 -> toSemitones n = Ok (midi n)).
Proof.
  split; [apply toSemitones_unfolded|]. split.
  - intros Hpos. rewrite toSemitones_unfolded.
    pose proof (Z.rem_bound_pos (raw_index n) 12 Hpos ltac:(lia)).
    destruct (Z.ltb_spec (Z.rem (raw_index n) 12) 0); [lia|].
    f_equal. unfold midi. fold (raw_index n).
    rewrite Z.rem_mod_nonneg by lia.
    pose proof (Z.div_mod (raw_index n) 12 ltac:(lia)). lia.
  - apply toSemitones_in_octave.
Qed.

Lemma toSemitones_reduces_into_octave_witness :
  toSemitones (Note.new "B#" 4) = Ok (midi (Note.new "B#" 4) - 12 * (12 / 12))
  /\ toSemitones (Note.new "Eb" 4) = Ok (midi (Note.new "Eb" 4)).
Proof.
  split.
  - apply (proj1 (proj2 (toSemitones_reduces_into_octave (Note.new "B#" 4)))).
    vm_compute. discriminate.
  - apply (proj2 (proj2 (toSemitones_reduces_into_octave (Note.new "Eb" 4)))).
    vm_compute. split; discriminate.
Defined.

Lemma intToNote_nonneg (num : Z) :
  0 <= num ->
  exists n, intToNote num = Ok n
            /\ In (full_name n) NOTES
            /\ midi n = num /\ toSemitones n = Ok num.
Proof.
  intros Hnum.
  pose proof (Z.rem_bound_pos num 12 Hnum ltac:(lia)) as Hk.
  destruct (NOTES_entry (Z.rem num 12)) as (name & E1 & E2 & E3 & E4 & _); [lia|].
  exists (Note.new name (num / 12 - 1)).
  assert (Hraw : raw_index (Note.new name (num / 12 - 1)) = Z.rem num 12)
    by exact E4.
  assert (Hmidi : midi (Note.new name (num / 12 - 1)) = num).
  { unfold midi. fold (raw_index (Note.new name (num / 12 - 1))).
    rewrite Hraw. cbn [octave Note.new].
    rewrite Z.rem_mod_nonneg by lia.
    pose proof (Z.div_mod num 12 ltac:(lia)). lia. }
  split; [|split; [|split]].
  + unfold intToNote. now rewrite E1.
  + change (full_name (Note.new name (num / 12 - 1)))
      with (full_name (Note.new name 0)).
    rewrite E3. unfold index in E1.
    destruct (Z.rem num 12 <? 0); [discriminate|].
    apply list_elem_of_In. eapply list_elem_of_lookup_2. exact E1.
  + exact Hmidi.
  + rewrite toSemitones_in_octave.
    * now rewrite Hmidi.
    * rewrite Hraw. lia.
Qed.

(** [Note.intToNote(num)] for a number that is not negative is the note
    of [NOTES] with that MIDI number, and [toSemitones()] gives the
    number back; for a negative number that is no multiple of 12 it
    throws. *)
Theorem intToNote_has_that_midi (num : Z) :
  (0 <= num ->
   exists n, intToNote num = Ok n
             /\ In (full_name n) NOTES
             /\ midi n = num /\ toSemitones n = Ok num)
  /\ (num < 0 -> Z.rem num 12 <> 0 -> intToNote num = Err TypeError).
Proof.
  split.
  - apply intToNote_nonneg.
  - intros Hneg Hrem. unfold intToNote.
    pose proof (Z.rem_nonpos num 12 ltac:(lia) ltac:(lia)).
    rewrite table_undefined' by lia. reflexivity.
Qed.

Lemma intToNote_has_that_midi_witness :
  (exists n, intToNote 61 = Ok n
             /\ In (full_name n) NOTES
             /\ midi n = 61 /\ toSemitones n = Ok 61)
  /\ intToNote (-1) = Err TypeError.
Proof.
  split.
  - apply (proj1 (intToNote_has_that_midi 61)). lia.
  - apply (proj2 (intToNote_has_that_midi (-1))); [lia|]. vm_compute. discriminate.
Defined.

End Pitches.

(** ** Enharmonic spelling *)

Section Spelling.

Import Note.

(** [enharmonicEquiv] looks at the letter and the accidentals of the note
    only through the place they give it among the twelve names. *)
Lemma enharmonicEquiv_by_place (args : option options) (n n' : t) :
  Z.rem (raw_index n) 12 = Z.rem (raw_index n') 12 -> octave n = octave n' ->
  enharmonicEquiv args n = enharmonicEquiv args n'.
Proof.
  intros Hk Ho. unfold enharmonicEquiv.
  fold (raw_index n). fold (raw_index n'). now rewrite Hk, Ho.
Qed.

(** A note an octave higher is re-spelled the same, an octave higher. *)
Lemma enharmonicEquiv_raise (args : option options) (name : string) (o : Z) :
  enharmonicEquiv args (Note.new name o)
  = raise o <$> enharmonicEquiv args (Note.new name 0).
Proof.
  unfold enharmonicEquiv, accidentalCount.
  cbn [octave Note.new letter accidental].
  match goal with
  | |- (?e ≫= _) = _ => destruct e as [[s|]|err]
  end; cbn [mbind res_bind fmap res_fmap new_opt defined]; try reflexivity.
  unfold is_str.
  destruct (String.eqb s "B#"); [|destruct (String.eqb s "Cb")];
    unfold raise, Note.new, mret, res_ret, fmap, res_fmap;
    cbn [letter accidental octave]; do 2 f_equal; lia.
Qed.

Lemma midi_raise (o : Z) (m : t) : midi (raise o m) = midi m + 12 * o.
Proof. unfold midi, raise, accidentalCount. cbn [letter accidental octave]. lia. Qed.

Lemma place_in_range (n : t) :
  0 <= Z.rem (raw_index n) 12 -> 0 <= Z.rem (raw_index n) 12 <= 11.
Proof. intros H. pose proof (Z.rem_bound_abs (raw_index n) 12 ltac:(lia)). lia. Qed.

(** Every note whose place reduces to [k] behaves as the note of
    [NOTES] at [k], in the same octave. *)
Lemma enharmonicEquiv_canonical (args : option options) (n : t) :
  0 <= Z.rem (raw_index n) 12 ->
  exists name,
    index NOTES (Z.rem (raw_index n) 12) = Some name
    /\ enharmonicEquiv args n
       = raise (octave n) <$> enharmonicEquiv args (Note.new name 0).
Proof.
  intros Hk. destruct (NOTES_entry _ (place_in_range n Hk))
    as (name & E1 & _ & _ & E4 & _).
  exists name. split; [exact E1|].
  rewrite <- enharmonicEquiv_raise. apply enharmonicEquiv_by_place.
  - change (raw_index (Note.new name (octave n))) with (raw_index (Note.new name 0)).
    rewrite E4. pose proof (place_in_range n Hk). now rewrite (Z.rem_small (Z.rem _ _)) by lia.
  - reflexivity.
Qed.

Lemma respelling_grid :
  forallb (fun k =>
    match index NOTES k with
    | Some name =>
        forallb (fun l =>
          forallb (fun favor => forallb (fun force =>
            respelled_with_letter k l
              (enharmonicEquiv
                 (Some {| favor := favor; force := force; oletter := Some l |})
                 (Note.new name 0)))
            [true; false])
            [None; Some "natural"; Some "sharp"; Some "flat"])
          letters
    | None => false
    end) [0; 1; 2; 3; 4; 5; 6; 7; 8; 9; 10; 11] = true.
Proof. vm_compute. reflexivity. Qed.

(** The re-spelling with a letter, read on the grid: the result is the
    one for the note of [NOTES] at the reduced place in octave 0, raised
    to the octave of the note. *)
Lemma respelled_on_grid
    (n : t) (l : string) (fav : option string) (force : bool) :
  0 <= Z.rem (raw_index n) 12 -> In l letters ->
  In fav [None; Some "natural"; Some "sharp"; Some "flat"] ->
  exists m,
    enharmonicEquiv (Some {| favor := fav; force := force; oletter := Some l |}) n
    = Ok (raise (octave n) m)
    /\ respelled_with_letter (Z.rem (raw_index n) 12) l (Ok m) = true.
Proof.
  intros Hk Hl Hfav.
  destruct (enharmonicEquiv_canonical
              (Some {| favor := fav; force := force; oletter := Some l |}) n Hk)
    as (name & E1 & ->).
  pose proof respelling_grid as G. rewrite forallb_forall in G.
  specialize (G (Z.rem (raw_index n) 12)).
  rewrite E1 in G.
  assert (Hin : In (Z.rem (raw_index n) 12) [0; 1; 2; 3; 4; 5; 6; 7; 8; 9; 10; 11]).
  { pose proof (place_in_range n Hk). cbn [In]. lia. }
  specialize (G Hin). rewrite forallb_forall in G. specialize (G l Hl).
  rewrite forallb_forall in G. specialize (G fav Hfav).
  rewrite forallb_forall in G.
  specialize (G force ltac:(destruct force; cbn [In]; tauto)).
  destruct (enharmonicEquiv _ (Note.new name 0)) as [m|]; [|discriminate G].
  exists m. split; [reflexivity|exact G].
Qed.

Lemma respelled_with_letter_spec (k : Z) (l : string) (m : t) :
  respelled_with_letter k l (Ok m) = true ->
  letter m = l
  /\ Z.abs (accidentalCount m) <= 6
  /\ exists j, midi m = 12 + k + 12 * j /\ -1 <= j <= 1
               /\ (Z.abs (accidentalCount m) <= 1 -> j = 0).
Proof.
  unfold respelled_with_letter. intros G.
  repeat (apply andb_true_iff in G; destruct G as [G ?]).
  apply String.eqb_eq in G.
  match goal with H : existsb _ _ = true |- _ => cbn [existsb] in H;
    repeat (apply orb_true_iff in H; destruct H as [H|H]); try discriminate H;
    apply Z.eqb_eq in H end.
  all: match goal with H : (_ <=? 6) = true |- _ => apply Z.leb_le in H end.
  all: match goal with H : _ || _ = true |- _ =>
         apply orb_true_iff in H; destruct H as [H|H];
         [apply Z.ltb_lt in H|apply Z.eqb_eq in H] end.
  all: split; [exact G|]; split; [assumption|].
  all: first [exists (-1); repeat split; lia
             |exists 0; repeat split; lia
             |exists 1; repeat split; lia].
Qed.

(** [enharmonicEquiv({letter})], on a note that is not spelled below C
    and for one of the letters C, D, E, F, G, A, B, whatever [favor] and
    [force] say: the result is spelled with that letter and at most 6
    sharps or 6 flats; its MIDI number is that of the note reduced into
    its octave, up to an octave, and exactly that when the result has
    at most one accidental (B# and Cb are put in the octave that makes
    it so). *)
Theorem enharmonicEquiv_spells_with_letter
    (n : t) (l : string) (fav : option string) (force : bool) :
  0 <= Z.rem (raw_index n) 12 -> In l letters ->
  In fav [None; Some "natural"; Some "sharp"; Some "flat"] ->
  exists m j,
    enharmonicEquiv (Some {| favor := fav; force := force; oletter := Some l |}) n
    = Ok m
    /\ letter m = l
    /\ Z.abs (accidentalCount m) <= 6
    /\ midi m = 12 * (octave n + 1) + Z.rem (raw_index n) 12 + 12 * j
    /\ -1 <= j <= 1
    /\ (Z.abs (accidentalCount m) <= 1 -> j = 0).
Proof.
  intros Hk Hl Hfav.
  destruct (respelled_on_grid n l fav force Hk Hl Hfav) as (m & E & G).
  destruct (respelled_with_letter_spec _ _ _ G) as (Hm & Hacc & j & Hj & Hr & Hx).
  exists (raise (octave n) m), j. split; [exact E|].
  change (letter (raise (octave n) m)) with (letter m).
  change (accidentalCount (raise (octave n) m)) with (accidentalCount m).
  rewrite midi_raise.
  split; [exact Hm|]. split; [exact Hacc|]. split; [lia|].
  split; [exact Hr|exact Hx].
Qed.

Lemma enharmonicEquiv_spells_with_letter_witness :
  exists m j,
    enharmonicEquiv (Some {| favor := None; force := false; oletter := Some "D" |})
      (Note.new "C#" 4) = Ok m
    /\ letter m = "D"
    /\ Z.abs (accidentalCount m) <= 6
    /\ midi m = 12 * (4 + 1) + Z.rem (raw_index (Note.new "C#" 4)) 12 + 12 * j
    /\ -1 <= j <= 1
    /\ (Z.abs (accidentalCount m) <= 1 -> j = 0).
Proof.
  apply (enharmonicEquiv_spells_with_letter (Note.new "C#" 4) "D" None false).
  - vm_compute. discriminate.
  - cbv [letters In]. tauto.
  - cbn [In]. tauto.
Defined.

Lemma favor_grid :
  forallb (fun k =>
    match index NOTES k with
    | Some name =>
        forallb (fun favor => forallb (fun force =>
          (String.eqb favor "sharp" && force && (k =? 0))
          || respelled_by_favor k favor
               (enharmonicEquiv
                  (Some {| favor := Some favor; force := force; oletter := None |})
                  (Note.new name 0)))
          [true; false]) ["natural"; "sharp"; "flat"]
    | None => false
    end) [0; 1; 2; 3; 4; 5; 6; 7; 8; 9; 10; 11] = true.
Proof. vm_compute. reflexivity. Qed.

(** [enharmonicEquiv(options)] without a letter, on a note that is not
    spelled below C.  With [favor] "sharp" and [force] a note of the
    pitch class of C is named "undefined#": the name before C is looked
    up at index -1.  In every other case the result has one of the seven
    letters and the MIDI number of the note reduced into its octave (Cb,
    for a forced flat B, is put an octave up), with no sharp when flats
    are favored and no flat otherwise. *)
Theorem enharmonicEquiv_follows_favor (n : t) (fav : string) (force : bool) :
  0 <= Z.rem (raw_index n) 12 -> In fav ["natural"; "sharp"; "flat"] ->
  let args := Some {| favor := Some fav; force := force; oletter := None |} in
  (fav = "sharp" -> force = true -> Z.rem (raw_index n) 12 = 0 ->
   enharmonicEquiv args n = Ok (Note.new "undefined#" (octave n)))
  /\ (~ (fav = "sharp" /\ force = true /\ Z.rem (raw_index n) 12 = 0) ->
      exists m,
        enharmonicEquiv args n = Ok m
        /\ In (letter m) letters
        /\ midi m = 12 * (octave n + 1) + Z.rem (raw_index n) 12
        /\ (if String.eqb fav "flat" then contains "#" (accidental m) = false
            else contains "b" (accidental m) = false)).
Proof.
  intros Hk Hfav args. subst args.
  destruct (enharmonicEquiv_canonical
              (Some {| favor := Some fav; force := force; oletter := None |}) n Hk)
    as (name & E1 & ->).
  split.
  - intros -> -> Hz. rewrite Hz in E1. injection E1 as <-. 
    vm_compute enharmonicEquiv. cbn [fmap res_fmap]. unfold raise, Note.new.
    cbn [letter accidental octave first_char slice]. do 2 f_equal.
  - intros Hnot.
    pose proof favor_grid as G. rewrite forallb_forall in G.
    specialize (G (Z.rem (raw_index n) 12)). rewrite E1 in G.
    assert (Hin : In (Z.rem (raw_index n) 12) [0; 1; 2; 3; 4; 5; 6; 7; 8; 9; 10; 11]).
    { pose proof (place_in_range n Hk). cbn [In]. lia. }
    specialize (G Hin). rewrite forallb_forall in G. specialize (G fav Hfav).
    rewrite forallb_forall in G.
    specialize (G force ltac:(destruct force; cbn [In]; tauto)).
    apply orb_true_iff in G. destruct G as [G|G].
    { exfalso. apply Hnot.
      apply andb_true_iff in G as [G G3]. apply andb_true_iff in G as [G1 G2].
      apply String.eqb_eq in G1. apply Z.eqb_eq in G3. auto. }
    destruct (enharmonicEquiv _ (Note.new name 0)) as [m|]; [|discriminate G].
    unfold respelled_by_favor in G.
    apply andb_true_iff in G as [G G3]. apply andb_true_iff in G as [G1 G2].
    apply Z.eqb_eq in G2.
    exists (raise (octave n) m). cbn [fmap res_fmap].
    split; [reflexivity|]. split; [|split].
    + change (letter (raise (octave n) m)) with (letter m).
      unfold includes in G1. apply existsb_exists in G1 as (x & Hx & Ex).
      apply String.eqb_eq in Ex. now subst.
    + rewrite midi_raise. lia.
    + change (accidental (raise (octave n) m)) with (accidental m).
      destruct (String.eqb fav "flat"); now apply negb_true_iff in G3.
Qed.

Lemma enharmonicEquiv_follows_favor_witness :
  (("sharp" : string) = "sharp" -> true = true ->
   Z.rem (raw_index (Note.new "B#" 3)) 12 = 0 ->
   enharmonicEquiv
     (Some {| favor := Some "sharp"; force := true; oletter := None |})
     (Note.new "B#" 3)
   = Ok (Note.new "undefined#" 3))
  /\ (~ (("flat" : string) = "sharp" /\ false = true
         /\ Z.rem (raw_index (Note.new "C#" 4)) 12 = 0) ->
      exists m,
        enharmonicEquiv
          (Some {| favor := Some "flat"; force := false; oletter := None |})
          (Note.new "C#" 4) = Ok m
        /\ In (letter m) letters
        /\ midi m = 12 * (4 + 1) + Z.rem (raw_index (Note.new "C#" 4)) 12
        /\ contains "#" (accidental m) = false).
Proof.
  split.
  - apply (proj1 (enharmonicEquiv_follows_favor (Note.new "B#" 3) "sharp" true
                    ltac:(vm_compute; discriminate) ltac:(cbn [In]; tauto))).
  - apply (proj2 (enharmonicEquiv_follows_favor (Note.new "C#" 4) "flat" false
                    ltac:(vm_compute; discriminate) ltac:(cbn [In]; tauto))).
Defined.

(** [enharmonicEquiv()] without options, on a note that is not spelled
    below C, is the note of [NOTES] at the reduced place, in the octave
    of the note; spelling that again changes nothing. *)
Theorem enharmonicEquiv_is_canonical (n : t) :
  0 <= Z.rem (raw_index n) 12 ->
  exists m,
    enharmonicEquiv None n = Ok m
    /\ index NOTES (Z.rem (raw_index n) 12) = Some (full_name m)
    /\ octave m = octave n
    /\ midi m = 12 * (octave n + 1) + Z.rem (raw_index n) 12
    /\ enharmonicEquiv None m = Ok m.
Proof.
  intros Hk.
  destruct (NOTES_entry _ (place_in_range n Hk))
    as (name & E1 & E2 & E3 & E4 & Hb & Hc).
  assert (Hcanon : forall n', Z.rem (raw_index n') 12 = Z.rem (raw_index n) 12 ->
                     enharmonicEquiv None n' = Ok (Note.new name (octave n'))).
  { intros n' Hn'. unfold enharmonicEquiv. fold (raw_index n'). rewrite Hn', E1.
    change (is_str (Some "natural") "flat") with false.
    cbn [mbind res_bind mret res_ret]. unfold is_str.
    destruct (String.eqb_spec name "B#"); [contradiction|].
    destruct (String.eqb_spec name "Cb"); [contradiction|]. reflexivity. }
  exists (Note.new name (octave n)). split; [now apply Hcanon|].
  assert (Hraw : raw_index (Note.new name (octave n)) = Z.rem (raw_index n) 12)
    by exact E4.
  split; [|split; [reflexivity|split]].
  - change (full_name (Note.new name (octave n))) with (full_name (Note.new name 0)).
    now rewrite E3.
  - unfold midi. fold (raw_index (Note.new name (octave n))). rewrite Hraw.
    reflexivity.
  - rewrite Hcanon; [reflexivity|]. rewrite Hraw.
    pose proof (place_in_range n Hk). now rewrite Z.rem_small by lia.
Qed.

Lemma enharmonicEquiv_is_canonical_witness :
  exists m,
    enharmonicEquiv None (Note.new "Fb" 4) = Ok m
    /\ index NOTES (Z.rem (raw_index (Note.new "Fb" 4)) 12) = Some (full_name m)
    /\ octave m = 4
    /\ midi m = 12 * (4 + 1) + Z.rem (raw_index (Note.new "Fb" 4)) 12
    /\ enharmonicEquiv None m = Ok m.
Proof.
  apply (enharmonicEquiv_is_canonical (Note.new "Fb" 4)).
  vm_compute. discriminate.
Defined.

End Spelling.
(** ** Notes and intervals *)

Section NoteArithmetic.

Import Note.

Lemma letters_entry (k : Z) :
  0 <= k <= 6 ->
  exists l, index letters k = Some l /\ In l letters /\ letter_index l = k.
Proof.
  intros Hk. assert (H : In k [0; 1; 2; 3; 4; 5; 6]) by (cbn [In]; lia).
  cbv [In] in H.
  repeat destruct H as [H|H]; try contradiction; subst; eexists;
    (split; [reflexivity|]); (split; [|reflexivity]); cbv [letters In]; tauto.
Qed.

(** The place of a letter among the twelve names is the table entry of
    its degree. *)
Lemma letter_place (l : string) :
  In l letters ->
  0 <= letter_index l <= 6
  /\ index Interval.table (letter_index l) = Some (indexOf NOTES l).
Proof.
  intros H. cbv [letters In] in H.
  repeat destruct H as [H|H]; try contradiction; subst;
    (split; [vm_compute; split; discriminate|reflexivity]).
Qed.

(** The table is additive up to one semitone. *)
Lemma table_gap (i j ti tj tij : Z) :
  0 <= j <= 6 -> 0 <= i <= 6 ->
  index Interval.table i = Some ti -> index Interval.table j = Some tj ->
  index Interval.table (Z.rem (i - j) 7) = Some tij ->
  -1 <= ti - tj - tij <= 1.
Proof.
  intros Hj Hi.
  assert (Hi' : In i [0; 1; 2; 3; 4; 5; 6]) by (cbn [In]; lia).
  assert (Hj' : In j [0; 1; 2; 3; 4; 5; 6]) by (cbn [In]; lia).
  cbv [In] in Hi', Hj'.
  repeat destruct Hi' as [Hi'|Hi']; try contradiction;
    repeat destruct Hj' as [Hj'|Hj']; try contradiction; subst;
    vm_compute; intros [= <-] [= <-] E; try discriminate E;
    injection E as <-; split; discriminate.
Qed.

Lemma table_gap_wrapped (i j ti tj tij : Z) :
  0 <= i < j -> j <= 6 ->
  index Interval.table i = Some ti -> index Interval.table j = Some tj ->
  index Interval.table (i - j + 7) = Some tij ->
  -1 <= ti + 12 - tj - tij <= 1.
Proof.
  intros Hi Hj.
  assert (Hi' : In i [0; 1; 2; 3; 4; 5; 6]) by (cbn [In]; lia).
  assert (Hj' : In j [0; 1; 2; 3; 4; 5; 6]) by (cbn [In]; lia).
  cbv [In] in Hi', Hj'.
  repeat destruct Hi' as [Hi'|Hi']; try contradiction;
    repeat destruct Hj' as [Hj'|Hj']; try contradiction; subst; try lia;
    vm_compute; intros [= <-] [= <-] E; try discriminate E;
    injection E as <-; split; discriminate.
Qed.

Lemma table_defined_at (k : Z) :
  0 <= k <= 6 -> exists base, index Interval.table k = Some base.
Proof. intros Hk. destruct (table_defined k Hk) as (base & E & _). eauto. Qed.

Lemma rem_7_shift (k m : Z) :
  0 <= k <= 6 -> 0 <= m -> Z.rem (k + m * 7) 7 = k /\ (k + m * 7) / 7 = m.
Proof.
  intros Hk Hm. rewrite Z.rem_mod_nonneg by lia.
  rewrite Z.mod_add by lia. rewrite Z.mod_small by lia.
  rewrite Z.div_add by lia. rewrite Z.div_small by lia. lia.
Qed.

Lemma new_keeps_quality (number q : Z) :
  -12 < q < 12 -> Interval.new number q = Interval.mk number q.
Proof.
  intros Hq. unfold Interval.new.
  destruct (Z.leb_spec q (-12)); [lia|].
  destruct (Z.geb_spec q 12); [lia|]. reflexivity.
Qed.

(** [add] on a note that has a semitone count and an interval that has
    semitones: the note of the sum, re-spelled with the letter of the
    degree. *)
Lemma add_respells (n : t) (i : Interval.t) (s si : Z) :
  In (letter n) letters -> 1 <= Interval.number i ->
  toSemitones n = Ok s -> Interval.toSemitones i = Num si -> 0 <= s + si ->
  exists note l,
    add n i
    = enharmonicEquiv (Some {| favor := None; force := false; oletter := Some l |})
        note
    /\ index letters (Z.rem (letter_index (letter n) + Interval.number i - 1) 7)
       = Some l
    /\ In l letters
    /\ 0 <= Z.rem (raw_index note) 12
    /\ 12 * (octave note + 1) + Z.rem (raw_index note) 12 = s + si.
Proof.
  intros Hl Hn Hs Hsi Hsum.
  destruct (intToNote_nonneg (s + si) Hsum) as (note & E & _ & Hm & Ht).
  destruct (letter_place _ Hl) as [Hself _].
  destruct (letters_entry (Z.rem (letter_index (letter n) + Interval.number i - 1) 7))
    as (l & El & Hin & _).
  { pose proof (Z.rem_bound_pos (letter_index (letter n) + Interval.number i - 1) 7
                  ltac:(lia) ltac:(lia)). lia. }
  rewrite toSemitones_unfolded in Ht.
  destruct (Z.ltb_spec (Z.rem (raw_index note) 12) 0) as [|Hk]; [discriminate Ht|].
  injection Ht as Ht.
  exists note, l. unfold add. rewrite Hs. cbn [mbind res_bind]. rewrite Hsi, E.
  cbn [mbind res_bind]. rewrite El.
  repeat split; try assumption; lia.
Qed.

(** The note [add] returns is the degree of the interval above the
    note. *)
Lemma add_degree_above (n : t) (i : Interval.t) (s : Z) :
  In (letter n) letters -> toSemitones n = Ok s -> reachable_from s i ->
  exists m, add n i = Ok m /\ degree_above n s i m
            /\ Z.abs (accidentalCount m) <= 6.
Proof.
  intros Hl Hs [Hn Hr].
  destruct (Interval.toSemitones i) as [| |si] eqn:Ei; try contradiction.
  destruct (add_respells n i s si Hl Hn Hs Ei Hr)
    as (note & l & Eadd & El & Hin & Hk & Hmidi).
  destruct (respelled_on_grid note l None false Hk Hin ltac:(cbn [In]; tauto))
    as (m & E & G).
  destruct (respelled_with_letter_spec _ _ _ G) as (Hm & Hacc & j & Hj & Hrange & Hx).
  exists (raise (octave note) m). rewrite Eadd, E. split; [reflexivity|].
  split; [|exact Hacc]. split.
  - change (letter (raise (octave note) m)) with (letter m). now rewrite Hm.
  - exists si, j. rewrite midi_raise. split; [exact Ei|]. split; [lia|].
    split; [exact Hrange|exact Hx].
Qed.

(** [add(interval)], on a note of one of the seven letters.  When the
    note has no semitone count (it is spelled below C) the call throws,
    and so it does when the interval has no semitones.  When the note
    has one, for an interval of positive number that does not lead
    below MIDI number 0, the result is spelled with the letter that
    many degrees up (the letters taken round), with at most 6 sharps or
    6 flats; its MIDI number is the semitone count of the note plus the
    semitones of the interval, up to an octave, and exactly that when
    the result has at most one accidental. *)
Theorem add_spells_the_degree (n : t) (i : Interval.t) :
  (forall e, toSemitones n = Err e -> add n i = Err e)
  /\ (forall s, toSemitones n = Ok s -> Interval.toSemitones i = NaN ->
        add n i = Err TypeError)
  /\ (forall s si,
        In (letter n) letters -> 1 <= Interval.number i ->
        toSemitones n = Ok s -> Interval.toSemitones i = Num si -> 0 <= s + si ->
        exists m j,
          add n i = Ok m
          /\ index letters
               (Z.rem (letter_index (letter n) + Interval.number i - 1) 7)
             = Some (letter m)
          /\ Z.abs (accidentalCount m) <= 6
          /\ midi m = s + si + 12 * j
          /\ -1 <= j <= 1
          /\ (Z.abs (accidentalCount m) <= 1 -> j = 0)).
Proof.
  split; [|split].
  - intros e He. unfold add. now rewrite He.
  - intros s Hs Hi. unfold add. rewrite Hs. cbn [mbind res_bind].
    now rewrite Hi.
  - intros s si Hl Hn Hs Hsi Hsum.
    destruct (add_degree_above n i s Hl Hs) as (m & Em & [Hm1 Hm2] & Hacc).
    { split; [exact Hn|]. now rewrite Hsi. }
    destruct Hm2 as (si' & j & Esi & Hmidi & Hj & Hx).
    rewrite Hsi in Esi. injection Esi as <-.
    exists m, j. repeat split; try assumption; lia.
Qed.

Lemma add_spells_the_degree_witness :
  add (Note.new "Cb" 4) (Interval.new 3 0) = Err TypeError
  /\ add (Note.new "C" 4) (Interval.new 0 0) = Err TypeError
  /\ exists m j,
       add (Note.new "A" 4) (Interval.new 3 (-1)) = Ok m
       /\ index letters
            (Z.rem (letter_index (letter (Note.new "A" 4))
                    + Interval.number (Interval.new 3 (-1)) - 1) 7)
          = Some (letter m)
       /\ Z.abs (accidentalCount m) <= 6
       /\ midi m = 69 + 3 + 12 * j
       /\ -1 <= j <= 1
       /\ (Z.abs (accidentalCount m) <= 1 -> j = 0).
Proof.
  split; [|split].
  - apply (proj1 (add_spells_the_degree (Note.new "Cb" 4) (Interval.new 3 0))).
    reflexivity.
  - apply (proj1 (proj2 (add_spells_the_degree (Note.new "C" 4) (Interval.new 0 0)))
             60); reflexivity.
  - apply (proj2 (proj2 (add_spells_the_degree (Note.new "A" 4) (Interval.new 3 (-1))))
             69 3).
    + cbv [letters In Note.new letter first_char]. tauto.
    + vm_compute. discriminate.
    + reflexivity.
    + reflexivity.
    + lia.
Defined.

(** [subtract(other)] where the letter of the note is not before that of
    [other] in C..B and its octave is not lower, both notes spelled
    within C..B of their octave and their accidentals no more than 10
    apart: the number of the interval counts the letters from [other] up
    to the note, seven for each octave, and its semitones are the
    difference of the MIDI numbers. *)
Theorem subtract_measures_upward (n other : t) :
  In (letter n) letters -> In (letter other) letters ->
  letter_index (letter other) <= letter_index (letter n) ->
  octave other <= octave n ->
  0 <= raw_index n <= 11 -> 0 <= raw_index other <= 11 ->
  Z.abs (accidentalCount n - accidentalCount other) <= 10 ->
  exists d,
    subtract n other = Ok d
    /\ diff_number d
       = letter_index (letter n) - letter_index (letter other) + 1
         + 7 * (octave n - octave other)
    /\ diff_toSemitones d = Num (midi n - midi other).
Proof.
  intros Hl Hlo Hle Ho Hr Hro Hacc.
  destruct (letter_place _ Hl) as [Hself Tn].
  destruct (letter_place _ Hlo) as [Hother To].
  set (self := letter_index (letter n)) in *.
  set (oth := letter_index (letter other)) in *.
  destruct (table_defined_at (Z.rem (self - oth) 7)) as (tij & Tij).
  { rewrite Z.rem_small; lia. }
  pose proof (table_gap self oth _ _ tij Hother Hself Tn To Tij) as Hgap.
  rewrite Z.rem_small in Tij by lia.
  destruct (rem_7_shift (self - oth) (octave n - octave other) ltac:(lia) ltac:(lia))
    as [R1 R2].
  unfold subtract. fold self oth.
  rewrite (toSemitones_in_octave n Hr), (toSemitones_in_octave other Hro).
  cbn [mbind res_bind mret res_ret].
  destruct (Z.ltb_spec self oth); [lia|].
  rewrite (Z.rem_small (self - oth)) by lia.
  replace (self - oth + 1 + (octave n - octave other) * 7 - 1)
    with (self - oth + (octave n - octave other) * 7) by lia.
  rewrite R1, Tij. unfold new_diff.
  set (q := midi n - midi other - (tij + (octave n - octave other) * 12)).
  assert (Hq : -12 < q < 12).
  { unfold q, midi. fold (raw_index n) (raw_index other).
    unfold raw_index in *. lia. }
  rewrite (new_keeps_quality _ q Hq). cbn [Interval.quality].
  eexists. split; [reflexivity|]. cbn [diff_number]. split; [lia|].
  unfold diff_toSemitones. cbn [diff_quality diff_number].
  unfold Interval.toSemitones. cbn [Interval.number Interval.quality].
  replace (self - oth + 1 + (octave n - octave other) * 7 - 1)
    with (self - oth + (octave n - octave other) * 7) by lia.
  rewrite R1, R2, Tij. f_equal. unfold q. lia.
Qed.

Lemma subtract_measures_upward_witness :
  exists d,
    subtract (Note.new "F#" 5) (Note.new "Eb" 4) = Ok d
    /\ diff_number d
       = letter_index (letter (Note.new "F#" 5))
         - letter_index (letter (Note.new "Eb" 4)) + 1 + 7 * (5 - 4)
    /\ diff_toSemitones d
       = Num (midi (Note.new "F#" 5) - midi (Note.new "Eb" 4)).
Proof.
  apply (subtract_measures_upward (Note.new "F#" 5) (Note.new "Eb" 4)).
  - cbv [letters In Note.new letter first_char]. tauto.
  - cbv [letters In Note.new letter first_char]. tauto.
  - vm_compute. discriminate.
  - vm_compute. discriminate.
  - vm_compute. split; discriminate.
  - vm_compute. split; discriminate.
  - vm_compute. discriminate.
Defined.

(** [subtract(other)] where the letter of the note comes before that of
    [other] in C..B, both notes having a semitone count.  The letter
    distance is taken with the truncating remainder and stays negative.
    Up to one octave number above [other] the table lookup is out of
    range and the quality is [NaN] (so C5 minus B4 is no interval at
    all); from two octave numbers above, with both notes spelled within
    C..B of their octave and their accidentals no more than 10 apart,
    the interval is an octave short of the distance between the
    notes. *)
Theorem subtract_across_B_falls_short (n other : t) (a b : Z) :
  In (letter n) letters -> In (letter other) letters ->
  letter_index (letter n) < letter_index (letter other) ->
  toSemitones n = Ok a -> toSemitones other = Ok b ->
  let number := letter_index (letter n) - letter_index (letter other) + 1
                + 7 * (octave n - octave other - 1) in
  (octave n <= octave other + 1 -> subtract n other = Ok (mk_diff number NaN))
  /\ (octave other + 2 <= octave n ->
      0 <= raw_index n <= 11 -> 0 <= raw_index other <= 11 ->
      Z.abs (accidentalCount n - accidentalCount other) <= 10 ->
      exists d,
        subtract n other = Ok d /\ diff_number d = number
        /\ diff_toSemitones d = Num (midi n - midi other - 12)).
Proof.
  intros Hl Hlo Hlt Ha Hb number.
  destruct (letter_place _ Hl) as [Hself Tn].
  destruct (letter_place _ Hlo) as [Hother To].
  subst number.
  set (self := letter_index (letter n)) in *.
  set (oth := letter_index (letter other)) in *.
  assert (Hrem : Z.rem (self - oth) 7 = self - oth).
  { rewrite <- (Z.opp_involutive (self - oth)), Z.rem_opp_l by lia.
    rewrite Z.rem_small; lia. }
  split.
  - intros Ho. unfold subtract. fold self oth. rewrite Ha, Hb.
    cbn [mbind res_bind mret res_ret].
    destruct (Z.ltb_spec self oth); [|lia]. rewrite Hrem.
    set (x := self - oth + 1 + (octave n - octave other - 1) * 7 - 1).
    assert (Hx : Z.rem x 7 < 0).
    { assert (E : x = - (oth - self + (octave other + 1 - octave n) * 7))
        by (unfold x; lia).
      rewrite E, Z.rem_opp_l by lia.
      destruct (rem_7_shift (oth - self) (octave other + 1 - octave n)
                  ltac:(lia) ltac:(lia)) as [-> _]. lia. }
    rewrite (table_undefined _ Hx). unfold new_diff.
    do 2 f_equal. lia.
  - intros Ho Hr Hro Hacc.
    destruct (table_defined_at (self - oth + 7)) as (tij & Tij); [lia|].
    pose proof (table_gap_wrapped self oth _ _ tij ltac:(lia) ltac:(lia) Tn To Tij)
      as Hgap.
    destruct (rem_7_shift (self - oth + 7) (octave n - octave other - 2)
                ltac:(lia) ltac:(lia)) as [R1 R2].
    unfold subtract. fold self oth.
    rewrite (toSemitones_in_octave n Hr), (toSemitones_in_octave other Hro).
    cbn [mbind res_bind mret res_ret].
    destruct (Z.ltb_spec self oth); [|lia]. rewrite Hrem.
    replace (self - oth + 1 + (octave n - octave other - 1) * 7 - 1)
      with (self - oth + 7 + (octave n - octave other - 2) * 7) by lia.
    rewrite R1, Tij. unfold new_diff.
    set (q := midi n - midi other - (tij + (octave n - octave other - 1) * 12)).
    assert (Hq : -12 < q < 12).
    { unfold q, midi. fold (raw_index n) (raw_index other).
      unfold raw_index in *. lia. }
    rewrite (new_keeps_quality _ q Hq). cbn [Interval.quality].
    eexists. split; [reflexivity|]. cbn [diff_number]. split; [lia|].
    unfold diff_toSemitones. cbn [diff_quality diff_number].
    unfold Interval.toSemitones. cbn [Interval.number Interval.quality].
    replace (self - oth + 1 + (octave n - octave other - 1) * 7 - 1)
      with (self - oth + 7 + (octave n - octave other - 2) * 7) by lia.
    rewrite R1, R2, Tij. f_equal. unfold q. lia.
Qed.

Lemma subtract_across_B_falls_short_witness :
  subtract (Note.new "C" 5) (Note.new "B" 4) = Ok (mk_diff (-5) NaN)
  /\ exists d,
       subtract (Note.new "C" 6) (Note.new "D" 4) = Ok d
       /\ diff_number d = 7
       /\ diff_toSemitones d
          = Num (midi (Note.new "C" 6) - midi (Note.new "D" 4) - 12).
Proof.
  split.
  - apply (proj1 (subtract_across_B_falls_short (Note.new "C" 5) (Note.new "B" 4)
                    72 71
                    ltac:(cbv [letters In Note.new letter first_char]; tauto)
                    ltac:(cbv [letters In Note.new letter first_char]; tauto)
                    ltac:(vm_compute; reflexivity) eq_refl eq_refl)).
    vm_compute. discriminate.
  - apply (proj2 (subtract_across_B_falls_short (Note.new "C" 6) (Note.new "D" 4)
                    84 62
                    ltac:(cbv [letters In Note.new letter first_char]; tauto)
                    ltac:(cbv [letters In Note.new letter first_char]; tauto)
                    ltac:(vm_compute; reflexivity) eq_refl eq_refl)).
    + vm_compute. discriminate.
    + vm_compute. split; discriminate.
    + vm_compute. split; discriminate.
    + vm_compute. discriminate.
Defined.

End NoteArithmetic.
(** ** Notes as text *)

Section NoteText.

Import Note.

Lemma digit_not_accidental (c : ascii) :
  is_digit c = true -> Chord.is_sharp_or_flat c = false.
Proof.
  unfold is_digit, Chord.is_sharp_or_flat. intros H.
  apply andb_true_iff in H as [H1 H2]. apply Nat.leb_le in H1, H2.
  apply orb_false_iff; split; apply Ascii.eqb_neq; intros ->;
    vm_compute in H1, H2; lia.
Qed.

Lemma accidental_not_digit (c : ascii) :
  Chord.is_sharp_or_flat c = true -> is_digit c = false.
Proof.
  intros H. destruct (is_digit c) eqn:E; [|reflexivity].
  apply digit_not_accidental in E. congruence.
Qed.

(** [span] on a run followed by nothing or by a character that fails. *)
Lemma span_run (p : ascii -> bool) (a r : string) :
  all_chars p a = true -> fst (span p r) = EmptyString ->
  span p (a +:+ r) = (a, r).
Proof.
  intros Ha Hr. destruct r as [|c r].
  - rewrite str_app_nil_r. now apply span_all.
  - apply span_app; [exact Ha|]. cbn [span] in Hr.
    destruct (p c); [|reflexivity].
    destruct (span p r). discriminate Hr.
Qed.

Lemma span_none (p : ascii -> bool) (c : ascii) (r : string) :
  p c = false -> fst (span p (String c r)) = EmptyString.
Proof. intros H. cbn [span]. now rewrite H. Qed.

Lemma search_without_letters (s : string) :
  all_chars (fun c => negb (is_note_letter c)) s = true -> search s = None.
Proof.
  induction s as [|c r IH]; [reflexivity|].
  rewrite all_chars_cons. intros H. apply andb_true_iff in H as [Hc Hr].
  apply negb_true_iff in Hc.
  rewrite search_unfold. unfold match_here. cbn [span]. rewrite Hc.
  destruct (span is_digit (String c r)). now apply IH.
Qed.

(** Letters followed by something that is no digit and holds no letter:
    the pattern matches nowhere. *)
Lemma search_letters_unfollowed (ls rest : string) :
  all_chars is_note_letter ls = true ->
  all_chars (fun c => negb (is_note_letter c)) rest = true ->
  fst (span is_digit rest) = EmptyString ->
  search (ls +:+ rest) = None.
Proof.
  intros Hls Hrest Hd. induction ls as [|c ls IH].
  - rewrite str_app_nil_l. now apply search_without_letters.
  - pose proof Hls as Hls'. rewrite all_chars_cons in Hls'.
    apply andb_true_iff in Hls' as [Hc Hl].
    assert (Hnl : fst (span is_note_letter rest) = EmptyString).
    { destruct rest as [|x rest]; [reflexivity|].
      rewrite all_chars_cons in Hrest. apply andb_true_iff in Hrest as [Hx _].
      apply negb_true_iff in Hx. now apply span_none. }
    rewrite search_unfold. unfold match_here.
    rewrite (span_run is_note_letter (String c ls) rest Hls Hnl).
    destruct (span is_digit rest) as [ds tl]. cbn [fst] in Hd. subst ds.
    rewrite str_app_cons. now apply IH.
Qed.

Lemma all_chars_app (p : ascii -> bool) (a b : string) :
  all_chars p (a +:+ b) = all_chars p a && all_chars p b.
Proof.
  induction a as [|c a IH]; [reflexivity|].
  rewrite str_app_cons, !all_chars_cons, IH. now rewrite andb_assoc.
Qed.

Lemma all_chars_impl (p q : ascii -> bool) (s : string) :
  (forall c, p c = true -> q c = true) ->
  all_chars p s = true -> all_chars q s = true.
Proof.
  intros Hpq. induction s as [|c s IH]; [reflexivity|].
  rewrite !all_chars_cons. intros H. apply andb_true_iff in H as [Hc Hs].
  now rewrite (Hpq c Hc), (IH Hs).
Qed.

(** The decimal form of a number holds none of the letters A-G, a-g. *)
Lemma Z_to_string_no_letter (z : Z) :
  all_chars (fun c => negb (is_note_letter c)) (Z_to_string z) = true.
Proof.
  assert (Hnn : forall y, 0 <= y ->
            all_chars (fun c => negb (is_note_letter c)) (Z_to_string y) = true).
  { intros y Hy. destruct (Z_to_string_nonneg y Hy) as (_ & Hd & _).
    revert Hd. apply all_chars_impl. intros c Hc.
    now rewrite (digit_not_letter c Hc). }
  destruct z as [|p|p]; [reflexivity|apply Hnn; lia|].
  rewrite Z_to_string_neg, all_chars_cons. rewrite Hnn by lia. reflexivity.
Qed.

Lemma letter_is_one_char (l : string) :
  In l letters ->
  exists c, l = String c EmptyString
            /\ is_note_letter c = true /\ App.is_pitch_letter c = true.
Proof.
  intros H. cbv [letters In] in H.
  repeat destruct H as [H|H]; try contradiction; subst; eexists;
    (split; [reflexivity|split; reflexivity]).
Qed.

(** [Note.strToNote(n.toString())] for a note spelled with one of the
    seven letters whose octave is a safe integer.  A natural or
    flattened note of an octave that is not negative comes back as it
    was; a sharpened note does not come back at all, nor does a natural
    or flattened note of a negative octave: the pattern knows no sharp
    and no minus sign.  (An octave from 1e21 on is written with an
    exponent, of which the pattern reads the first digits only.) *)
Theorem strToNote_after_toString (n : t) :
  In (letter n) letters -> safe_integer (octave n) ->
  (all_chars (Ascii.eqb "b") (accidental n) = true -> 0 <= octave n ->
   strToNote (toString n) = Some n)
  /\ (accidental n <> "" -> all_chars (Ascii.eqb "#") (accidental n) = true ->
      strToNote (toString n) = None)
  /\ (all_chars (Ascii.eqb "b") (accidental n) = true -> octave n < 0 ->
      strToNote (toString n) = None).
Proof.
  intros Hl _. destruct (letter_is_one_char _ Hl) as (c & Ec & Hc & _).
  destruct n as [l acc o]. cbn [letter accidental octave] in *. subst l.
  unfold toString, strToNote. cbn [letter accidental octave].
  change (String.eqb (String c EmptyString) "") with false. cbv iota.
  assert (Hflat : all_chars (Ascii.eqb "b") acc = true ->
                  all_chars is_note_letter (String c acc) = true).
  { intros Hb. rewrite all_chars_cons, Hc. cbn [andb]. revert Hb.
    apply all_chars_impl. intros x Hx. apply Ascii.eqb_eq in Hx. now subst. }
  split; [|split].
  - intros Hb Ho. destruct (Z_to_string_nonneg o Ho) as (Hne & Hd & Hv).
    rewrite search_unfold.
    destruct (match_here_prefix (String c acc) (Z_to_string o) EmptyString)
      as (ds' & E & _ & Hnil).
    { repeat split; [discriminate|exact Hne|now apply Hflat|exact Hd]. }
    rewrite (Hnil eq_refl), !str_app_nil_r in E.
    rewrite str_app_cons, str_app_nil_l. rewrite <- str_app_cons, E, Hv.
    reflexivity.
  - intros Hne Hs.
    destruct acc as [|x acc]; [congruence|].
    pose proof Hs as Hs'. rewrite all_chars_cons in Hs'.
    apply andb_true_iff in Hs' as [Hx _]. apply Ascii.eqb_eq in Hx. subst x.
    rewrite (search_letters_unfollowed (String c EmptyString)
               (String "#" acc +:+ Z_to_string o)); [reflexivity| | |].
    + now rewrite all_chars_cons, Hc.
    + rewrite all_chars_app, Z_to_string_no_letter, andb_true_r.
      revert Hs. apply all_chars_impl. intros y Hy.
      apply Ascii.eqb_eq in Hy. now subst.
    + rewrite str_app_cons. now apply span_none.
  - intros Hb Ho. destruct o as [|p|p]; try lia.
    rewrite Z_to_string_neg.
    rewrite str_app_cons, str_app_nil_l, <- str_app_cons.
    rewrite (search_letters_unfollowed (String c acc)
               (String "-" (Z_to_string (Z.pos p)))); [reflexivity| | |].
    + now apply Hflat.
    + rewrite <- Z_to_string_neg. apply Z_to_string_no_letter.
    + now apply span_none.
Qed.

Lemma strToNote_after_toString_witness :
  strToNote (toString (Note.new "Bbb" 12)) = Some (Note.new "Bbb" 12)
  /\ strToNote (toString (Note.new "C#" 4)) = None
  /\ strToNote (toString (Note.new "Bb" (-1))) = None.
Proof.
  split; [|split].
  - apply (proj1 (strToNote_after_toString (Note.new "Bbb" 12)
                    ltac:(cbv [letters In Note.new letter first_char]; tauto)
                    ltac:(vm_compute; split; discriminate)));
      [reflexivity|vm_compute; discriminate].
  - apply (proj1 (proj2 (strToNote_after_toString (Note.new "C#" 4)
                    ltac:(cbv [letters In Note.new letter first_char]; tauto)
                    ltac:(vm_compute; split; discriminate))));
      [discriminate|reflexivity].
  - apply (proj2 (proj2 (strToNote_after_toString (Note.new "Bb" (-1))
                    ltac:(cbv [letters In Note.new letter first_char]; tauto)
                    ltac:(vm_compute; split; discriminate))));
      [reflexivity|reflexivity].
Defined.

Import App.

Lemma omap_step {A B} (f : A -> option B) (x : A) (l : list A) :
  omap f (x :: l)
  = match f x with Some y => y :: omap f l | None => omap f l end.
Proof. reflexivity. Qed.

Lemma omap_no_longer {A B} (f : A -> option B) (l : list A) :
  (length (omap f l) <= length l)%nat.
Proof.
  induction l as [|x l IH]; [reflexivity|]. rewrite omap_step.
  destruct (f x); cbn [length]; lia.
Qed.

Lemma match_note_accepts (c : ascii) (acc ds : string) :
  staff_form c acc ds ->
  match_note (String c (acc +:+ ds)) = Some (c, acc, ds).
Proof.
  intros (Hc & Ha & Hd & Hne). unfold match_note. rewrite Hc.
  destruct ds as [|d ds]; [congruence|].
  pose proof Hd as Hd'. rewrite all_chars_cons in Hd'.
  apply andb_true_iff in Hd' as [Hd0 _].
  rewrite (span_app Chord.is_sharp_or_flat acc d ds Ha (digit_not_accidental d Hd0)).
  rewrite (span_all is_digit (String d ds) Hd). reflexivity.
Qed.

Lemma match_note_sound (note : string) (c : ascii) (acc ds : string) :
  match_note note = Some (c, acc, ds) ->
  staff_form c acc ds /\ note = String c (acc +:+ ds).
Proof.
  unfold match_note. destruct note as [|x r]; [discriminate|].
  destruct (is_pitch_letter x) eqn:Hx; [|discriminate].
  destruct (span_split Chord.is_sharp_or_flat r) as [S1 S2].
  destruct (span Chord.is_sharp_or_flat r) as [a rest]. cbn [fst snd] in S1, S2.
  destruct (span_split is_digit rest) as [D1 D2].
  destruct (span is_digit rest) as [o tl]. cbn [fst snd] in D1, D2.
  destruct o as [|o0 o]; [discriminate|]. destruct tl; [|discriminate].
  intros [= <- <- <-]. rewrite str_app_nil_r in D1. subst rest.
  split; [|now rewrite S1 at 1].
  repeat split; auto; discriminate.
Qed.

Lemma convert_accepted (c : ascii) (acc ds : string) (notes : list string) :
  staff_form c acc ds ->
  convertNotesToVexFlow (String c (acc +:+ ds) :: notes)
  = staff_key c acc ds :: convertNotesToVexFlow notes.
Proof.
  intros Hf. unfold convertNotesToVexFlow. rewrite omap_step.
  now rewrite (match_note_accepts c acc ds Hf).
Qed.

(** [convertNotesToVexFlow(notes)] keeps the texts made of one capital
    letter A-G, a run of sharps and flats and a non-empty run of digits,
    and nothing else, and drops the others; each text kept becomes the
    letter in lower case, the accidentals, a slash and the digits.  So
    every key of the result comes from such a text of the list, and the
    result is no longer than the list. *)
Theorem convertNotesToVexFlow_keeps_the_staff_form (notes : list string) :
  (forall key, In key (convertNotesToVexFlow notes) <->
     exists c acc ds, In (String c (acc +:+ ds)) notes
                      /\ staff_form c acc ds /\ key = staff_key c acc ds)
  /\ (length (convertNotesToVexFlow notes) <= length notes)%nat
  /\ (forall c acc ds, staff_form c acc ds ->
        convertNotesToVexFlow (String c (acc +:+ ds) :: notes)
        = staff_key c acc ds :: convertNotesToVexFlow notes).
Proof.
  split; [|split].
  - intros key. unfold convertNotesToVexFlow. split.
    + intros H. apply list_elem_of_In, list_elem_of_omap in H as (note & Hin & E).
      destruct (match_note note) as [[[c acc] ds]|] eqn:M; [|discriminate E].
      injection E as <-. apply match_note_sound in M as [Hf ->].
      exists c, acc, ds. split; [now apply list_elem_of_In|]. split; [exact Hf|reflexivity].
    + intros (c & acc & ds & Hin & Hf & ->).
      apply list_elem_of_In, list_elem_of_omap. exists (String c (acc +:+ ds)).
      split; [now apply list_elem_of_In|].
      now rewrite (match_note_accepts c acc ds Hf).
  - unfold convertNotesToVexFlow. apply omap_no_longer.
  - intros c acc ds Hf. now apply convert_accepted.
Qed.

Lemma convertNotesToVexFlow_keeps_the_staff_form_witness :
  convertNotesToVexFlow ["F#5"; "H4"] = "f#/5" :: convertNotesToVexFlow ["H4"].
Proof.
  apply (proj2 (proj2 (convertNotesToVexFlow_keeps_the_staff_form ["H4"]))
           "F"%char "#" "5").
  repeat split; discriminate || reflexivity.
Defined.

(** The notation page on the text [toString()] writes for a well spelled
    note whose octave is a safe integer: a note of an octave that is not
    negative is kept, as its key; a note of a negative octave is
    dropped.  (An octave from 1e21 on is written with an exponent, which
    the page drops as well.) *)
Theorem convertNotesToVexFlow_after_toString (n : Note.t) (notes : list string) :
  well_spelled n -> safe_integer (octave n) ->
  convertNotesToVexFlow (Note.toString n :: notes)
  = if octave n <? 0 then convertNotesToVexFlow notes
    else staff_key_of n :: convertNotesToVexFlow notes.
Proof.
  intros [Hl Ha] _. destruct (letter_is_one_char _ Hl) as (c & Ec & _ & Hc).
  destruct n as [l acc o]. cbn [letter accidental octave] in *. subst l.
  unfold Note.toString, staff_key_of. cbn [letter accidental octave].
  change (String.eqb (String c EmptyString) "") with false. cbv iota.
  rewrite str_app_cons, str_app_nil_l.
  destruct (Z.ltb_spec o 0) as [Hneg|Hpos].
  - destruct o as [|p|p]; try lia. rewrite Z_to_string_neg.
    unfold convertNotesToVexFlow at 1. rewrite omap_step.
    unfold match_note. rewrite Hc.
    rewrite (span_app Chord.is_sharp_or_flat acc "-" _ Ha eq_refl).
    cbn [span]. change (is_digit "-") with false. reflexivity.
  - destruct (Z_to_string_nonneg o Hpos) as (Hne & Hd & _).
    apply convert_accepted. repeat split; assumption.
Qed.

Lemma convertNotesToVexFlow_after_toString_witness :
  convertNotesToVexFlow (Note.toString (Note.new "Eb" 4) :: [])
  = if 4 <? 0 then convertNotesToVexFlow []
    else staff_key_of (Note.new "Eb" 4) :: convertNotesToVexFlow [].
Proof.
  apply (convertNotesToVexFlow_after_toString (Note.new "Eb" 4) []).
  - split; [cbv [letters In Note.new letter first_char]; tauto|reflexivity].
  - vm_compute. split; discriminate.
Defined.

End NoteText.
(** ** Chords derived from a chord *)

Section Derived.

Import Chord.

Lemma filter_sorted (f : Interval.t -> bool) (l : list Interval.t) :
  Sorted interval_le l -> Sorted interval_le (List.filter f l).
Proof.
  intros Hs. apply StronglySorted_Sorted.
  apply Sorted_StronglySorted in Hs; [|exact interval_le_trans].
  induction Hs as [|a l Hs IH Hall]; cbn [List.filter]; [constructor|].
  destruct (f a); [|exact IH]. constructor; [exact IH|].
  rewrite List.Forall_forall in *. intros x Hx.
  apply List.filter_In in Hx as [Hx _]. now apply Hall.
Qed.

Lemma id_by_intervals (c d : t) (b : option Note.t) :
  intervals c = intervals d -> id c b = id d b.
Proof.
  intros H. unfold id, names, sus, quality, names. now rewrite H.
Qed.

Lemma id_starts_with_letter (c : t) (b : Note.t) :
  id c (Some b) = Note.letter b +:+ id c None.
Proof.
  unfold id. destruct (classify _ _ _ _ _) as [alterations additions].
  now rewrite str_app_nil_l.
Qed.

(** [transpositions()] of a chord with a base whose intervals are in
    ascending order: twelve chords, on the twelve names of [NOTES] in
    octave 4 and with the intervals of the chord.  The id of each is the
    first character of the name before the id of the intervals: the
    sharp of a name is not in it, so C and C# give the same id.  On a
    chord without a base the call throws. *)
Theorem transpositions_on_the_twelve_names (c : t) :
  (base c = None -> transpositions c = Err TypeError)
  /\ (forall b, base c = Some b -> Sorted interval_le (intervals c) ->
      exists l,
        transpositions c = Ok l
        /\ map base l = map (fun n => Some (Note.new n 4)) Note.NOTES
        /\ Forall (fun ch => intervals ch = intervals c) l
        /\ map id_self l
           = map (fun n => first_char n +:+ id c None) Note.NOTES).
Proof.
  split.
  - intros H. unfold transpositions. now rewrite H.
  - intros b Hb Hs. unfold transpositions. rewrite Hb.
    cbn [defined mbind res_bind mret res_ret].
    eexists. split; [reflexivity|].
    unfold new_with_base. rewrite (sort_of_sorted _ Hs).
    split; [|split].
    + rewrite map_map. reflexivity.
    + apply List.Forall_forall. intros ch Hch.
      apply in_map_iff in Hch as (n & <- & _). reflexivity.
    + rewrite map_map. apply map_ext. intros n.
      unfold id_self. cbn [base]. rewrite id_starts_with_letter.
      f_equal.
Qed.

Lemma transpositions_on_the_twelve_names_witness :
  exists l,
    transpositions (new_with_base (Note.new "D" 4) [Interval.new 3 0; Interval.new 5 0])
    = Ok l
    /\ map base l = map (fun n => Some (Note.new n 4)) Note.NOTES
    /\ Forall (fun ch => intervals ch
                         = intervals (new_with_base (Note.new "D" 4)
                                        [Interval.new 3 0; Interval.new 5 0])) l
    /\ map id_self l
       = map (fun n => first_char n
                       +:+ id (new_with_base (Note.new "D" 4)
                                 [Interval.new 3 0; Interval.new 5 0]) None)
           Note.NOTES.
Proof.
  apply (proj2 (transpositions_on_the_twelve_names
                  (new_with_base (Note.new "D" 4) [Interval.new 3 0; Interval.new 5 0]))
           (Note.new "D" 4) eq_refl).
  repeat first [apply Sorted_nil | apply Sorted_cons | apply HdRel_nil
               | apply HdRel_cons];
    unfold interval_le; vm_compute; intros H; discriminate H.
Defined.

(** *** Simplifications *)

Lemma fold_max_spec (l : list Z) (x : Z) :
  x <= fold_left Z.max l x
  /\ (forall y, In y l -> y <= fold_left Z.max l x)
  /\ In (fold_left Z.max l x) (x :: l).
Proof.
  revert x. induction l as [|a l IH]; intros x; cbn [fold_left].
  - split; [lia|]. split; [intros y []|now left].
  - destruct (IH (Z.max x a)) as (H1 & H2 & H3). split; [lia|]. split.
    + intros y [<-|Hy]; [lia|now apply H2].
    + destruct H3 as [H3|H3]; [|right; now right].
      rewrite <- H3.
      destruct (Z.max_spec x a) as [[_ E]|[_ E]]; rewrite E.
      * right. now left.
      * now left.
Qed.

Lemma filter_shorter {A} (f : A -> bool) (l : list A) (x : A) :
  In x l -> f x = false -> (length (List.filter f l) < length l)%nat.
Proof.
  induction l as [|a l IH]; intros Hin Hx; [destruct Hin|].
  cbn [List.filter]. pose proof (List.filter_length_le f l) as Hle.
  destruct Hin as [->|Hin].
  - rewrite Hx. cbn [length]. lia.
  - specialize (IH Hin Hx). destruct (f a); cbn [length]; lia.
Qed.

Lemma last_after {A} (x d : A) (l : list A) :
  List.last (x :: l) d = List.last l x.
Proof.
  revert x d. induction l as [|y l IH]; intros x d; [reflexivity|].
  change (List.last (x :: y :: l) d) with (List.last (y :: l) d).
  now rewrite !IH.
Qed.

Lemma simplify_loop_acc (fuel : nat) (b : Note.t) (cur : list Interval.t)
    (acc : list t) :
  simplify_loop fuel b cur acc = acc ++ simplify_loop fuel b cur [].
Proof.
  revert cur acc. induction fuel as [|fuel IH]; intros cur acc; cbn [simplify_loop].
  - now rewrite app_nil_r.
  - destruct (1 <? length cur)%nat; [|now rewrite app_nil_r].
    destruct (List.filter is_odd cur) as [|i odds]; [now rewrite app_nil_r|].
    rewrite IH. rewrite (IH _ ([] ++ _)). now rewrite app_nil_l, app_assoc.
Qed.

Lemma simplify_loop_chain (b : Note.t) (fuel : nat) :
  forall (cur : list Interval.t) (p : t),
    Sorted interval_le cur -> intervals p = cur -> (length cur <= fuel)%nat ->
    linked drops_highest_odd p (simplify_loop fuel b cur [])
    /\ Forall (fun ch => base ch = Some b) (simplify_loop fuel b cur [])
    /\ cannot_simplify (List.last (simplify_loop fuel b cur []) p)
    /\ (forall fuel', (length cur <= fuel')%nat ->
          simplify_loop fuel' b cur [] = simplify_loop fuel b cur []).
Proof.
  induction fuel as [|fuel IH]; intros cur p Hs Hp Hlen.
  - cbn [simplify_loop linked List.last]. repeat split; [constructor| |].
    + left. rewrite Hp. lia.
    + intros [|fuel'] _; [reflexivity|]. cbn [simplify_loop].
      destruct (Nat.ltb_spec 1 (length cur)); [lia|reflexivity].
  - cbn [simplify_loop].
    destruct (Nat.ltb_spec 1 (length cur)) as [Hlong|Hshort].
    2:{ cbn [linked List.last]. repeat split; [constructor| |].
        - left. rewrite Hp. lia.
        - intros [|fuel'] _; [reflexivity|]. cbn [simplify_loop].
          destruct (Nat.ltb_spec 1 (length cur)); [lia|reflexivity]. }
    destruct (List.filter is_odd cur) as [|i odds] eqn:Eodd.
    { cbn [linked List.last]. repeat split; [constructor| |].
      - right. rewrite Hp. intros x Hx.
        destruct (is_odd x) eqn:Ex; [|reflexivity].
        assert (Hin : In x (List.filter is_odd cur))
          by (apply List.filter_In; auto).
        rewrite Eodd in Hin. destruct Hin.
      - intros [|fuel'] Hf; [lia|]. cbn [simplify_loop].
        destruct (Nat.ltb_spec 1 (length cur)); [|lia]. now rewrite Eodd. }
    set (h := fold_left Z.max (map Interval.number odds) (Interval.number i)).
    set (cur' := List.filter (fun i0 => negb (Interval.number i0 =? h)) cur).
    destruct (fold_max_spec (map Interval.number odds) (Interval.number i))
      as (Hinit & Hmax & Hin). fold h in Hinit, Hmax, Hin.
    assert (Hodd : forall x, In x cur -> is_odd x = true ->
                     In (Interval.number x) (Interval.number i :: map Interval.number odds)).
    { intros x Hx Ex. change (In (Interval.number x) (map Interval.number (i :: odds))).
      apply in_map. rewrite <- Eodd. apply List.filter_In. auto. }
    assert (Hwit : exists x, In x cur /\ is_odd x = true /\ Interval.number x = h).
    { change (In h (map Interval.number (i :: odds))) in Hin.
      apply in_map_iff in Hin as (x & Ex & Hx). rewrite <- Eodd in Hx.
      apply List.filter_In in Hx as [Hx1 Hx2]. eauto. }
    assert (Hshorter : (length cur' < length cur)%nat).
    { destruct Hwit as (x & Hx & _ & Ex).
      apply (filter_shorter _ cur x Hx). rewrite Ex, Z.eqb_refl. reflexivity. }
    assert (Hs' : Sorted interval_le cur') by now apply filter_sorted.
    assert (Hq : intervals (new_with_base b cur') = cur').
    { unfold new_with_base. cbn [intervals]. now apply sort_of_sorted. }
    destruct (IH cur' (new_with_base b cur') Hs' Hq ltac:(lia))
      as (L1 & L2 & L3 & L4).
    rewrite simplify_loop_acc, app_nil_l.
    change ([new_with_base b cur'] ++ simplify_loop fuel b cur' [])
      with (new_with_base b cur' :: simplify_loop fuel b cur' []).
    cbn [linked]. rewrite last_after. repeat split; try assumption.
    + exists h. rewrite Hp, Hq. split; [exact Hwit|]. split; [|reflexivity].
      intros x Hx Ex. destruct (Hodd x Hx Ex) as [<-|Hy]; [exact Hinit|].
      now apply Hmax.
    + constructor; [reflexivity|exact L2].
    + intros [|fuel'] Hf; [lia|]. cbn [simplify_loop].
      destruct (Nat.ltb_spec 1 (length cur)); [|lia]. rewrite Eodd.
      fold h. fold cur'. rewrite simplify_loop_acc, app_nil_l.
      rewrite (L4 fuel' ltac:(lia)). reflexivity.
Qed.

(** [simplifications()] of a chord with a base whose intervals are in
    ascending order.  The loop stops, at the latest after as many rounds
    as there are intervals; each chord of the result is on the base of
    the chord and is the one before it (the chord itself, for the first)
    without the intervals of its highest odd number; the last one has at
    most one interval, or none of odd number.  On a chord without a base
    the call throws. *)
Theorem simplifications_drop_the_highest_odd (c : t) :
  (base c = None -> simplifications c = Err TypeError)
  /\ (forall b, base c = Some b -> Sorted interval_le (intervals c) ->
      exists l,
        simplifications c = Ok l
        /\ (forall fuel, (length (intervals c) <= fuel)%nat ->
              simplify_loop fuel b (intervals c) [] = l)
        /\ Forall (fun ch => base ch = Some b) l
        /\ linked drops_highest_odd c l
        /\ cannot_simplify (List.last l c)).
Proof.
  split.
  - intros H. unfold simplifications. now rewrite H.
  - intros b Hb Hs. unfold simplifications. rewrite Hb.
    cbn [defined mbind res_bind mret res_ret].
    destruct (simplify_loop_chain b (length (intervals c)) (intervals c) c Hs
                eq_refl (le_n _)) as (L1 & L2 & L3 & L4).
    eexists. split; [reflexivity|]. repeat split; assumption.
Qed.

Lemma simplifications_drop_the_highest_odd_witness :
  exists l,
    simplifications
      (new_with_base (Note.new "C" 4)
         [Interval.new 3 0; Interval.new 5 0; Interval.new 7 (-1)]) = Ok l
    /\ (forall fuel, (3 <= fuel)%nat ->
          simplify_loop fuel (Note.new "C" 4)
            [Interval.new 3 0; Interval.new 5 0; Interval.new 7 (-1)] [] = l)
    /\ Forall (fun ch => base ch = Some (Note.new "C" 4)) l
    /\ linked drops_highest_odd
         (new_with_base (Note.new "C" 4)
            [Interval.new 3 0; Interval.new 5 0; Interval.new 7 (-1)]) l
    /\ cannot_simplify
         (List.last l
            (new_with_base (Note.new "C" 4)
               [Interval.new 3 0; Interval.new 5 0; Interval.new 7 (-1)])).
Proof.
  apply (proj2 (simplifications_drop_the_highest_odd
                  (new_with_base (Note.new "C" 4)
                     [Interval.new 3 0; Interval.new 5 0; Interval.new 7 (-1)]))
           (Note.new "C" 4) eq_refl).
  repeat first [apply Sorted_nil | apply Sorted_cons | apply HdRel_nil
               | apply HdRel_cons];
    unfold interval_le; vm_compute; intros H; discriminate H.
Defined.

(** *** Extensions *)

Lemma table_entry_parses (q : string) (table : list string) (s : string) :
  In (q, table) MAINS -> In s table ->
  exists a, Interval.strToInterval s = Some a /\ Interval.toString a = s.
Proof.
  intros Hq Hs. cbv [MAINS In] in Hq.
  repeat destruct Hq as [Hq|Hq]; try contradiction; injection Hq as <- <-;
    cbv [In] in Hs;
    repeat destruct Hs as [Hs|Hs]; try contradiction; subst s;
    eexists; split; vm_compute; reflexivity.
Qed.

Lemma in_drop {A} (x : A) (n : nat) (l : list A) : In x (drop n l) -> In x l.
Proof.
  intros H. apply list_elem_of_In. apply list_elem_of_In in H.
  apply list_elem_of_lookup in H as [i Hi]. rewrite lookup_drop in Hi.
  eapply list_elem_of_lookup_2. exact Hi.
Qed.

(** The entries kept parse, each to an interval of that name. *)
Lemma parsed_names (q : string) (table kept : list string) :
  In (q, table) MAINS -> (forall s, In s kept -> In s table) ->
  map Interval.toString (omap Interval.strToInterval kept) = kept.
Proof.
  intros Hq. induction kept as [|s kept IH]; intros Hk; [reflexivity|].
  destruct (table_entry_parses q table s Hq (Hk s (or_introl eq_refl)))
    as (a & Ea & Es).
  rewrite omap_step, Ea. cbn [map]. rewrite Es. f_equal.
  apply IH. intros x Hx. apply Hk. now right.
Qed.

Lemma extend_loop_runs (b : Note.t) (ex : list string) (q : string)
    (table : list string) :
  In (q, table) MAINS ->
  forall (todo : list string) (pcs : list t) (p : t),
    (forall s, In s todo -> In s table) -> last pcs = Some p ->
    extend_loop b ex todo pcs
    = Ok (pcs ++ extension_chain b p
                   (omap Interval.strToInterval
                      (List.filter (fun s => negb (includes ex s)) todo))).
Proof.
  intros Hq. induction todo as [|s todo IH]; intros pcs p Hin Hlast.
  - cbn [extend_loop List.filter]. now rewrite app_nil_r.
  - cbn [extend_loop List.filter].
    assert (Hin' : forall x, In x todo -> In x table)
      by (intros x Hx; apply Hin; now right).
    destruct (negb (includes ex s)).
    + destruct (table_entry_parses q table s Hq (Hin s (or_introl eq_refl)))
        as (a & Ea & _).
      rewrite Hlast, omap_step, Ea. cbn [defined numeric mbind res_bind].
      rewrite (IH _ (new_with_base b (intervals p ++ [a])) Hin').
      * cbn [extension_chain]. now rewrite <- app_assoc.
      * apply last_snoc.
    + now apply IH.
Qed.

Lemma extension_chain_length (b : Note.t) (added : list Interval.t) :
  forall p, length (extension_chain b p added) = length added.
Proof.
  induction added as [|a added IH]; intros p; [reflexivity|].
  cbn [extension_chain length]. now rewrite IH.
Qed.

Lemma extension_chain_at (b : Note.t) (added : list Interval.t) :
  forall (p : t) (k : nat) (ch : t),
    extension_chain b p added !! k = Some ch ->
    base ch = Some b
    /\ Permutation (intervals ch) (intervals p ++ take (S k) added)
    /\ Sorted interval_le (intervals ch).
Proof.
  induction added as [|a added IH]; intros p k ch; [discriminate|].
  cbn [extension_chain]. destruct k as [|k].
  - intros [= <-]. cbn [base intervals new_with_base]. split; [reflexivity|].
    split; [|apply sort_sorted]. rewrite sort_perm.
    destruct added; reflexivity.
  - intros H. change ((new_with_base b (intervals p ++ [a])
                       :: extension_chain b (new_with_base b (intervals p ++ [a])) added)
                      !! S k)
      with (extension_chain b (new_with_base b (intervals p ++ [a])) added !! k) in H.
    destruct (IH _ k ch H) as (H1 & H2 & H3).
    split; [exact H1|]. split; [|exact H3].
    rewrite H2. cbn [intervals new_with_base]. rewrite sort_perm.
    rewrite <- app_assoc. reflexivity.
Qed.

Lemma existsb_perm {A} (f : A -> bool) (l l' : list A) :
  Permutation l l' -> existsb f l = existsb f l'.
Proof.
  intros H. apply eq_true_iff_eq. rewrite !existsb_exists.
  split; intros (x & Hx & Hf); exists x; split; auto.
  - now apply (Permutation_in _ H).
  - now apply (Permutation_in _ (Permutation_sym H)).
Qed.

Lemma not_added (s : string) (pool : list string) (added : list Interval.t) :
  (forall a, In a added -> In (Interval.toString a) pool) -> ~ In s pool ->
  existsb (fun i => String.eqb s (Interval.toString i)) added = false.
Proof.
  intros Hall Hs. destruct (existsb _ added) eqn:E; [|reflexivity].
  apply existsb_exists in E as (a & Ha & Ea). apply String.eqb_eq in Ea.
  exfalso. apply Hs. rewrite Ea. now apply Hall.
Qed.

(** Adding degrees of the table of its quality leaves a chord its
    quality. *)
Lemma quality_kept (c ch : t) (table : list string) (added : list Interval.t) :
  mains (quality c) = Some table ->
  (forall a, In a added -> In (Interval.toString a) (drop 1 table)) ->
  Permutation (intervals ch) (intervals c ++ added) ->
  quality ch = quality c.
Proof.
  intros Hm Hadded Hperm.
  assert (Hflag : forall s, includes (names ch) s
                    = includes (names c) s
                      || existsb (fun i => String.eqb s (Interval.toString i)) added).
  { intros s. rewrite !includes_names, (existsb_perm _ _ _ Hperm).
    apply existsb_app. }
  unfold quality in *. rewrite !Hflag.
  destruct (includes (names c) "m3") eqn:Em3.
  - cbn [orb]. destruct (includes (names c) "D5" && includes (names c) "D7") eqn:Ed.
    + apply andb_true_iff in Ed as [-> ->]. reflexivity.
    + injection Hm as <-.
      rewrite (not_added "D5" _ added Hadded), (not_added "D7" _ added Hadded).
      * rewrite !orb_false_r, Ed. reflexivity.
      * cbv [In drop MAINS mains]. vm_compute. intuition discriminate.
      * vm_compute. intuition discriminate.
  - destruct (includes (names c) "M7") eqn:Em7.
    + injection Hm as <-.
      rewrite (not_added "m3" _ added Hadded); [reflexivity|].
      vm_compute. intuition discriminate.
    + injection Hm as <-.
      rewrite (not_added "m3" _ added Hadded), (not_added "M7" _ added Hadded).
      * reflexivity.
      * vm_compute. intuition discriminate.
      * vm_compute. intuition discriminate.
Qed.

(** [extensions()] of a chord with a base: one chord for each degree of
    the table of the quality of the chord, past the first, whose name
    is not among the names of the chord.  Chord number k+1 is on the
    base of the chord and holds, in ascending order, the intervals of
    the chord and the first k+1 of these degrees; it has the quality of
    the chord.  On a chord without a base the call throws. *)
Theorem extensions_add_the_missing_degrees (c : t) :
  (base c = None -> extensions c = Err TypeError)
  /\ (forall b, base c = Some b ->
      exists l table,
        extensions c = Ok l
        /\ mains (quality c) = Some table
        /\ map Interval.toString (missing_degrees c)
           = List.filter (fun s => negb (includes (names c) s)) (drop 1 table)
        /\ length l = length (missing_degrees c)
        /\ forall k ch, l !! k = Some ch ->
             base ch = Some b
             /\ Permutation (intervals ch)
                  (intervals c ++ take (S k) (missing_degrees c))
             /\ Sorted interval_le (intervals ch)
             /\ quality ch = quality c).
Proof.
  split.
  - intros H. unfold extensions. now rewrite H.
  - intros b Hb. destruct (quality_in_MAINS c) as [table Hm].
    pose proof (mains_cases _ _ Hm) as Hq.
    assert (Hkept : forall s,
              In s (List.filter (fun s => negb (includes (names c) s)) (drop 1 table)) ->
              In s table).
    { intros s Hs. apply List.filter_In in Hs as [Hs _]. now apply in_drop in Hs. }
    assert (Hnames : map Interval.toString (missing_degrees c)
                     = List.filter (fun s => negb (includes (names c) s)) (drop 1 table)).
    { unfold missing_degrees. rewrite Hm.
      exact (parsed_names (quality c) table _ Hq Hkept). }
    exists (extension_chain b c (missing_degrees c)), table.
    split; [|split; [exact Hm|split; [exact Hnames|split]]].
    + unfold extensions. rewrite Hb, Hm. cbn [defined mbind res_bind].
      rewrite (extend_loop_runs b (names c) _ table Hq (drop 1 table) [c] c).
      * cbn [mbind res_bind mret res_ret]. unfold missing_degrees. rewrite Hm.
        reflexivity.
      * intros s Hs. now apply in_drop in Hs.
      * reflexivity.
    + apply extension_chain_length.
    + intros k ch Hk.
      destruct (extension_chain_at b _ c k ch Hk) as (H1 & H2 & H3).
      repeat split; try assumption.
      apply (quality_kept c ch table (take (S k) (missing_degrees c)) Hm); [|exact H2].
      intros a Ha.
      assert (Ha' : In a (missing_degrees c)).
      { apply list_elem_of_In. apply list_elem_of_In in Ha.
        apply elem_of_take in Ha as (j & Hj & _).
        eapply list_elem_of_lookup_2. exact Hj. }
      assert (Hn : In (Interval.toString a) (map Interval.toString (missing_degrees c)))
        by now apply in_map.
      rewrite Hnames in Hn. apply List.filter_In in Hn as [Hn _]. exact Hn.
Qed.

Lemma extensions_add_the_missing_degrees_witness :
  exists l table,
    extensions (new_with_base (Note.new "C" 4) [Interval.new 3 0; Interval.new 5 0])
    = Ok l
    /\ mains (quality (new_with_base (Note.new "C" 4)
                         [Interval.new 3 0; Interval.new 5 0])) = Some table
    /\ map Interval.toString
         (missing_degrees (new_with_base (Note.new "C" 4)
                             [Interval.new 3 0; Interval.new 5 0]))
       = List.filter
           (fun s => negb (includes
                             (names (new_with_base (Note.new "C" 4)
                                       [Interval.new 3 0; Interval.new 5 0])) s))
           (drop 1 table)
    /\ length l
       = length (missing_degrees (new_with_base (Note.new "C" 4)
                                    [Interval.new 3 0; Interval.new 5 0]))
    /\ forall k ch, l !! k = Some ch ->
         base ch = Some (Note.new "C" 4)
         /\ Permutation (intervals ch)
              (intervals (new_with_base (Note.new "C" 4)
                            [Interval.new 3 0; Interval.new 5 0])
               ++ take (S k)
                    (missing_degrees (new_with_base (Note.new "C" 4)
                                        [Interval.new 3 0; Interval.new 5 0])))
         /\ Sorted interval_le (intervals ch)
         /\ quality ch
            = quality (new_with_base (Note.new "C" 4)
                         [Interval.new 3 0; Interval.new 5 0]).
Proof.
  apply (proj2 (extensions_add_the_missing_degrees
                  (new_with_base (Note.new "C" 4) [Interval.new 3 0; Interval.new 5 0]))
           (Note.new "C" 4)).
  reflexivity.
Defined.

(** *** Inversions *)

Lemma minus_NaN (x : jsnum) : minus x NaN = NaN.
Proof. now destruct x. Qed.

Lemma map_constant {A B} (f : A -> B) (y : B) (l : list A) :
  (forall x, f x = y) -> map f l = repeat y (length l).
Proof.
  intros H. induction l as [|x l IH]; [reflexivity|].
  cbn [map length repeat]. now rewrite H, IH.
Qed.

Lemma map_constant_on {A B} (f : A -> B) (x : A) (y : B) (n : nat) :
  f x = y -> map f (repeat x n) = repeat y n.
Proof.
  intros H. induction n as [|n IH]; [reflexivity|].
  cbn [repeat map]. now rewrite H, IH.
Qed.

Lemma last_cons_some {A} (x : A) (l : list A) : exists y, last (x :: l) = Some y.
Proof.
  revert x. induction l as [|z l IH]; intros x; [now exists x|].
  destruct (IH z) as [y Hy]. exists y. exact Hy.
Qed.

(** One round on interval objects: every difference is [NaN]. *)
Lemma cycle_of_intervals (i : Interval.t) (l : list Interval.t) :
  cycle (map Itv (i :: l)) = Ok (repeat (Number NaN) (S (length l))).
Proof.
  unfold cycle. destruct (last_cons_some (Itv i) (map Itv l)) as [y Hy].
  cbn [map]. rewrite Hy. cbn [defined mbind res_bind mret res_ret].
  cbn [app head drop]. cbn [defined mbind res_bind mret res_ret].
  unfold mret, res_ret. f_equal. rewrite drop_0.
  rewrite (map_constant _ (Number NaN)).
  - now rewrite length_app, length_map, Nat.add_1_r.
  - intros x. cbn [element_to_number]. now rewrite to_number_toString, minus_NaN.
Qed.

Lemma last_repeat {A} (x : A) (n : nat) : last (repeat x (S n)) = Some x.
Proof. induction n as [|n IH]; [reflexivity|exact IH]. Qed.

(** One round on numbers that are [NaN]. *)
Lemma cycle_of_NaN (n : nat) :
  cycle (repeat (Number NaN) (S n)) = Ok (repeat (Number NaN) (S n)).
Proof.
  unfold cycle. rewrite last_repeat. cbn [defined mbind res_bind mret res_ret].
  cbn [repeat app head drop element_number octave_above].
  cbn [defined mbind res_bind mret res_ret]. unfold mret, res_ret. f_equal.
  rewrite drop_0.
  rewrite (map_constant _ (Number NaN)).
  - now rewrite length_app, repeat_length, Nat.add_1_r.
  - intros x. cbn [element_to_number]. now rewrite minus_NaN.
Qed.

Lemma cycles_of_NaN (k n : nat) :
  cycles k (repeat (Number NaN) (S n))
  = Ok (repeat (repeat (Number NaN) (S n)) k).
Proof.
  induction k as [|k IH]; [reflexivity|].
  cbn [cycles]. rewrite cycle_of_NaN. cbn [mbind res_bind]. rewrite IH.
  reflexivity.
Qed.

Lemma element_sort_of_NaN (n : nat) :
  element_sort (repeat (Number NaN) n) = repeat (Number NaN) n.
Proof.
  unfold element_sort. induction n as [|n IH]; [reflexivity|].
  cbn [repeat foldr]. rewrite IH. destruct n; reflexivity.
Qed.

Lemma plain_inversions_hold_only_NaN (c : t) :
  plain_inversions c
  = Ok (repeat (repeat (Number NaN) (length (intervals c)))
          (length (intervals c))).
Proof.
  unfold plain_inversions. destruct (intervals c) as [|i l]; [reflexivity|].
  cbn [length cycles]. rewrite cycle_of_intervals. cbn [mbind res_bind].
  rewrite cycles_of_NaN. cbn [mbind res_bind mret res_ret].
  unfold mret, res_ret. f_equal.
  pose proof (element_sort_of_NaN (S (length l))) as E.
  set (row := repeat (Number NaN) (S (length l))) in *.
  change (row :: repeat row (length l)) with (repeat row (S (length l))).
  rewrite (map_constant_on element_sort row row _ E). reflexivity.
Qed.

Lemma mapM_length {A B} (f : A -> res B) (l : list A) (ys : list B) :
  mapM f l = Ok ys -> length ys = length l.
Proof.
  revert ys. induction l as [|x l IH]; intros ys.
  - intros [= <-]. reflexivity.
  - change (mapM f (x :: l)) with (y ← f x; k ← mapM f l; mret (y :: k)).
    destruct (f x) as [y|]; [|discriminate]. cbn [mbind res_bind].
    destruct (mapM f l) as [k|]; [|discriminate]. cbn [mbind res_bind].
    intros [= <-]. cbn [length]. now rewrite (IH k eq_refl).
Qed.

Lemma notes_length (c : t) (b : Note.t) (ns : list Note.t) :
  notes c b = Ok ns -> length ns = S (length (intervals c)).
Proof.
  unfold notes. destruct (mapM (Note.add b) (intervals c)) as [rest|] eqn:E;
    [|discriminate].
  intros [= <-]. cbn [length]. now rewrite (mapM_length _ _ _ E).
Qed.

(** The loop of the override, from round [i] on: the chords before [i]
    stay, the others are put on the notes from [i] on. *)
Lemma rebase_loop_runs (c : t) (b : Note.t) (ns : list Note.t)
    (row : list element) :
  notes c b = Ok ns -> element_sort row = row ->
  forall (k : nat) (done : list inversion),
    (length done + k < length ns)%nat ->
    rebase_loop c b (length done) k (done ++ repeat (mk_inversion None row) k)
    = Ok (done ++ map (fun x => mk_inversion (Some x) row)
                    (take k (drop (length done) ns))).
Proof.
  intros Hns Hrow. induction k as [|k IH]; intros done Hlen.
  - cbn [rebase_loop repeat take map]. reflexivity.
  - cbn [rebase_loop]. rewrite Hns. cbn [mbind res_bind].
    rewrite lookup_app_r by lia. rewrite Nat.sub_diag. cbn [repeat lookup].
    match goal with
    | |- context [list_lookup 0%nat (?x :: ?l)] =>
        change (list_lookup 0%nat (x :: l)) with (Some x)
    end.
    cbn [defined mbind res_bind inversion_intervals]. rewrite Hrow.
    destruct (lookup_lt_is_Some_2 ns (length done) ltac:(lia)) as [x Hx].
    rewrite Hx.
    assert (E : <[length done := mk_inversion (Some x) row]>
                  (done ++ mk_inversion None row :: repeat (mk_inversion None row) k)
                = (done ++ [mk_inversion (Some x) row])
                  ++ repeat (mk_inversion None row) k).
    { rewrite insert_app_r_alt by lia. rewrite Nat.sub_diag.
      now rewrite <- app_assoc. }
    rewrite E.
    replace (S (length done)) with (length (done ++ [mk_inversion (Some x) row]))
      by (rewrite length_app; cbn [length]; lia).
    rewrite IH by (rewrite length_app; cbn [length]; lia).
    rewrite <- app_assoc. do 2 f_equal.
    rewrite length_app. cbn [length]. rewrite Nat.add_1_r.
    rewrite (drop_S ns x (length done) Hx). reflexivity.
Qed.

(** [inversions()].  On a chord without a base it returns as many
    chords as the chord has intervals, and each holds that many times
    [NaN] where its intervals should be: the differences
    [i - newset[0]] are taken between interval objects, which convert
    to numbers through their names.  On a chord with a base the
    override throws whatever [notes()] throws (it does on a base
    spelled below C); when [notes()] returns, the result is the same
    chords of [NaN], each put on the note of its place among the notes
    of the chord. *)
Theorem inversions_hold_only_NaN (c : t) :
  let n := length (intervals c) in
  let row := repeat (Number NaN) n in
  (base c = None -> inversions c = Ok (repeat (mk_inversion None row) n))
  /\ (forall b e, base c = Some b -> notes c b = Err e -> inversions c = Err e)
  /\ (forall b ns, base c = Some b -> notes c b = Ok ns ->
        inversions c
        = Ok (map (fun x => mk_inversion (Some x) row) (take n ns))).
Proof.
  intros n row.
  assert (Hls : map (mk_inversion None) (repeat row n)
                = repeat (mk_inversion None row) n)
    by (now apply map_constant_on).
  split; [|split].
  - intros Hb. unfold inversions.
    rewrite plain_inversions_hold_only_NaN, Hb. cbn [mbind res_bind].
    fold n. fold row. now rewrite Hls.
  - intros b e Hb He. unfold inversions.
    rewrite plain_inversions_hold_only_NaN, Hb. cbn [mbind res_bind]. fold n.
    destruct n as [|k] eqn:En.
    + exfalso. unfold n in En. apply length_zero_iff_nil in En.
      unfold notes in He. rewrite En in He. discriminate He.
    + cbn [rebase_loop]. now rewrite He.
  - intros b ns Hb Hns. unfold inversions.
    rewrite plain_inversions_hold_only_NaN, Hb. cbn [mbind res_bind].
    fold n. fold row. rewrite Hls.
    pose proof (notes_length c b ns Hns) as Hlen. fold n in Hlen.
    exact (rebase_loop_runs c b ns row Hns (element_sort_of_NaN n) n []
             ltac:(cbn [length]; lia)).
Qed.

Lemma inversions_hold_only_NaN_witness :
  inversions (new [Interval.new 3 0; Interval.new 5 0])
  = Ok (repeat (mk_inversion None (repeat (Number NaN) 2)) 2)
  /\ inversions (new_with_base (Note.new "Cb" 4) [Interval.new 3 0; Interval.new 5 0])
     = Err TypeError
  /\ inversions (new_with_base (Note.new "C" 4) [Interval.new 3 0; Interval.new 5 0])
     = Ok (map (fun x => mk_inversion (Some x) (repeat (Number NaN) 2))
             (take 2 [Note.new "C" 4; Note.new "E" 4; Note.new "G" 4])).
Proof.
  split; [|split].
  - apply (proj1 (inversions_hold_only_NaN
                    (new [Interval.new 3 0; Interval.new 5 0]))).
    reflexivity.
  - apply (proj1 (proj2 (inversions_hold_only_NaN
                    (new_with_base (Note.new "Cb" 4)
                       [Interval.new 3 0; Interval.new 5 0])))
             (Note.new "Cb" 4) TypeError); reflexivity.
  - apply (proj2 (proj2 (inversions_hold_only_NaN
                    (new_with_base (Note.new "C" 4)
                       [Interval.new 3 0; Interval.new 5 0])))
             (Note.new "C" 4)); reflexivity.
Defined.

End Derived.
(** ** The notes of chords and scales *)

Section Spelled.

Import Chord.

Lemma mapM_step {A B} (f : A -> res B) (x : A) (l : list A) :
  mapM f (x :: l) = y ← f x; k ← mapM f l; mret (y :: k).
Proof. reflexivity. Qed.

Lemma notes_spelled (base : Note.t) (s : Z) (l : list Interval.t) :
  In (Note.letter base) Note.letters -> Note.toSemitones base = Ok s ->
  Forall (reachable_from s) l ->
  exists ns, mapM (Note.add base) l = Ok ns
             /\ Forall2 (degree_above base s) l ns.
Proof.
  intros Hl Hs. induction l as [|i l IH]; intros Hall.
  - exists []. split; [reflexivity|constructor].
  - apply Forall_cons in Hall as [Hi Hall].
    destruct (IH Hall) as (ns & E & Hns).
    destruct (add_degree_above base i s Hl Hs Hi) as (m & Em & Hm & _).
    exists (m :: ns). rewrite mapM_step, Em. cbn [mbind res_bind]. rewrite E.
    split; [reflexivity|]. constructor; [exact Hm|exact Hns].
Qed.

(** [notes(base)] of a chord, on a base spelled with one of the seven
    letters that has a semitone count, when every interval of the chord
    has a positive number and does not lead below MIDI number 0: the
    call returns the base, then one note for each interval, in their
    order, each the degree of its interval above the base. *)
Theorem notes_spell_each_degree (c : t) (base : Note.t) (s : Z) :
  In (Note.letter base) Note.letters -> Note.toSemitones base = Ok s ->
  Forall (reachable_from s) (intervals c) ->
  exists ns, notes c base = Ok (base :: ns)
             /\ Forall2 (degree_above base s) (intervals c) ns.
Proof.
  intros Hl Hs Hall. destruct (notes_spelled base s _ Hl Hs Hall) as (ns & E & H).
  exists ns. unfold notes. rewrite E. split; [reflexivity|exact H].
Qed.

Lemma notes_spell_each_degree_witness :
  exists ns,
    notes (new [Interval.new 3 (-1); Interval.new 5 0]) (Note.new "F" 4)
    = Ok (Note.new "F" 4 :: ns)
    /\ Forall2 (degree_above (Note.new "F" 4) 65)
         (intervals (new [Interval.new 3 (-1); Interval.new 5 0])) ns.
Proof.
  apply (notes_spell_each_degree (new [Interval.new 3 (-1); Interval.new 5 0])
           (Note.new "F" 4) 65).
  - cbv [Note.letters In Note.new Note.letter first_char]. tauto.
  - reflexivity.
  - repeat constructor; vm_compute; discriminate.
Defined.

(** [notes()] of a scale on a note of Note.js spells the notes as a
    chord of the same intervals does on that base. *)
Lemma scale_notes_as_chord_notes (n : Note.t) (l : list Interval.t) :
  Scale.notes (Scale.mk (Scale.External n) l)
  = map Scale.External <$> notes (mk l None) n.
Proof.
  unfold Scale.notes, notes. cbn [Scale.base Scale.intervals intervals].
  assert (E : mapM (Scale.note_add (Scale.External n)) l
              = map Scale.External <$> mapM (Note.add n) l).
  { induction l as [|i l IH]; [reflexivity|].
    rewrite !mapM_step, IH. cbn [Scale.note_add].
    destruct (Note.add n i) as [m|e]; [|reflexivity].
    cbn [fmap res_fmap mbind res_bind].
    destruct (mapM (Note.add n) l); reflexivity. }
  rewrite E. destruct (mapM (Note.add n) l); reflexivity.
Qed.

Lemma transposition_grid :
  forallb (fun note => forallb (transposes_from_C note) Scale.SCALES) Note.NOTES
  = true.
Proof. vm_compute. reflexivity. Qed.

(** The pitch classes [findMatchingScales()] compares with: for each of
    the twelve roots and the seven scale names, the notes of the scale
    have semitone counts, and their pitch classes are those of the scale
    of that name on C moved up by the place of the root. *)
Theorem scales_transpose_from_C (note scale : string) :
  In note Note.NOTES -> In scale Scale.SCALES ->
  exists on_C,
    scale_pitch_classes "C" scale = Ok on_C
    /\ scale_pitch_classes note scale
       = Ok (moved_up (indexOf Note.NOTES note) on_C).
Proof.
  intros Hn Hs. pose proof transposition_grid as G.
  rewrite forallb_forall in G. specialize (G note Hn).
  rewrite forallb_forall in G. specialize (G scale Hs).
  unfold transposes_from_C in G.
  destruct (scale_pitch_classes "C" scale) as [on_C|]; [|discriminate G].
  destruct (scale_pitch_classes note scale) as [on_note|]; [|discriminate G].
  apply bool_decide_eq_true in G. exists on_C. now subst.
Qed.

Lemma scales_transpose_from_C_witness :
  exists on_C,
    scale_pitch_classes "C" "blues scale" = Ok on_C
    /\ scale_pitch_classes "F#" "blues scale"
       = Ok (moved_up (indexOf Note.NOTES "F#") on_C).
Proof.
  apply (scales_transpose_from_C "F#" "blues scale").
  - cbv [Note.NOTES In]. tauto.
  - cbv [Scale.SCALES In]. tauto.
Defined.

End Spelled.
(** ** Decoded chords *)

Section Decoded.

Import Chord.



(** The round trip of the ids of the table chords, at the seventh chord
    of the "min" table on the base D. *)
Lemma roundtrip_on_table_chords_witness :
  id_of_decoded_id (table_chord "min" 3) (Some (Note.new "D" 4))
  = Ok (Chord.id (table_chord "min" 3) (Some (Note.new "D" 4))).
Proof.
  apply (roundtrip_on_table_chords "min" 3 (Some (Note.new "D" 4))).
  - cbn [In]. tauto.
  - lia.
  - vm_compute. tauto.
  - discriminate.
Defined.

End Decoded.
(** ** Shapes the constructors and templates keep *)

Section Shapes.

(** [new Interval(number, quality)] keeps the number and brings the
    quality strictly between -12 and 12, leaving it as it is when it is
    already there and changing it by a multiple of 12 otherwise. *)
Lemma constructor_bounds_the_quality (number quality : Z) :
  Interval.number (Interval.new number quality) = number
  /\ -12 < Interval.quality (Interval.new number quality) < 12
  /\ (exists k, Interval.quality (Interval.new number quality) = quality + 12 * k)
  /\ (-12 < quality < 12 ->
      Interval.quality (Interval.new number quality) = quality).
Proof.
  split; [reflexivity|]. unfold Interval.new. cbn [Interval.quality].
  destruct (Z.leb_spec quality (-12)) as [Hlo|Hlo];
    destruct (Z.geb_spec quality 12) as [Hhi|Hhi]; cbn [orb];
    pose proof (Z.rem_bound_abs quality 12 ltac:(lia)) as Hb;
    pose proof (Z.quot_rem' quality 12) as Hq.
  - lia.
  - split; [lia|]. split; [exists (- Z.quot quality 12); lia|lia].
  - split; [lia|]. split; [exists (- Z.quot quality 12); lia|lia].
  - split; [lia|]. split; [exists 0; lia|reflexivity].
Qed.

(** [toSemitones()] counts 12 semitones for each 7 in the number: for an
    interval of positive number, [k] octaves more in the number are
    [12 * k] semitones more.  For a number below 1 that is not 1 less a
    multiple of 7 the table lookup is out of range and the result is
    [NaN]. *)
Theorem toSemitones_counts_octaves (i : Interval.t) :
  (1 <= Interval.number i ->
   exists s, Interval.toSemitones i = Num s
             /\ forall k, 0 <= k ->
                  Interval.toSemitones
                    (Interval.mk (Interval.number i + 7 * k) (Interval.quality i))
                  = Num (s + 12 * k))
  /\ (Interval.number i < 1 -> Z.rem (Interval.number i - 1) 7 <> 0 ->
      Interval.toSemitones i = NaN).
Proof.
  split.
  - intros Hn. destruct (toSemitones_positive i Hn) as (base & Eb & Es).
    eexists. split; [exact Es|]. intros k Hk.
    unfold Interval.toSemitones. cbn [Interval.number Interval.quality].
    assert (E1 : Z.rem (Interval.number i + 7 * k - 1) 7
                 = Z.rem (Interval.number i - 1) 7).
    { rewrite !Z.rem_mod_nonneg by lia.
      replace (Interval.number i + 7 * k - 1)
        with (Interval.number i - 1 + k * 7) by lia.
      now rewrite Z.mod_add by lia. }
    assert (E2 : (Interval.number i + 7 * k - 1) / 7
                 = (Interval.number i - 1) / 7 + k).
    { replace (Interval.number i + 7 * k - 1)
        with (Interval.number i - 1 + k * 7) by lia.
      now rewrite Z.div_add by lia. }
    rewrite E1, E2, Eb. f_equal. lia.
  - intros Hn Hr. unfold Interval.toSemitones.
    pose proof (Z.rem_nonpos (Interval.number i - 1) 7 ltac:(lia) ltac:(lia)).
    rewrite table_undefined by lia. reflexivity.
Qed.

Lemma toSemitones_counts_octaves_witness :
  (exists s, Interval.toSemitones (Interval.new 3 (-1)) = Num s
             /\ forall k, 0 <= k ->
                  Interval.toSemitones (Interval.mk (3 + 7 * k) (-1))
                  = Num (s + 12 * k))
  /\ Interval.toSemitones (Interval.new 0 0) = NaN.
Proof.
  split.
  - apply (proj1 (toSemitones_counts_octaves (Interval.new 3 (-1)))).
    vm_compute. discriminate.
  - apply (proj2 (toSemitones_counts_octaves (Interval.new 0 0)));
      vm_compute; [reflexivity|discriminate].
Defined.

Import Scale.

Lemma template_intervals (name : string) (base : option note) :
  In (intervals (generateScale name base))
    (map (fun n => intervals (generateScale n None)) SCALES ++ [[]]).
Proof.
  unfold generateScale.
  repeat match goal with
         | |- context [String.eqb name ?s] =>
             destruct (String.eqb_spec name s) as [->|_];
             [vm_compute; tauto|]
         end.
  vm_compute. tauto.
Qed.

(** [Scale.generateScale(name, base)], for every name: the scale is on
    the given base, or on the default base when none is given, and its
    intervals are in ascending order although the templates write
    qualities and drop intervals after the constructor has sorted; they
    do not depend on the base. *)
Theorem generateScale_keeps_ascending_order (name : string) (base : option note) :
  Scale.base (generateScale name base) = default default_base base
  /\ intervals (generateScale name base) = intervals (generateScale name None)
  /\ Sorted interval_le (intervals (generateScale name base)).
Proof.
  split; [|split].
  - unfold generateScale.
    repeat match goal with
           | |- context [String.eqb name ?s] => destruct (String.eqb name s)
           end; destruct base; reflexivity.
  - unfold generateScale.
    repeat match goal with
           | |- context [String.eqb name ?s] => destruct (String.eqb name s)
           end; reflexivity.
  - pose proof (template_intervals name base) as H.
    cbv [SCALES map app In] in H.
    repeat destruct H as [H|H]; try contradiction; rewrite <- H;
      repeat first [apply Sorted_nil | apply Sorted_cons | apply HdRel_nil
                   | apply HdRel_cons];
      unfold interval_le; vm_compute; intros H'; discriminate H'.
Qed.

End Shapes.
(** ** Scale matching, for every chord *)

Section Matched.

Import Chord.












End Matched.
